(** * Qiskit [QuantumProgram] orchestrator and [_remove_identity]

    A shallow embedding of [qiskit/_quantumprogram.py] (compile, dispatch,
    polling, local engines, result accessors, observable averaging) and of
    [_remove_identity] from
    [qiskit/algorithms/phase_estimators/hamiltonian_phase_estimation.py].

    Python objects are modelled as follows.
    - Insertion-ordered dicts whose iteration order is observable (the
      execution queue, counts tables, JSON payloads) are association lists
      in insertion order; dicts that are only looked up (the circuit
      catalog, the per-circuit execution map) are [gmap]s.
    - Integers are [Z]; floats are binary64 primitive floats.
    - An uncaught exception is the [Raise] outcome; a [return] inside a
      loop is the [Returned] flow of the dispatcher.
    - External collaborators (unroller, mapper, simulators, remote API,
      [random.random]) are section variables. *)

From Stdlib Require Import ZArith String Ascii List Lia Permutation.
From Stdlib Require Import PrimFloat SpecFloat FloatOps.
From stdpp Require Import gmap strings list.

Set Warnings "-register-all,-inexact-float".

Local Open Scope string_scope.
Local Open Scope Z_scope.
Local Open Scope list_scope.

(** ** Python values, exceptions and helpers *)

Module Py.

Inductive exn :=
| KeyError (key : string)
| IndexError
| TypeError
| AttributeError
| AssertionError
| ZeroDivisionError
| OverflowError
| ValueError
| SimulatorError.

(** Result of evaluating an expression that may raise. *)
Inductive outcome (A : Type) :=
| Return (a : A)
| Raise (e : exn).
Arguments Return {A} a.
Arguments Raise {A} e.

Definition bind {A B} (o : outcome A) (k : A -> outcome B) : outcome B :=
  match o with
  | Return a => k a
  | Raise e => Raise e
  end.

Notation "x <- c ;; k" := (bind c (fun x => k))
  (at level 100, c at next level, right associativity).

(** JSON-like dynamic values: result payloads of engines and of the remote
    service. *)
Inductive value :=
| VNone
| VInt (n : Z)
| VFloat (f : float)
| VStr (s : string)
| VList (l : list value)
| VDict (d : list (string * value)).

(** [d.get(k)] on an association list in insertion order. *)
Fixpoint dict_get {A} (k : string) (d : list (string * A)) : option A :=
  match d with
  | [] => None
  | (k', v) :: d' => if String.eqb k' k then Some v else dict_get k d'
  end.

Definition dict_mem {A} (k : string) (d : list (string * A)) : bool :=
  match dict_get k d with Some _ => true | None => false end.

(** [v[k]] with a string key: [KeyError] on a dict without the key,
    [TypeError] on anything that is not a dict. *)
Definition subscript (v : value) (k : string) : outcome value :=
  match v with
  | VDict d =>
      match dict_get k d with
      | Some x => Return x
      | None => Raise (KeyError k)
      end
  | _ => Raise TypeError
  end.

(** The dict [{"status": "Error", "result": msg}] as a value. *)
Definition error_dict (msg : string) : value :=
  VDict [("status", VStr "Error"); ("result", VStr msg)].

(** *** [bin], slicing and [str.zfill] *)

Fixpoint pos_digits (p : positive) : string :=
  match p with
  | xH => "1"
  | xO p' => pos_digits p' +:+ "0"
  | xI p' => pos_digits p' +:+ "1"
  end.

(** [bin(n)]: ["0b..."] with a leading ["-"] for negative numbers. *)
Definition bin (n : Z) : string :=
  match n with
  | Z0 => "0b0"
  | Zpos p => "0b" +:+ pos_digits p
  | Zneg p => "-0b" +:+ pos_digits p
  end.

(** [s[n:]] *)
Fixpoint drop_chars (n : nat) (s : string) : string :=
  match n, s with
  | O, _ => s
  | S n', String _ s' => drop_chars n' s'
  | S _, EmptyString => EmptyString
  end.

Fixpoint zeros (n : nat) : string :=
  match n with
  | O => EmptyString
  | S n' => String "0"%char (zeros n')
  end.

(** [s.zfill(width)]: pads with ["0"] on the left up to [width]; a leading
    sign stays in front of the padding; longer strings are unchanged. *)
Definition zfill (s : string) (width : Z) : string :=
  let len := Z.of_nat (String.length s) in
  if width <=? len then s
  else
    let fill := zeros (Z.to_nat (width - len)) in
    match s with
    | String c rest =>
        if (Ascii.eqb c "+" || Ascii.eqb c "-")%bool
        then String c (fill +:+ rest)
        else fill +:+ s
    | EmptyString => fill
    end.

(** *** [collections.Counter] over a list of strings, as [dict(Counter(l))] *)

Fixpoint counter_incr (k : string) (c : list (string * Z)) : list (string * Z) :=
  match c with
  | [] => [(k, 1)]
  | (k', n) :: c' =>
      if String.eqb k' k then (k', n + 1) :: c' else (k', n) :: counter_incr k c'
  end.

Definition Counter (l : list string) : list (string * Z) :=
  fold_left (fun c k => counter_incr k c) l [].

(** *** The int/float part of the numeric tower *)

Inductive num :=
| NInt (n : Z)
| NFloat (f : float).

(** [float(n)] for an int: round to nearest even, [OverflowError] when the
    int is too large for a double. *)
Definition to_float (n : Z) : outcome float :=
  let f := SF2Prim (binary_normalize prec emax n 0 false) in
  if PrimFloat.is_infinity f then Raise OverflowError else Return f.

Definition num_to_float (a : num) : outcome float :=
  match a with
  | NInt n => to_float n
  | NFloat f => Return f
  end.

(** [a + b] *)
Definition add (a b : num) : outcome num :=
  match a, b with
  | NInt m, NInt n => Return (NInt (m + n))
  | _, _ =>
      x <- num_to_float a ;;
      y <- num_to_float b ;;
      Return (NFloat (x + y)%float)
  end.

(** [a * f] with a float right operand. *)
Definition mul_float (a : num) (f : float) : outcome float :=
  x <- num_to_float a ;;
  Return (x * f)%float.

(** [f / b] with a float left operand: both operands are converted first,
    then a zero divisor raises. *)
Definition float_div (f : float) (b : num) : outcome float :=
  y <- num_to_float b ;;
  if PrimFloat.eqb y 0%float then Raise ZeroDivisionError
  else Return (f / y)%float.

(** A value used as a number ([int] or [float]); anything else is a
    [TypeError] in arithmetic. *)
Definition as_num (v : value) : outcome num :=
  match v with
  | VInt n => Return (NInt n)
  | VFloat f => Return (NFloat f)
  | _ => Raise TypeError
  end.

(** [sum(vs)]: starts from the int [0] and adds from the left. *)
Fixpoint sum_from (acc : num) (vs : list value) : outcome num :=
  match vs with
  | [] => Return acc
  | v :: vs' =>
      n <- as_num v ;;
      acc' <- add acc n ;;
      sum_from acc' vs'
  end.

Definition sum (vs : list value) : outcome num := sum_from (NInt 0) vs.

(** *** The helpers on a few inputs *)

Example bin_zfill_pads : zfill (drop_chars 2 (bin 5)) 8 = "00000101".
Proof. reflexivity. Qed.

Example bin_zfill_keeps_longer : zfill (drop_chars 2 (bin 5)) 2 = "101".
Proof. reflexivity. Qed.

Example bin_zfill_zero_width : zfill (drop_chars 2 (bin 0)) 0 = "0".
Proof. reflexivity. Qed.

Example bin_zfill_negative : zfill (drop_chars 2 (bin (-5))) 6 = "00b101".
Proof. reflexivity. Qed.

Example zfill_sign : zfill "-42" 5 = "-0042".
Proof. reflexivity. Qed.

Example Counter_counts :
  Counter ["01"; "11"; "01"; "00"; "01"] = [("01", 3); ("11", 1); ("00", 1)].
Proof. reflexivity. Qed.

Example sum_of_strings_raises : sum [VStr "Error"; VStr "x"] = Raise TypeError.
Proof. reflexivity. Qed.

Example to_float_rounds : to_float (2 ^ 53 + 1) = Return 9007199254740992%float.
Proof. vm_compute. reflexivity. Qed.

Example to_float_overflows : to_float (2 ^ 1024) = Raise OverflowError.
Proof. vm_compute. reflexivity. Qed.

End Py.

(** ** Removing identity terms from a Pauli sum *)

Module HamiltonianPhaseEstimation.

(** A Pauli primitive: its X and Z bit vectors, one bit per qubit. *)
Record Pauli := { pauli_x : list bool; pauli_z : list bool }.

Section Coefficients.

(** Coefficients as Python has them, with the float [0.0] that the loop
    starts from, the float [1.0] that a new [SummedOp] gets, [+] and [*]:
    binary64 floats for float coefficients. *)
Variable C : Type.
Variable czero : C.
Variable cone : C.
Variable cadd : C -> C -> C.
Variable cmul : C -> C -> C.

Record PauliOp := { primitive : Pauli; coeff : C }.

(** A [SummedOp] as the function uses it: the list of its terms, which
    iterating over it yields, and its own coefficient, which multiplies
    the whole sum and which the loop does not read. *)
Record SummedOp := { oplist : list PauliOp; sum_coeff : C }.

(** [SummedOp(ops)]: the coefficient is left at its default. *)
Definition new_SummedOp (ops : list PauliOp) : SummedOp :=
  {| oplist := ops; sum_coeff := cone |}.

(** [array.any()] *)
Definition any (a : list bool) : bool := existsb id a.

Definition has_x_or_z (op : PauliOp) : bool :=
  (any (pauli_x (primitive op)) || any (pauli_z (primitive op)))%bool.

(** The terms that the loop counts as identities. *)
Definition is_identity (op : PauliOp) : bool := negb (has_x_or_z op).

(** One pass of the loop, on the pair of [idcoeff] and [ops]. *)
Definition remove_identity_step (acc : C * list PauliOp) (op : PauliOp)
    : C * list PauliOp :=
  let '(idcoeff, ops) := acc in
  if has_x_or_z op then (idcoeff, ops ++ [op])
  else (cadd idcoeff (coeff op), ops).

Definition _remove_identity (pauli_sum : SummedOp) : C * SummedOp :=
  let '(idcoeff, ops) :=
    fold_left remove_identity_step (oplist pauli_sum) (czero, []) in
  (idcoeff, new_SummedOp ops).

(** What a sum denotes. The coefficients that the terms of a list give to
    a Pauli, in their order, and the weight that a sum gives to it: its
    own coefficient times these coefficients added up from [0.0]. *)
Definition pauli_eqb (p q : Pauli) : bool :=
  (bool_decide (pauli_x p = pauli_x q) && bool_decide (pauli_z p = pauli_z q))%bool.

Definition coefficients (P : Pauli) (ops : list PauliOp) : list C :=
  map coeff (List.filter (fun op => pauli_eqb (primitive op) P) ops).

Definition weight (P : Pauli) (s : SummedOp) : C :=
  cmul (sum_coeff s) (fold_left cadd (coefficients P (oplist s)) czero).

(** The identity on [n] qubits and [c] times it. *)
Definition identity (n : nat) : Pauli :=
  {| pauli_x := repeat false n; pauli_z := repeat false n |}.
Definition scaled_identity (c : C) (n : nat) : PauliOp :=
  {| primitive := identity n; coeff := c |}.

Definition on_qubits (n : nat) (op : PauliOp) : Prop :=
  length (pauli_x (primitive op)) = n /\ length (pauli_z (primitive op)) = n.

End Coefficients.

Arguments primitive {C} _.
Arguments coeff {C} _.
Arguments oplist {C} _.
Arguments sum_coeff {C} _.
Arguments has_x_or_z {C} _.
Arguments is_identity {C} _.
Arguments on_qubits {C} _ _.
Arguments coefficients {C} P ops.

(** The sum of floats as a real number, rounded once to the nearest
    double: a finite float is [m * 2 ^ e]. *)
Definition exact (f : float) : Z * Z :=
  match Prim2SF f with
  | S754_finite sign m e => (if sign then Z.neg m else Z.pos m, e)
  | _ => (0, 0)
  end.

Definition exact_add (x y : Z * Z) : Z * Z :=
  let e := Z.min (snd x) (snd y) in
  (fst x * 2 ^ (snd x - e) + fst y * 2 ^ (snd y - e), e).

Definition rounded_sum (l : list float) : float :=
  let '(m, e) := fold_left exact_add (map exact l) (0, 0) in
  SF2Prim (binary_normalize prec emax m e false).

End HamiltonianPhaseEstimation.

(** ** The quantum program orchestrator *)

Module QuantumProgram.
Import Py.

Definition online_devices : list string :=
  ["real"; "ibmqx2"; "ibmqx3"; "simulator"; "ibmqx_qasm_simulator"].
Definition local_devices : list string :=
  ["local_unitary_simulator"; "local_qasm_simulator"].

(** [x in l] for a list of strings. *)
Definition str_in (x : string) (l : list string) : bool :=
  existsb (String.eqb x) l.

(** Adjacency dict of a coupling map. *)
Definition coupling := list (Z * list Z).

(** A dict with the keys [status] and [result], or a raw job payload of
    the remote service: what [compile], [run] and [wait_for_job] return. *)
Record one_result := { r_result : value; r_status : string }.
Record job_payload := { jp_status : string; jp_qasms : option (list one_result) }.

Inductive reply :=
| Msg (status result : string)
| RawJob (job : job_payload).

Definition reply_status (r : reply) : string :=
  match r with
  | Msg s _ => s
  | RawJob j => jp_status j
  end.

Section Program.

(** Circuit objects and DAGs (anything with a [qasm()] method), the local
    simulators' input, seeds, and the state of the remote service. *)
Variables Circ SimCirc Seed Api : Type.

(** Unroller and mapper collaborators; they are taken to return (an
    exception of theirs would leave [compile] where it is raised). *)
Variable unroll_to_basis : Circ -> string -> Circ.
Variable qasm : Circ -> string.
Variable swap_mapper : Circ -> coupling -> Circ.
Variable direction_mapper : Circ -> coupling -> Circ.
Variable cx_cancellation : Circ -> Circ.
Variable optimize_1q_gates : Circ -> Circ.
Variable simulator_backend : string -> option string -> SimCirc.

(** [random.random()]: the value of the n-th draw. *)
Variable random_random : nat -> Seed.

(** Entries of [__to_execute[device]]. *)
Record job := {
  job_name : string;
  job_qasm_compiled : string;
  job_coupling_map : option coupling;
  job_basis_gates : option string;
  job_compiled_circuit : option SimCirc;
  job_shots : Z;
  job_max_credits : Z;
  job_seed : option Seed
}.

(** [__quantum_program["circuits"][name]["execution"][device]] *)
Record execution_record := {
  ex_qasm_compiled : string;
  ex_coupling_map : option coupling;
  ex_basis_gates : option string;
  ex_compiled_circuit : option SimCirc;
  ex_shots : Z;
  ex_max_credits : Z;
  ex_result : value;
  ex_status : string
}.

(** [__quantum_program["circuits"][name]]; the ["execution"] key may be
    missing. *)
Record circuit_entry := {
  circuit : Circ;
  execution : option (gmap string execution_record)
}.

(** The program object together with the process state it acts on: the
    remote service, the number of random draws made, the sleeps done. *)
Record state := {
  circuits : gmap string circuit_entry;
  last_device_backend : string;
  to_execute : list (string * list job);
  api : Api;
  draws : nat;
  slept : list Z
}.

Definition set_circuits (c : gmap string circuit_entry) (st : state) : state :=
  {| circuits := c; last_device_backend := last_device_backend st;
     to_execute := to_execute st; api := api st; draws := draws st;
     slept := slept st |}.
Definition set_last_device_backend (d : string) (st : state) : state :=
  {| circuits := circuits st; last_device_backend := d;
     to_execute := to_execute st; api := api st; draws := draws st;
     slept := slept st |}.
Definition set_to_execute (q : list (string * list job)) (st : state) : state :=
  {| circuits := circuits st; last_device_backend := last_device_backend st;
     to_execute := q; api := api st; draws := draws st; slept := slept st |}.
Definition set_api (a : Api) (st : state) : state :=
  {| circuits := circuits st; last_device_backend := last_device_backend st;
     to_execute := to_execute st; api := a; draws := draws st;
     slept := slept st |}.
Definition set_draws (n : nat) (st : state) : state :=
  {| circuits := circuits st; last_device_backend := last_device_backend st;
     to_execute := to_execute st; api := api st; draws := n;
     slept := slept st |}.
Definition set_slept (l : list Z) (st : state) : state :=
  {| circuits := circuits st; last_device_backend := last_device_backend st;
     to_execute := to_execute st; api := api st; draws := draws st;
     slept := l |}.

(** [add_circuit]: the entry has no ["execution"] key. *)
Definition add_circuit (name : string) (c : Circ) (st : state) : state :=
  set_circuits (<[name := {| circuit := c; execution := None |}]> (circuits st)) st.

(** *** Compiler *)

Definition default_basis : string := "u1,u2,u3,cx,id".

(** [not basis_gates] holds for [None] and for the empty string. *)
Definition basis_or_default (basis_gates : option string) : string :=
  match basis_gates with
  | Some (String c s) => String c s
  | _ => default_basis
  end.

Definition unroller_code (c : Circ) (basis_gates : option string) : string * Circ :=
  let unrolled := unroll_to_basis c (basis_or_default basis_gates) in
  (qasm unrolled, unrolled).

(** The mapping pass done when [coupling_map] is truthy. *)
Definition map_to_coupling (dag : Circ) (cm : coupling) : string :=
  let dag1 := swap_mapper dag cm in
  let dag2 := snd (unroller_code dag1 None) in
  let dag3 := direction_mapper dag2 cm in
  let dag4 := cx_cancellation dag3 in
  let dag5 := optimize_1q_gates dag4 in
  qasm dag5.

Definition compile_qasm (c : Circ) (basis_gates : option string)
    (coupling_map : option coupling) : string :=
  let '(qasm_compiled, dag_unrolled) := unroller_code c basis_gates in
  match coupling_map with
  | Some (e :: cm) => map_to_coupling dag_unrolled (e :: cm)
  | _ => qasm_compiled
  end.

(** [__to_execute[device].append(job)], creating the device entry (at the
    end of the dict) when it is absent. *)
Fixpoint queue_append (device : string) (j : job) (q : list (string * list job))
    : list (string * list job) :=
  match q with
  | [] => [(device, [j])]
  | (d, js) :: q' =>
      if String.eqb d device then (d, js ++ [j]) :: q'
      else (d, js) :: queue_append device j q'
  end.

(** One pass of the body of the loop of [compile], for a name that is in
    the catalog. *)
Definition compile_one (name : string) (c : Circ) (device : string)
    (shots max_credits : Z) (basis_gates : option string)
    (coupling_map : option coupling) (seed : option Seed) (st : state) : state :=
  let qasm_compiled := compile_qasm c basis_gates coupling_map in
  let is_local := str_in device ["local_unitary_simulator"; "local_qasm_simulator"] in
  let j := {|
    job_name := name;
    job_qasm_compiled := qasm_compiled;
    job_coupling_map := coupling_map;
    job_basis_gates := basis_gates;
    job_compiled_circuit :=
      if is_local then Some (simulator_backend qasm_compiled basis_gates) else None;
    job_shots := shots;
    job_max_credits := max_credits;
    job_seed :=
      if is_local then
        match seed with
        | Some s => Some s
        | None => Some (random_random (draws st))
        end
      else None
  |} in
  let st' := if is_local then set_draws (S (draws st)) st else st in
  set_to_execute (queue_append device j (to_execute st')) st'.

Fixpoint compile_loop (names : list string) (device : string)
    (shots max_credits : Z) (basis_gates : option string)
    (coupling_map : option coupling) (seed : option Seed) (st : state)
    : reply * state :=
  match names with
  | [] => (Msg "COMPLETED" "all done", st)
  | name :: rest =>
      match circuits st !! name with
      | None => (Msg "Error" (name +:+ " not in QuantumProgram"), st)
      | Some e =>
          compile_loop rest device shots max_credits basis_gates coupling_map seed
            (compile_one name (circuit e) device shots max_credits basis_gates
               coupling_map seed st)
      end
  end.

Definition compile (names : list string) (device : string)
    (shots max_credits : Z) (basis_gates : option string)
    (coupling_map : option coupling) (seed : option Seed) (st : state)
    : reply * state :=
  match names with
  | [] => (Msg "Error" "No circuits", st)
  | _ => compile_loop names device shots max_credits basis_gates coupling_map seed st
  end.

(** *** Job poller *)

(** The remote service: [run_job] answers with an error ([inl]) or a job id
    ([inr]); [get_job] answers with the job's payload, a dict that has a
    ["status"] and may have the list ["qasms"], whose entries have a
    ["result"] and a ["status"]. Both calls may change the state of the
    service. *)
Variable api_run_job :
  Api -> list string -> string -> Z -> Z -> (string + string) * Api.
Variable api_get_job : Api -> string -> job_payload * Api.

Definition get_job (jobid : string) (st : state) : job_payload * state :=
  let '(job, a) := api_get_job (api st) jobid in (job, set_api a st).

(** [time.sleep(wait)]: a negative length is refused with [ValueError]. *)
Definition sleep (wait : Z) (st : state) : outcome unit * state :=
  if wait <? 0 then (Raise ValueError, st)
  else (Return tt, set_slept (slept st ++ [wait]) st).

Definition is_error_status (s : string) : bool :=
  (String.eqb s "ERROR_CREATING_JOB" || String.eqb s "ERROR_RUNNING_JOB")%bool.

(** The [while] loop of [wait_for_job]; [fuel] bounds the number of
    iterations, [None] means the bound was reached. The loop returns or
    is left by the exception of [sleep]. *)
Fixpoint wait_loop (fuel : nat) (jobid : string) (wait timeout timer : Z)
    (job : job_payload) (st : state) : option (outcome reply * state) :=
  if String.eqb (jp_status job) "RUNNING" then
    if timer =? timeout then Some (Return (Msg "Error" "Time Out"), st)
    else
      match fuel with
      | O => None
      | S fuel' =>
          match sleep wait st with
          | (Raise e, st1) => Some (Raise e, st1)
          | (Return _, st1) =>
              let timer' := timer + wait in
              let '(job', st2) := get_job jobid st1 in
              if is_error_status (jp_status job')
              then Some (Return (Msg "Error" (jp_status job')), st2)
              else wait_loop fuel' jobid wait timeout timer' job' st2
          end
      end
  else Some (Return (RawJob job), st).

Definition wait_for_job (fuel : nat) (jobid : string) (wait timeout : Z)
    (st : state) : option (outcome reply * state) :=
  let '(job, st1) := get_job jobid st in
  wait_loop fuel jobid wait timeout 0 job st1.

(** *** Local execution engines *)

(** The dicts [{"compiled_circuit": ..., "shots": ...}] handed to the
    engines, and what [QasmSimulator(...).run()] returns. *)
Record sim_job := { sj_compiled_circuit : option SimCirc; sj_shots : Z }.
Record sim_output := { so_result : value; so_number_of_cbits : Z }.

(** [simulators.QasmSimulator(circuit, seed).run()] and
    [simulators.UnitarySimulator(circuit).run()["result"]]; they may raise. *)
Variable QasmSimulator_run : option SimCirc -> Seed -> outcome sim_output.
Variable UnitarySimulator_run : option SimCirc -> outcome value.

Definition fail_result : one_result := {| r_result := VNone; r_status := "FAIL" |}.
Definition set_result (v : value) (r : one_result) : one_result :=
  {| r_result := v; r_status := r_status r |}.
Definition set_status (s : string) (r : one_result) : one_result :=
  {| r_result := r_result r; r_status := s |}.

(** [bin(b['result']['data']['classical_state'])[2:].zfill(b['number_of_cbits'])] *)
Definition classical_bits (b : sim_output) : outcome string :=
  data <- subscript (so_result b) "data" ;;
  cs <- subscript data "classical_state" ;;
  match cs with
  | VInt n => Return (zfill (drop_chars 2 (bin n)) (so_number_of_cbits b))
  | _ => Raise TypeError
  end.

(** The loop [for i in range(shots)]; [n] counts the random draws made. *)
Fixpoint run_shots (shots : nat) (cc : option SimCirc) (n : nat)
    (result : list string) : outcome (list string) * nat :=
  match shots with
  | O => (Return result, n)
  | S shots' =>
      match QasmSimulator_run cc (random_random n) with
      | Raise e => (Raise e, S n)
      | Return b =>
          match classical_bits b with
          | Raise e => (Raise e, S n)
          | Return bits => run_shots shots' cc (S n) (result ++ [bits])
          end
      end
  end.

(** [{"data": {"counts": dict(Counter(result))}}] *)
Definition counts_value (c : list (string * Z)) : value :=
  VDict [("data", VDict [("counts", VDict (map (fun kv => (fst kv, VInt (snd kv))) c))])].

(** Body of the loop of [run_local_qasm_simulator] for one job. *)
Definition qasm_job (j : sim_job) (n : nat) : outcome one_result * nat :=
  let one_result := fail_result in
  if sj_shots j =? 1 then
    match QasmSimulator_run (sj_compiled_circuit j) (random_random n) with
    | Raise e => (Raise e, S n)
    | Return qasm_circuit =>
        (Return (set_status "COMPLETED" (set_result (so_result qasm_circuit) one_result)),
         S n)
    end
  else
    match run_shots (Z.to_nat (sj_shots j)) (sj_compiled_circuit j) n [] with
    | (Raise e, n') => (Raise e, n')
    | (Return result, n') =>
        (Return (set_status "COMPLETED"
                   (set_result (counts_value (Counter result)) one_result)), n')
    end.

Fixpoint qasm_jobs (jobs : list sim_job) (n : nat) (qasms : list one_result)
    : outcome (list one_result) * nat :=
  match jobs with
  | [] => (Return qasms, n)
  | j :: jobs' =>
      match qasm_job j n with
      | (Raise e, n') => (Raise e, n')
      | (Return r, n') => qasm_jobs jobs' n' (qasms ++ [r])
      end
  end.

(** Returns the list under the key ["qasms"]. *)
Definition run_local_qasm_simulator (jobs : list sim_job) (n : nat)
    : outcome (list one_result) * nat :=
  qasm_jobs jobs n [].

Definition unitary_job (j : sim_job) : outcome one_result :=
  let one_result := fail_result in
  match UnitarySimulator_run (sj_compiled_circuit j) with
  | Raise e => Raise e
  | Return unitary => Return (set_status "COMPLETED" (set_result unitary one_result))
  end.

Fixpoint unitary_jobs (jobs : list sim_job) (qasms : list one_result)
    : outcome (list one_result) :=
  match jobs with
  | [] => Return qasms
  | j :: jobs' =>
      match unitary_job j with
      | Raise e => Raise e
      | Return r => unitary_jobs jobs' (qasms ++ [r])
      end
  end.

Definition run_local_unitary_simulator (jobs : list sim_job)
    : outcome (list one_result) :=
  unitary_jobs jobs [].

(** *** Dispatcher *)

(** How a piece of [run] ends: it falls through with a value, it returns
    from [run], it raises, or the poller did not finish within the fuel. *)
Inductive flow (A : Type) :=
| Continue (a : A) (st : state)
| Returned (r : reply) (st : state)
| Raised (e : exn) (st : state)
| Diverged.
Arguments Continue {A} a st.
Arguments Returned {A} r st.
Arguments Raised {A} e st.
Arguments Diverged {A}.

Definition and_then {A B} (f : flow A) (k : A -> state -> flow B) : flow B :=
  match f with
  | Continue a st => k a st
  | Returned r st => Returned r st
  | Raised e st => Raised e st
  | Diverged => Diverged
  end.

(** [self.__to_execute = {}] *)
Definition clear_queue (st : state) : state := set_to_execute [] st.

Definition shots_error : string :=
  "Online devices only support job batches with equal numbers of shots".
Definition credits_error : string :=
  "Online devices only support job batches with equal max credits".

(** The inner loop of the remote path: collects the compiled sources and
    compares every job's shots and credits with the last ones seen, [-1]
    standing for none seen yet. [inl] is the message of the early return. *)
Fixpoint batch_check (js : list job) (last_shots last_max_credits : Z)
    (jobs : list string) : string + (list string * Z * Z) :=
  match js with
  | [] => inr (jobs, last_shots, last_max_credits)
  | j :: js' =>
      let jobs' := jobs ++ [job_qasm_compiled j] in
      let shots := job_shots j in
      let max_credits := job_max_credits j in
      if (negb (last_shots =? -1) && negb (last_shots =? shots))%bool
      then inl shots_error
      else
        let last_shots' := if last_shots =? -1 then shots else last_shots in
        if (negb (last_max_credits =? -1) && negb (last_max_credits =? max_credits))%bool
        then inl credits_error
        else
          let last_max_credits' :=
            if last_max_credits =? -1 then max_credits else last_max_credits in
          batch_check js' last_shots' last_max_credits' jobs'
  end.

(** The remote path for one device; falls through with [job_result]. *)
Definition run_online (fuel : nat) (wait timeout : Z) (backend : string)
    (js : list job) (st : state) : flow reply :=
  match batch_check js (-1) (-1) [] with
  | inl msg => Returned (Msg "Error" msg) (clear_queue st)
  | inr (jobs, last_shots, last_max_credits) =>
      let '(output, a) := api_run_job (api st) jobs backend last_shots last_max_credits in
      let st1 := set_api a st in
      match output with
      | inl err => Returned (Msg "Error" err) (clear_queue st1)
      | inr id =>
          match wait_for_job fuel id wait timeout st1 with
          | None => Diverged
          | Some (Raise e, st2) => Raised e st2
          | Some (Return job_result, st2) =>
              if String.eqb (reply_status job_result) "Error"
              then Returned job_result (clear_queue st2)
              else Continue job_result st2
          end
      end
  end.

(** [job_result["qasms"]] for what the poller returned. *)
Definition reply_qasms (r : reply) : option (list one_result) :=
  match r with
  | RawJob j => jp_qasms j
  | Msg _ _ => None
  end.

(** The local path for one device; falls through with
    [job_result["qasms"]]. *)
Definition run_local (backend : string) (js : list job) (st : state)
    : flow (list one_result) :=
  let jobs :=
    map (fun j => {| sj_compiled_circuit := job_compiled_circuit j;
                     sj_shots := job_shots j |}) js in
  if String.eqb backend "local_qasm_simulator" then
    match run_local_qasm_simulator jobs (draws st) with
    | (Return qasms, n) => Continue qasms (set_draws n st)
    | (Raise e, n) => Raised e (set_draws n st)
    end
  else if String.eqb backend "local_unitary_simulator" then
    match run_local_unitary_simulator jobs with
    | Return qasms => Continue qasms st
    | Raise e => Raised e st
    end
  else Returned (Msg "Error" "Not a local simulator") (clear_queue st).

(** Both paths, up to the assertion on the number of results; falls through
    with [job_result["qasms"]]. *)
Definition dispatch (fuel : nat) (wait timeout : Z) (backend : string)
    (js : list job) (st : state) : flow (list one_result) :=
  and_then
    (if str_in backend online_devices then
       and_then (run_online fuel wait timeout backend js st)
         (fun job_result st1 =>
            match reply_qasms job_result with
            | Some qasms => Continue qasms st1
            | None => Raised (KeyError "qasms") st1
            end)
     else run_local backend js st)
    (fun qasms st1 =>
       if Nat.eqb (length js) (length qasms) then Continue qasms st1
       else Raised AssertionError st1).

(** The record written for a job and its result. *)
Definition record_of (j : job) (q : one_result) : execution_record :=
  {| ex_qasm_compiled := job_qasm_compiled j;
     ex_coupling_map := job_coupling_map j;
     ex_basis_gates := job_basis_gates j;
     ex_compiled_circuit := job_compiled_circuit j;
     ex_shots := job_shots j;
     ex_max_credits := job_max_credits j;
     ex_result := r_result q;
     ex_status := r_status q |}.

(** The loop that fills the results of one device into the catalog. The
    lookup of ["execution"] raises [KeyError] when the entry has no such
    key. *)
Fixpoint store_results (backend : string) (js : list job)
    (qasms : list one_result) (index : nat) (st : state) : flow unit :=
  match js with
  | [] => Continue tt st
  | j :: js' =>
      let name := job_name j in
      match circuits st !! name with
      | None =>
          Returned (Msg "Error" "Internal error, circuit not found") (clear_queue st)
      | Some e =>
          match execution e with
          | None => Raised (KeyError "execution") st
          | Some ex =>
              match qasms !! index with
              | None => Raised IndexError st
              | Some q =>
                  let e' := {| circuit := circuit e;
                               execution := Some (<[backend := record_of j q]> ex) |} in
                  store_results backend js' qasms (S index)
                    (set_circuits (<[name := e']> (circuits st)) st)
              end
          end
      end
  end.

(** The loop [for backend in self.__to_execute] over the items of the
    queue. *)
Fixpoint run_backends (fuel : nat) (wait timeout : Z)
    (q : list (string * list job)) (st : state) : flow unit :=
  match q with
  | [] => Continue tt st
  | (backend, js) :: q' =>
      and_then (dispatch fuel wait timeout backend js (set_last_device_backend backend st))
        (fun qasms st1 =>
           and_then (store_results backend js qasms 0 st1)
             (fun _ st2 => run_backends fuel wait timeout q' st2))
  end.

Definition run (fuel : nat) (wait timeout : Z) (st : state) : flow unit :=
  and_then (run_backends fuel wait timeout (to_execute st) st)
    (fun _ st' => Returned (Msg "COMPLETED" "all done") (clear_queue st')).

(** *** Result accessors *)

(** [if not device: device = self.__last_device_backend] *)
Definition device_or_last (device : option string) (st : state) : string :=
  match device with
  | Some (String c s) => String c s
  | _ => last_device_backend st
  end.

(** [self.__quantum_program["circuits"][name]["execution"][device]] *)
Definition execution_of (name device : string) (st : state)
    : outcome execution_record :=
  match circuits st !! name with
  | None => Raise (KeyError name)
  | Some e =>
      match execution e with
      | None => Raise (KeyError "execution")
      | Some ex =>
          match ex !! device with
          | None => Raise (KeyError device)
          | Some r => Return r
          end
      end
  end.

Definition get_result (name : string) (device : option string) (st : state)
    : outcome value :=
  let device := device_or_last device st in
  match circuits st !! name with
  | Some _ => r <- execution_of name device st ;; Return (ex_result r)
  | None => Return (error_dict "Circuit not found")
  end.

Definition get_data (name : string) (device : option string) (st : state)
    : outcome value :=
  let device := device_or_last device st in
  r <- execution_of name device st ;;
  subscript (ex_result r) "data".

Definition get_counts (name : string) (device : option string) (st : state)
    : outcome value :=
  let device := device_or_last device st in
  match (r <- execution_of name device st ;;
         data <- subscript (ex_result r) "data" ;;
         subscript data "counts") with
  | Raise (KeyError _) => Return (error_dict "Error in circuit name")
  | o => o
  end.

Definition get_compiled_qasm (name : string) (device : option string) (st : state)
    : outcome string :=
  let device := device_or_last device st in
  match (r <- execution_of name device st ;; Return (ex_qasm_compiled r)) with
  | Raise (KeyError _) => Return "No compiled qasm for this circuit"
  | o => o
  end.

(** *** Observable averaging *)

(** The loop of [average_data] over the items of the counts table. *)
Fixpoint average_loop (counts : list (string * value))
    (observable : list (string * float)) (tot temp : num) : outcome num :=
  match counts with
  | [] => Return temp
  | (key, c) :: counts' =>
      match dict_get key observable with
      | Some o =>
          n <- as_num c ;;
          p <- mul_float n o ;;
          t <- float_div p tot ;;
          temp' <- add temp (NFloat t) ;;
          average_loop counts' observable tot temp'
      | None => average_loop counts' observable tot temp
      end
  end.

Definition average_data (name : string) (observable : list (string * float))
    (st : state) : outcome num :=
  counts <- get_counts name None st ;;
  match counts with
  | VDict d =>
      tot <- sum (map snd d) ;;
      average_loop d observable tot (NInt 0)
  | _ => Raise AttributeError
  end.

(** *** Notions used to state the properties *)

(** The names up to the first one that is not in the catalog. *)
Fixpoint known_prefix (c : gmap string circuit_entry) (names : list string)
    : list string :=
  match names with
  | [] => []
  | name :: rest =>
      match c !! name with
      | Some _ => name :: known_prefix c rest
      | None => []
      end
  end.

(** Appending several jobs for one device, in order. *)
Definition enqueue (device : string) (new : list job)
    (q : list (string * list job)) : list (string * list job) :=
  fold_left (fun q j => queue_append device j q) new q.

(** The jobs queued for a device, none when the device has no entry. *)
Definition queued (device : string) (q : list (string * list job)) : list job :=
  default [] (dict_get device q).

(** A batch whose jobs all share their shots and their credits. *)
Definition homogeneous (js : list job) : Prop :=
  forall j1 j2, In j1 js -> In j2 js ->
    job_shots j1 = job_shots j2 /\ job_max_credits j1 = job_max_credits j2.

(** Neither the shots nor the credits are [-1], the value that the check
    of the remote path reads as "none seen yet". *)
Definition no_sentinel (j : job) : Prop :=
  job_shots j <> -1 /\ job_max_credits j <> -1.

(** The state of the remote service after [k] status queries for a job,
    and a job whose status is [RUNNING] at every query. *)
Definition polled (jobid : string) (k : nat) (a : Api) : Api :=
  Nat.iter k (fun a' : Api => snd (api_get_job a' jobid)) a.

Definition stays_running (jobid : string) (a : Api) : Prop :=
  forall k, jp_status (fst (api_get_job (polled jobid k a) jobid)) = "RUNNING".

(** The outcome [b['result']['data']['classical_state']] of a trial, when
    it is there and an int. *)
Definition classical_state (b : sim_output) : option Z :=
  match so_result b with
  | VDict d =>
      match dict_get "data" d with
      | Some (VDict d') =>
          match dict_get "classical_state" d' with
          | Some (VInt x) => Some x
          | _ => None
          end
      | _ => None
      end
  | _ => None
  end.

(** The value of a string of binary digits, most significant digit first;
    [None] when a character is not a binary digit. *)
Fixpoint bits_value_from (acc : Z) (s : string) : option Z :=
  match s with
  | EmptyString => Some acc
  | String c s' =>
      if Ascii.eqb c "0" then bits_value_from (2 * acc) s'
      else if Ascii.eqb c "1" then bits_value_from (2 * acc + 1) s'
      else None
  end.

Definition bits_value (s : string) : option Z := bits_value_from 0 s.

(** Sum of the values of a counts table. *)
Definition total (table : list (string * Z)) : Z :=
  fold_right Z.add 0 (map snd table).

(** The average as the claim words it: the terms
    [counts[key] * observable[key] / total] of the keys that are in both
    mappings, in the order of the counts table, added up from the int [0]
    in floating point. *)
Definition common_terms (counts : list (string * Z))
    (observable : list (string * float)) : list (Z * float) :=
  flat_map (fun kc =>
              match dict_get (fst kc) observable with
              | Some o => [(snd kc, o)]
              | None => []
              end) counts.

Definition weighted_term (tot : Z) (co : Z * float) : outcome float :=
  p <- mul_float (NInt (fst co)) (snd co) ;;
  float_div p (NInt tot).

Definition weighted_average (counts : list (string * Z))
    (observable : list (string * float)) : outcome num :=
  fold_left (fun acc co =>
               temp <- acc ;;
               t <- weighted_term (total counts) co ;;
               add temp (NFloat t))
    (common_terms counts observable) (Return (NInt 0)).

(** A counts table of ints as a value. *)
Definition counts_dict (counts : list (string * Z)) : value :=
  VDict (map (fun kv => (fst kv, VInt (snd kv))) counts).

(** ** Properties of the compiler *)

Lemma str_eqb_refl (a : string) : String.eqb a a = true.
Proof. apply String.eqb_refl. Qed.

Lemma dict_get_queue_append_ne d device j q :
  d <> device -> dict_get d (queue_append device j q) = dict_get d q.
Proof.
  intros Hne. induction q as [|[d' js] q IH]; simpl.
  - destruct (String.eqb_spec device d); congruence.
  - destruct (String.eqb_spec d' device) as [->|Hd]; simpl.
    + destruct (String.eqb_spec device d); congruence.
    + destruct (String.eqb_spec d' d); auto.
Qed.

Lemma queued_queue_append_eq device j q :
  queued device (queue_append device j q) = queued device q ++ [j].
Proof.
  unfold queued. induction q as [|[d' js] q IH]; simpl.
  - now rewrite str_eqb_refl.
  - destruct (String.eqb_spec d' device) as [->|Hd]; simpl.
    + now rewrite str_eqb_refl.
    + destruct (String.eqb_spec d' device); [congruence | exact IH].
Qed.

Lemma dict_get_enqueue_ne d device new q :
  d <> device -> dict_get d (enqueue device new q) = dict_get d q.
Proof.
  intros Hne. revert q. induction new as [|j new IH]; intros q; simpl; auto.
  unfold enqueue in *. simpl. rewrite IH. now apply dict_get_queue_append_ne.
Qed.

Lemma queued_enqueue_eq device new q :
  queued device (enqueue device new q) = queued device q ++ new.
Proof.
  revert q. induction new as [|j new IH]; intros q; simpl.
  - now rewrite app_nil_r.
  - unfold enqueue in *. simpl. rewrite IH, queued_queue_append_eq.
    now rewrite <- app_assoc.
Qed.

(** What a pass of the loop leaves alone. *)
Lemma compile_one_frame name c device shots max_credits basis_gates coupling_map seed st :
  let st' := compile_one name c device shots max_credits basis_gates coupling_map seed st in
  circuits st' = circuits st /\
  last_device_backend st' = last_device_backend st /\
  api st' = api st /\ slept st' = slept st /\
  exists j, job_name j = name /\ job_shots j = shots /\
            job_max_credits j = max_credits /\
            to_execute st' = queue_append device j (to_execute st).
Proof.
  unfold compile_one. cbv zeta.
  match goal with |- context [str_in ?a ?b] => destruct (str_in a b) end;
    simpl; (repeat split; try reflexivity); eexists; repeat split; reflexivity.
Qed.

(** The loop, run on a list with a name that is not in the catalog, stops
    at the first such name; the jobs of the names before it are queued. *)
Lemma compile_loop_missing device shots max_credits basis_gates coupling_map seed :
  forall names st,
    (exists name, In name names /\ circuits st !! name = None) ->
    exists msg new st',
      compile_loop names device shots max_credits basis_gates coupling_map seed st
        = (Msg "Error" msg, st') /\
      map job_name new = known_prefix (circuits st) names /\
      to_execute st' = enqueue device new (to_execute st) /\
      circuits st' = circuits st /\
      last_device_backend st' = last_device_backend st /\
      (known_prefix (circuits st) names = [] -> st' = st).
Proof.
  induction names as [|name rest IH]; intros st [missing [Hin Hmiss]].
  - destruct Hin.
  - simpl. destruct (circuits st !! name) as [e|] eqn:He.
    + assert (Hin' : In missing rest).
      { destruct Hin as [->|]; [congruence | assumption]. }
      pose proof (compile_one_frame name (circuit e) device shots max_credits
                    basis_gates coupling_map seed st) as Hf.
      cbv zeta in Hf. destruct Hf as (Hc & Hl & _ & _ & j & Hn & _ & _ & Hq).
      destruct (IH (compile_one name (circuit e) device shots max_credits
                      basis_gates coupling_map seed st)) as (msg & new & st' & Hrun & Hnames & Hqueue & Hc' & Hl' & _).
      { exists missing. split; [assumption | now rewrite Hc]. }
      exists msg, (j :: new), st'. repeat split.
      * exact Hrun.
      * simpl. rewrite Hn, Hnames, Hc. reflexivity.
      * rewrite Hqueue, Hq. reflexivity.
      * congruence.
      * congruence.
      * discriminate.
    + exists (name +:+ " not in QuantumProgram"), [], st. repeat split.
  Qed.

(** C1 (amended). When the list of names is empty or holds a name that is
    not in the catalog, [compile] returns an error dict. It stops at the
    first missing name: one job for every name before it has been appended
    to the device's list, in order; nothing is appended for the missing
    name or for a name after it. The lists of the other devices and the
    jobs queued before the call are untouched, the catalog is unchanged,
    and when the list is empty or its first name is missing the whole
    state is left as it was. *)
Theorem compile_not_found names device shots max_credits basis_gates coupling_map seed st :
  names = [] \/ (exists name, In name names /\ circuits st !! name = None) ->
  exists msg new st',
    compile names device shots max_credits basis_gates coupling_map seed st
      = (Msg "Error" msg, st') /\
    map job_name new = known_prefix (circuits st) names /\
    to_execute st' = enqueue device new (to_execute st) /\
    queued device (to_execute st') = queued device (to_execute st) ++ new /\
    (forall d, d <> device ->
       dict_get d (to_execute st') = dict_get d (to_execute st)) /\
    circuits st' = circuits st /\
    (known_prefix (circuits st) names = [] -> st' = st).
Proof.
  intros [->|Hmiss].
  - exists "No circuits", [], st. simpl. unfold queued.
    rewrite app_nil_r. repeat split.
  - destruct (compile_loop_missing device shots max_credits basis_gates
                coupling_map seed names st Hmiss)
      as (msg & new & st' & Hrun & Hnames & Hqueue & Hc & _ & Hsame).
    exists msg, new, st'. repeat split; try assumption.
    + destruct names; [|exact Hrun].
      destruct Hmiss as (? & [] & _).
    + rewrite Hqueue. apply queued_enqueue_eq.
    + intros d Hd. rewrite Hqueue. now apply dict_get_enqueue_ne.
Qed.

(** ** Properties of the dispatcher *)

Lemma and_then_returned {A B} (f : flow A) (k : A -> state -> flow B) r s :
  and_then f k = Returned r s ->
  f = Returned r s \/ exists a s1, f = Continue a s1 /\ k a s1 = Returned r s.
Proof.
  destruct f; simpl; intros H; try discriminate.
  - right. eauto.
  - left. injection H as -> ->. reflexivity.
Qed.

Lemma and_then_continue {A B} (f : flow A) (k : A -> state -> flow B) b s :
  and_then f k = Continue b s ->
  exists a s1, f = Continue a s1 /\ k a s1 = Continue b s.
Proof.
  destruct f; simpl; intros H; try discriminate. eauto.
Qed.

(** Closes a goal about a [return] that was just preceded by
    [self.__to_execute = {}]. *)
Ltac cleared := intros [= <- <-]; reflexivity.

(** Every [return] of the remote path clears the queue. *)
Lemma run_online_returned fuel wait timeout backend js st r s :
  run_online fuel wait timeout backend js st = Returned r s -> to_execute s = [].
Proof.
  unfold run_online.
  destruct (batch_check js (-1) (-1) []) as [msg|[[jobs ls] lc]].
  - cleared.
  - destruct (api_run_job (api st) jobs backend ls lc) as [[err|id] a].
    + cleared.
    + destruct (wait_for_job fuel id wait timeout (set_api a st)) as [[[jr|e] st2]|];
        [|discriminate|discriminate].
      destruct (String.eqb (reply_status jr) "Error"); [|discriminate].
      cleared.
Qed.

Lemma run_local_returned backend js st r s :
  run_local backend js st = Returned r s -> to_execute s = [].
Proof.
  unfold run_local.
  destruct (String.eqb backend "local_qasm_simulator").
  - destruct (run_local_qasm_simulator _ _) as [[?|?] ?]; discriminate.
  - destruct (String.eqb backend "local_unitary_simulator").
    + destruct (run_local_unitary_simulator _); discriminate.
    + cleared.
Qed.

Lemma dispatch_returned fuel wait timeout backend js st r s :
  dispatch fuel wait timeout backend js st = Returned r s -> to_execute s = [].
Proof.
  unfold dispatch. intros H.
  apply and_then_returned in H as [H|(qasms & s1 & _ & H)].
  - destruct (str_in backend online_devices).
    + apply and_then_returned in H as [H|(jr & s1 & _ & H)].
      * eapply run_online_returned; eassumption.
      * destruct (reply_qasms jr); discriminate.
    + eapply run_local_returned; eassumption.
  - destruct (Nat.eqb _ _); discriminate.
Qed.

Lemma store_results_returned backend js qasms :
  forall index st r s,
    store_results backend js qasms index st = Returned r s -> to_execute s = [].
Proof.
  induction js as [|j js IH]; intros index st r s; simpl.
  - discriminate.
  - destruct (circuits st !! job_name j) as [e|].
    + destruct (execution e) as [ex|]; [|discriminate].
      destruct (qasms !! index) as [q|]; [|discriminate].
      apply IH.
    + cleared.
Qed.

Lemma run_backends_returned fuel wait timeout q :
  forall st r s,
    run_backends fuel wait timeout q st = Returned r s -> to_execute s = [].
Proof.
  induction q as [|[backend js] q IH]; intros st r s; simpl.
  - discriminate.
  - intros H. apply and_then_returned in H as [H|(qasms & s1 & _ & H)].
    + eapply dispatch_returned; eassumption.
    + apply and_then_returned in H as [H|([] & s2 & _ & H)].
      * eapply store_results_returned; eassumption.
      * eapply IH; eassumption.
Qed.

(** C2. Whatever [run] returns, the success dict or any error value, the
    execution queue is empty afterwards. *)
Theorem run_returns_with_empty_queue fuel wait timeout st r st' :
  run fuel wait timeout st = Returned r st' -> to_execute st' = [].
Proof.
  unfold run. intros H.
  apply and_then_returned in H as [H|([] & s1 & _ & H)].
  - eapply run_backends_returned; eassumption.
  - injection H as <- <-. reflexivity.
Qed.

(** [run] never falls off its end without a [return]. *)
Lemma run_never_continues fuel wait timeout st a st' :
  run fuel wait timeout st <> Continue a st'.
Proof.
  unfold run. destruct (run_backends fuel wait timeout (to_execute st) st);
    simpl; discriminate.
Qed.

(** On an empty queue [run] succeeds at once. *)
Lemma run_empty_queue fuel wait timeout st :
  to_execute st = [] ->
  run fuel wait timeout st = Returned (Msg "COMPLETED" "all done") (clear_queue st).
Proof. intros H. unfold run. now rewrite H. Qed.

(** *** The homogeneity check of the remote path *)

Lemma batch_check_same js :
  forall s c ls lc jobs,
    Forall (fun j => job_shots j = s /\ job_max_credits j = c) js ->
    ls = -1 \/ ls = s -> lc = -1 \/ lc = c ->
    exists ls' lc',
      batch_check js ls lc jobs = inr (jobs ++ map job_qasm_compiled js, ls', lc').
Proof.
  induction js as [|j js IH]; intros s c ls lc jobs Hall Hls Hlc; simpl.
  - rewrite app_nil_r. eauto.
  - inversion Hall as [|? ? [Hs Hc] Hall']; subst.
    assert (Hsh : (negb (ls =? -1) && negb (ls =? job_shots j))%bool = false).
    { destruct Hls as [->| ->]; [reflexivity|].
      rewrite Z.eqb_refl. apply andb_false_r. }
    assert (Hcr : (negb (lc =? -1) && negb (lc =? job_max_credits j))%bool = false).
    { destruct Hlc as [->| ->]; [reflexivity|].
      rewrite Z.eqb_refl. apply andb_false_r. }
    rewrite Hsh, Hcr.
    destruct (IH (job_shots j) (job_max_credits j)
                (if ls =? -1 then job_shots j else ls)
                (if lc =? -1 then job_max_credits j else lc)
                (jobs ++ [job_qasm_compiled j]) Hall') as (ls' & lc' & ->).
    + destruct (ls =? -1); [now right|]. destruct Hls; [now left | now right].
    + destruct (lc =? -1); [now right|]. destruct Hlc; [now left | now right].
    + rewrite <- app_assoc. simpl. eauto.
Qed.

Lemma batch_check_differs js :
  forall s c jobs,
    s <> -1 -> c <> -1 ->
    ~ Forall (fun j => job_shots j = s /\ job_max_credits j = c) js ->
    exists msg,
      batch_check js s c jobs = inl msg /\
      (msg = shots_error \/ msg = credits_error).
Proof.
  induction js as [|j js IH]; intros s c jobs Hs Hc Hnot; simpl.
  - destruct Hnot. constructor.
  - destruct (Z.eqb_spec s (-1)) as [|_]; [contradiction|].
    destruct (Z.eqb_spec c (-1)) as [|_]; [contradiction|].
    destruct (Z.eqb_spec s (job_shots j)) as [Hes|Hes]; simpl.
    + destruct (Z.eqb_spec c (job_max_credits j)) as [Hec|Hec]; simpl.
      * apply IH; try assumption.
        intros Hall. apply Hnot. constructor; [split; congruence | assumption].
      * exists credits_error. split; [reflexivity | now right].
    + exists shots_error. split; [reflexivity | now left].
Qed.

Lemma homogeneous_cons j js :
  Forall (fun j' => job_shots j' = job_shots j /\
                    job_max_credits j' = job_max_credits j) js ->
  homogeneous (j :: js).
Proof.
  intros Hall j1 j2 H1 H2.
  assert (Hj : forall x, In x (j :: js) ->
             job_shots x = job_shots j /\ job_max_credits x = job_max_credits j).
  { intros x [<-|Hx]; [split; reflexivity|].
    rewrite Forall_forall in Hall. apply Hall. now apply list_elem_of_In. }
  destruct (Hj j1 H1) as [-> ->]. destruct (Hj j2 H2) as [-> ->].
  split; reflexivity.
Qed.

Lemma homogeneous_head j js :
  homogeneous (j :: js) ->
  Forall (fun j' => job_shots j' = job_shots j /\
                    job_max_credits j' = job_max_credits j) (j :: js).
Proof.
  intros Hh. apply Forall_forall. intros x Hx.
  apply list_elem_of_In in Hx. apply Hh; [assumption | now left].
Qed.

(** The check passes on a homogeneous batch, with every compiled source
    collected in order. *)
Lemma batch_check_homogeneous js :
  homogeneous js ->
  exists ls lc, batch_check js (-1) (-1) [] = inr (map job_qasm_compiled js, ls, lc).
Proof.
  intros Hh. destruct js as [|j js].
  - simpl. eauto.
  - apply homogeneous_head in Hh.
    destruct (batch_check_same (j :: js) (job_shots j) (job_max_credits j)
                (-1) (-1) [] Hh) as (ls & lc & H); auto.
    eauto.
Qed.

(** The check fails on a batch that is not homogeneous, when no job carries
    the value [-1]. *)
Lemma batch_check_heterogeneous js :
  Forall no_sentinel js -> ~ homogeneous js ->
  exists msg,
    batch_check js (-1) (-1) [] = inl msg /\
    (msg = shots_error \/ msg = credits_error).
Proof.
  intros Hns Hnot. destruct js as [|j js].
  - destruct Hnot. intros ? ? [].
  - inversion Hns as [|? ? [Hs Hc] _]; subst. simpl.
    apply batch_check_differs; try assumption.
    intros Hall. apply Hnot. now apply homogeneous_cons.
Qed.

Lemma run_backends_app fuel wait timeout pre :
  forall q st,
    run_backends fuel wait timeout (pre ++ q) st =
    and_then (run_backends fuel wait timeout pre st)
      (fun _ st1 => run_backends fuel wait timeout q st1).
Proof.
  induction pre as [|[backend js] pre IH]; intros q st; simpl.
  - reflexivity.
  - destruct (dispatch fuel wait timeout backend js _) as [qasms s1| | |];
      simpl; try reflexivity.
    destruct (store_results backend js qasms 0 s1) as [[] s2| | |];
      simpl; try reflexivity.
    apply IH.
Qed.

(** C4 (amended). When the loop of [run] reaches a remote device, every
    device before it in the queue having been dispatched and recorded,
    whose jobs carry no [-1] and do not all share their shots and their
    credits, [run] returns an error dict with one of the two batch messages
    and the whole queue is empty afterwards. A homogeneous batch passes the
    check of the remote path. *)
Theorem remote_batch_homogeneity fuel wait timeout pre backend js post st st1 :
  str_in backend online_devices = true ->
  (Forall no_sentinel js -> ~ homogeneous js ->
   to_execute st = pre ++ (backend, js) :: post ->
   run_backends fuel wait timeout pre st = Continue tt st1 ->
   exists msg st',
     run fuel wait timeout st = Returned (Msg "Error" msg) st' /\
     (msg = shots_error \/ msg = credits_error) /\
     to_execute st' = []) /\
  (homogeneous js ->
   exists ls lc,
     batch_check js (-1) (-1) [] = inr (map job_qasm_compiled js, ls, lc)).
Proof.
  intros Honline. split; [|apply batch_check_homogeneous].
  intros Hns Hnot Hq Hpre.
  destruct (batch_check_heterogeneous js Hns Hnot) as (msg & Hcheck & Hmsg).
  exists msg, (clear_queue (set_last_device_backend backend st1)).
  repeat split; [|assumption].
  unfold run. rewrite Hq, run_backends_app, Hpre. simpl.
  unfold dispatch. rewrite Honline. unfold run_online. rewrite Hcheck.
  reflexivity.
Qed.

(** ** Properties of the job poller *)

Lemma state_eta (st : state) :
  set_api (api st) (set_slept (slept st ++ []) st) = st.
Proof. destruct st. unfold set_api, set_slept. simpl. now rewrite app_nil_r. Qed.

Lemma polled_shift jobid k a :
  polled jobid k (snd (api_get_job a jobid)) = polled jobid (S k) a.
Proof. unfold polled. now rewrite Nat.iter_succ_r. Qed.

Lemma stays_running_next jobid a :
  stays_running jobid a -> stays_running jobid (snd (api_get_job a jobid)).
Proof. intros H k. rewrite polled_shift. apply H. Qed.

(** A payload that is not [RUNNING] ends the loop at once: the payload
    itself is returned, whatever its status. *)
Lemma wait_loop_not_running fuel jobid wait timeout timer job st :
  jp_status job <> "RUNNING" ->
  wait_loop fuel jobid wait timeout timer job st = Some (Return (RawJob job), st).
Proof.
  intros H. destruct fuel; simpl;
    destruct (String.eqb_spec (jp_status job) "RUNNING"); congruence.
Qed.

(** An error status seen by a query made inside the loop becomes an error
    dict that carries the status. *)
Lemma wait_loop_error fuel jobid wait timeout timer job st :
  0 <= wait ->
  jp_status job = "RUNNING" -> timer <> timeout ->
  is_error_status (jp_status (fst (api_get_job (api st) jobid))) = true ->
  wait_loop (S fuel) jobid wait timeout timer job st =
    Some (Return (Msg "Error" (jp_status (fst (api_get_job (api st) jobid)))),
          set_api (snd (api_get_job (api st) jobid))
            (set_slept (slept st ++ [wait]) st)).
Proof.
  intros Hwait Hrun Hne Herr. simpl. rewrite Hrun. simpl.
  destruct (Z.eqb_spec timer timeout); [contradiction|].
  unfold sleep. destruct (Z.ltb_spec wait 0); [lia|].
  unfold get_job. simpl.
  destruct (api_get_job (api st) jobid) as [job' a]. simpl in *.
  now rewrite Herr.
Qed.

(** A job that stays [RUNNING] is given up after exactly [n] sleeps when
    the timer is [n] waits short of the timeout. *)
Lemma wait_loop_timeout jobid wait timeout :
  0 < wait ->
  forall n fuel timer job st,
    jp_status job = "RUNNING" ->
    stays_running jobid (api st) ->
    timer + Z.of_nat n * wait = timeout ->
    (n <= fuel)%nat ->
    wait_loop fuel jobid wait timeout timer job st =
      Some (Return (Msg "Error" "Time Out"),
            set_api (polled jobid n (api st))
              (set_slept (slept st ++ repeat wait n) st)).
Proof.
  intros Hwait. induction n as [|n IH]; intros fuel timer job st Hrun Hstay Ht Hfuel.
  - simpl in Ht. rewrite Z.add_0_r in Ht. subst timer.
    unfold polled. simpl repeat. simpl Nat.iter. rewrite state_eta.
    destruct fuel; simpl; rewrite Hrun; simpl; now rewrite Z.eqb_refl.
  - destruct fuel as [|fuel]; [lia|]. simpl. rewrite Hrun. simpl.
    destruct (Z.eqb_spec timer timeout) as [->|_]; [nia|].
    pose proof (Hstay 0%nat) as H0. unfold polled in H0. simpl in H0.
    unfold sleep. destruct (Z.ltb_spec wait 0); [lia|].
    unfold get_job. simpl.
    destruct (api_get_job (api st) jobid) as [job' a] eqn:Hget. simpl in H0.
    rewrite H0. simpl.
    rewrite (IH fuel (timer + wait) job' (set_api a (set_slept (slept st ++ [wait]) st))).
    + f_equal. f_equal. unfold set_api, set_slept. simpl.
      rewrite <- app_assoc. simpl.
      replace a with (snd (api_get_job (api st) jobid)) by now rewrite Hget.
      now rewrite polled_shift.
    + exact H0.
    + simpl. replace a with (snd (api_get_job (api st) jobid)) by now rewrite Hget.
      now apply stays_running_next.
    + lia.
    + lia.
Qed.

(** C5. With the statuses [RUNNING, RUNNING, COMPLETED], [wait = 1] and
    [timeout = 5], the poller returns the third payload after exactly two
    sleeps. For a job that stays [RUNNING] and a wait that divides the
    timeout, it returns the time-out error after [timeout / wait] sleeps,
    that is, when the time slept equals the timeout. *)
Theorem wait_for_job_polling jobid st :
  (forall fuel p0 p1 p2 a1 a2 a3,
     api_get_job (api st) jobid = (p0, a1) ->
     api_get_job a1 jobid = (p1, a2) ->
     api_get_job a2 jobid = (p2, a3) ->
     jp_status p0 = "RUNNING" -> jp_status p1 = "RUNNING" ->
     jp_status p2 = "COMPLETED" ->
     (2 <= fuel)%nat ->
     wait_for_job fuel jobid 1 5 st =
       Some (Return (RawJob p2), set_api a3 (set_slept (slept st ++ [1; 1]) st))) /\
  (forall fuel wait timeout,
     0 < wait -> 0 <= timeout -> (wait | timeout) ->
     stays_running jobid (api st) ->
     (Z.to_nat (timeout / wait) <= fuel)%nat ->
     exists st',
       wait_for_job fuel jobid wait timeout st
         = Some (Return (Msg "Error" "Time Out"), st') /\
       slept st' = slept st ++ repeat wait (Z.to_nat (timeout / wait)) /\
       Z.of_nat (Z.to_nat (timeout / wait)) * wait = timeout).
Proof.
  split.
  - intros fuel p0 p1 p2 a1 a2 a3 H0 H1 H2 S0 S1 S2 Hfuel.
    destruct fuel as [|[|fuel]]; try lia.
    unfold wait_for_job, get_job. rewrite H0.
    cbn [wait_loop]. rewrite S0. cbn [String.eqb Ascii.eqb Bool.eqb Z.eqb].
    unfold get_job. cbn [api sleep set_slept set_api Z.ltb Z.compare]. rewrite H1, S1.
    cbn [is_error_status String.eqb Ascii.eqb Bool.eqb orb Z.eqb Z.add
         Pos.add Pos.eqb Pos.succ].
    cbn [api sleep set_slept set_api Z.ltb Z.compare]. rewrite H2, S2.
    cbn [is_error_status String.eqb Ascii.eqb Bool.eqb orb].
    rewrite wait_loop_not_running by (rewrite S2; discriminate).
    unfold set_api, set_slept. simpl. now rewrite <- app_assoc.
  - intros fuel wait timeout Hwait Htimeout [q Hq] Hstay Hfuel.
    assert (Hdiv : timeout / wait = q) by (subst; apply Z.div_mul; lia).
    assert (Hk : Z.of_nat (Z.to_nat (timeout / wait)) * wait = timeout) by nia.
    unfold wait_for_job, get_job.
    destruct (api_get_job (api st) jobid) as [job a] eqn:Hget.
    pose proof (Hstay 0%nat) as H0. unfold polled in H0. simpl in H0.
    rewrite Hget in H0. simpl in H0.
    eexists. split; [|split; [|exact Hk]].
    + apply wait_loop_timeout with (n := Z.to_nat (timeout / wait));
        try assumption; try lia.
      simpl. replace a with (snd (api_get_job (api st) jobid)) by now rewrite Hget.
      now apply stays_running_next.
    + reflexivity.
Qed.

(** The first query is not checked for the error statuses: whatever is
    not [RUNNING] there is returned as the raw payload. *)
Lemma wait_for_job_first_query fuel jobid wait timeout st :
  jp_status (fst (api_get_job (api st) jobid)) <> "RUNNING" ->
  wait_for_job fuel jobid wait timeout st =
    Some (Return (RawJob (fst (api_get_job (api st) jobid))),
          set_api (snd (api_get_job (api st) jobid)) st).
Proof.
  intros H. unfold wait_for_job, get_job.
  destruct (api_get_job (api st) jobid) as [job a]. simpl in *.
  now apply wait_loop_not_running.
Qed.

(** ** Properties of the local engines *)

(** *** Binary rendering *)

Lemma length_append (s1 s2 : string) :
  String.length (s1 +:+ s2) = (String.length s1 + String.length s2)%nat.
Proof. induction s1 as [|c s1 IH]; simpl; [reflexivity | now rewrite IH]. Qed.

Lemma length_zeros n : String.length (zeros n) = n.
Proof. induction n as [|n IH]; simpl; [reflexivity | now rewrite IH]. Qed.

Lemma length_pos_digits p : String.length (pos_digits p) = Pos.size_nat p.
Proof.
  induction p as [p IH|p IH|]; simpl; try reflexivity;
    rewrite length_append, IH; simpl; lia.
Qed.

Lemma bits_value_from_append s1 :
  forall acc s2,
    bits_value_from acc (s1 +:+ s2) =
    match bits_value_from acc s1 with
    | Some acc' => bits_value_from acc' s2
    | None => None
    end.
Proof.
  induction s1 as [|c s1 IH]; intros acc s2; simpl; [reflexivity|].
  destruct (Ascii.eqb c "0"); [apply IH|].
  destruct (Ascii.eqb c "1"); [apply IH | reflexivity].
Qed.

Lemma bits_value_zeros n : bits_value_from 0 (zeros n) = Some 0.
Proof. induction n as [|n IH]; simpl; [reflexivity | exact IH]. Qed.

Lemma bits_value_pos_digits p :
  forall acc,
    bits_value_from acc (pos_digits p) =
    Some (acc * 2 ^ Z.of_nat (Pos.size_nat p) + Zpos p).
Proof.
  induction p as [p IH|p IH|]; intros acc.
  - simpl pos_digits. rewrite bits_value_from_append, IH.
    cbn [bits_value_from Ascii.eqb Bool.eqb]. f_equal.
    change (Pos.size_nat p~1) with (S (Pos.size_nat p)).
    rewrite Nat2Z.inj_succ, Z.pow_succ_r by lia. lia.
  - simpl pos_digits. rewrite bits_value_from_append, IH.
    cbn [bits_value_from Ascii.eqb Bool.eqb]. f_equal.
    change (Pos.size_nat p~0) with (S (Pos.size_nat p)).
    rewrite Nat2Z.inj_succ, Z.pow_succ_r by lia. lia.
  - cbn [pos_digits bits_value_from Ascii.eqb Bool.eqb Pos.size_nat]. f_equal.
    change (Z.of_nat 1) with 1. lia.
Qed.

Lemma pos_digits_head p :
  exists s, pos_digits p = String "1"%char s.
Proof.
  induction p as [p [s IH]|p [s IH]|]; simpl; try rewrite IH; simpl; eauto.
Qed.

Lemma pow_size_nat_le p : 2 ^ Z.of_nat (Pos.size_nat p) <= 2 * Zpos p.
Proof.
  induction p as [p IH|p IH|].
  - change (Pos.size_nat p~1) with (S (Pos.size_nat p)).
    rewrite Nat2Z.inj_succ, Z.pow_succ_r, (Pos2Z.inj_xI p) by lia. lia.
  - change (Pos.size_nat p~0) with (S (Pos.size_nat p)).
    rewrite Nat2Z.inj_succ, Z.pow_succ_r, (Pos2Z.inj_xO p) by lia. lia.
  - simpl. lia.
Qed.

Lemma size_nat_le_width p w :
  Zpos p < 2 ^ w -> 0 < w -> Z.of_nat (Pos.size_nat p) <= w.
Proof.
  intros Hlt Hw. pose proof (pow_size_nat_le p) as Hle.
  destruct (Z_le_gt_dec (Z.of_nat (Pos.size_nat p)) w) as [|Hgt]; [assumption|].
  exfalso.
  assert (2 ^ (w + 1) <= 2 ^ Z.of_nat (Pos.size_nat p))
    by (apply Z.pow_le_mono_r; lia).
  rewrite Z.pow_add_r in * by lia. lia.
Qed.

(** An outcome below [2 ^ w], for a width [w] of at least one bit, is
    rendered as exactly [w] binary digits that spell the outcome. *)
Lemma zfill_bin_width x w :
  0 < w -> 0 <= x < 2 ^ w ->
  Z.of_nat (String.length (zfill (drop_chars 2 (bin x)) w)) = w /\
  bits_value (zfill (drop_chars 2 (bin x)) w) = Some x.
Proof.
  intros Hw [Hx0 Hxw]. destruct x as [|p|p]; [| |lia].
  - simpl bin. simpl drop_chars. unfold zfill. simpl String.length.
    destruct (Z.leb_spec w (Z.of_nat 1)) as [Hle|Hgt].
    + split; [simpl; lia | reflexivity].
    + cbn [Ascii.eqb Bool.eqb orb andb]. split.
      * rewrite length_append, length_zeros. simpl. lia.
      * unfold bits_value. rewrite bits_value_from_append, bits_value_zeros.
        reflexivity.
  - assert (Hdrop : drop_chars 2 (bin (Zpos p)) = pos_digits p) by reflexivity.
    rewrite Hdrop. pose proof (size_nat_le_width p w Hxw Hw) as Hsize.
    unfold zfill. rewrite length_pos_digits.
    destruct (Z.leb_spec w (Z.of_nat (Pos.size_nat p))) as [Hle|Hgt].
    + split; [rewrite length_pos_digits; lia|].
      unfold bits_value. rewrite bits_value_pos_digits. f_equal.
    + destruct (pos_digits_head p) as [s Hs].
      pose proof (length_pos_digits p) as Hlen.
      pose proof (bits_value_pos_digits p 0) as Hval.
      rewrite Hs in *. cbn [Ascii.eqb Bool.eqb orb andb]. split.
      * rewrite length_append, length_zeros, Hlen. lia.
      * unfold bits_value. rewrite bits_value_from_append, bits_value_zeros.
        rewrite Hval. f_equal.
Qed.

(** *** Counting *)

Lemma total_counter_incr k c : total (counter_incr k c) = total c + 1.
Proof using Type.
  unfold total. induction c as [|[k' n] c IH]; simpl; [reflexivity|].
  destruct (String.eqb k' k); simpl; lia.
Qed.

Lemma keys_counter_incr k c k' :
  In k' (map fst (counter_incr k c)) <-> k' = k \/ In k' (map fst c).
Proof using Type.
  induction c as [|[k0 n] c IH]; simpl.
  - split; [intros [->|[]]; now left | intros [->|[]]; now left].
  - destruct (String.eqb_spec k0 k) as [->|Hne]; simpl.
    + split; [intros [->|H]; [now left | now right; right]
             | intros [->|[->|H]]; [now left | now left | now right]].
    + rewrite IH. split.
      * intros [->|[->|H]]; [now right; left | now left | now right; right].
      * intros [->|[->|H]]; [now right; left | now left | now right; right].
Qed.

Lemma NoDup_counter_incr k c :
  NoDup (map fst c) -> NoDup (map fst (counter_incr k c)).
Proof using Type.
  induction c as [|[k0 n] c IH]; simpl; intros Hnd.
  - apply NoDup_cons. split; [apply not_elem_of_nil | constructor].
  - destruct (String.eqb_spec k0 k) as [->|Hne]; simpl; [assumption|].
    apply NoDup_cons in Hnd as [Hnotin Hnd]. apply NoDup_cons. split.
    + rewrite list_elem_of_In, keys_counter_incr. intros [->|Hin]; [congruence|].
      apply Hnotin. now apply list_elem_of_In.
    + now apply IH.
Qed.

Lemma dict_get_counter_incr k c k' :
  dict_get k' (counter_incr k c) =
  if String.eqb k k' then Some (default 0 (dict_get k' c) + 1) else dict_get k' c.
Proof using Type.
  induction c as [|[k0 n] c IH]; simpl.
  - destruct (String.eqb k k'); reflexivity.
  - destruct (String.eqb_spec k0 k) as [->|Hne]; simpl.
    + destruct (String.eqb_spec k k'); reflexivity.
    + destruct (String.eqb_spec k0 k') as [->|Hne'].
      * destruct (String.eqb_spec k k'); [congruence | reflexivity].
      * exact IH.
Qed.

Lemma dict_get_key_in {A} k (c : list (string * A)) :
  In k (map fst c) -> exists v, dict_get k c = Some v.
Proof.
  induction c as [|[k0 v0] c IH]; simpl; [intros []|].
  intros Hin. destruct (String.eqb_spec k0 k) as [->|Hne]; [eauto|].
  destruct Hin as [?|Hin]; [congruence | auto].
Qed.

(** Folding [counter_incr] over a list: the total grows by the length, the
    keys stay distinct, the keys gained are the elements of the list and
    every count grows by the number of occurrences. *)
Lemma counter_fold l :
  forall c,
    let c' := fold_left (fun c k => counter_incr k c) l c in
    total c' = total c + Z.of_nat (length l) /\
    (NoDup (map fst c) -> NoDup (map fst c')) /\
    (forall k, In k (map fst c') <-> In k (map fst c) \/ In k l) /\
    (forall k, default 0 (dict_get k c') =
               default 0 (dict_get k c) + Z.of_nat (count_occ string_dec l k)).
Proof using Type.
  induction l as [|x l IH]; intros c; cbv zeta.
  - simpl. split; [lia|]. split; [intros H; exact H|].
    split; [intros k; split; [intros H; now left | intros [H|[]]; exact H]
          | intros; lia].
  - cbn [fold_left]. destruct (IH (counter_incr x c)) as (Ht & Hnd & Hk & Hc).
    split; [|split; [|split]].
    + rewrite Ht, total_counter_incr. cbn [length]. lia.
    + intros H. now apply Hnd, NoDup_counter_incr.
    + intros k. rewrite Hk, keys_counter_incr. simpl. split.
      * intros [[->|H]|H]; [now right; left | now left | now right; right].
      * intros [H|[->|H]]; [now left; right | now left; left | now right].
    + intros k. rewrite Hc, dict_get_counter_incr. cbn [count_occ].
      destruct (String.eqb_spec x k) as [->|Hne].
      * destruct (string_dec k k); [|congruence]. simpl. lia.
      * destruct (string_dec x k); [congruence|]. reflexivity.
Qed.

(** *** The sampling and the unitary engine *)

Lemma classical_bits_of_state b x :
  classical_state b = Some x ->
  classical_bits b = Return (zfill (drop_chars 2 (bin x)) (so_number_of_cbits b)).
Proof.
  unfold classical_state, classical_bits, subscript.
  destruct (so_result b) as [| | | | |d]; try discriminate.
  destruct (dict_get "data" d) as [[| | | | |d']|]; try discriminate. simpl.
  destruct (dict_get "classical_state" d') as [[| x' | | | |]|]; try discriminate.
  now intros [= ->].
Qed.

Lemma Forall2_In_l {A B} (P : A -> B -> Prop) l1 l2 a :
  Forall2 P l1 l2 -> In a l1 -> exists b, In b l2 /\ P a b.
Proof.
  induction 1 as [|x y l1 l2 Hxy _ IH]; simpl; [intros []|].
  intros [<-|Hin]; [eauto|].
  destruct (IH Hin) as (b & Hb & Hab). eauto.
Qed.

Lemma run_shots_all cc outs bits :
  Forall2 (fun b s => classical_bits b = Return s) outs bits ->
  forall n result,
    (forall i b, outs !! i = Some b ->
       QasmSimulator_run cc (random_random (n + i)) = Return b) ->
    run_shots (length outs) cc n result =
      (Return (result ++ bits), (n + length outs)%nat).
Proof.
  induction 1 as [|b s outs bits Hb _ IH]; intros n result Hrun; simpl.
  - now rewrite app_nil_r, Nat.add_0_r.
  - rewrite <- (Nat.add_0_r n) at 1. rewrite (Hrun 0%nat b eq_refl), Hb.
    rewrite IH.
    + rewrite <- app_assoc. simpl. f_equal. lia.
    + intros i b' Hi. replace (S n + i)%nat with (n + S i)%nat by lia.
      now apply Hrun.
Qed.

(** An engine failure on the first job leaves the wrapper as an exception;
    the jobs after it are not run. *)
Lemma run_local_qasm_simulator_raises j jobs n e :
  sj_shots j = 1 ->
  QasmSimulator_run (sj_compiled_circuit j) (random_random n) = Raise e ->
  run_local_qasm_simulator (j :: jobs) n = (Raise e, S n).
Proof.
  intros Hs He. unfold run_local_qasm_simulator. simpl. unfold qasm_job.
  now rewrite Hs, He.
Qed.

Lemma run_local_unitary_simulator_raises j jobs e :
  UnitarySimulator_run (sj_compiled_circuit j) = Raise e ->
  run_local_unitary_simulator (j :: jobs) = Raise e.
Proof.
  intros He. unfold run_local_unitary_simulator. simpl. unfold unitary_job.
  now rewrite He.
Qed.

(** Every entry that the wrappers return is [COMPLETED]: the initial
    [FAIL] entry never reaches the results. *)
Lemma qasm_jobs_completed jobs :
  forall n qasms rs n',
    Forall (fun r => r_status r = "COMPLETED") qasms ->
    qasm_jobs jobs n qasms = (Return rs, n') ->
    Forall (fun r => r_status r = "COMPLETED") rs.
Proof.
  induction jobs as [|j jobs IH]; intros n qasms rs n' Hq; simpl.
  - now intros [= <- _].
  - destruct (qasm_job j n) as [[r|e] n1] eqn:Hj; [|discriminate].
    apply IH. apply Forall_app. split; [assumption|].
    constructor; [|constructor].
    unfold qasm_job in Hj. destruct (sj_shots j =? 1).
    + destruct (QasmSimulator_run _ _); inversion Hj; reflexivity.
    + destruct (run_shots _ _ _ _) as [[?|?] ?]; inversion Hj; reflexivity.
Qed.

Lemma unitary_jobs_completed jobs :
  forall qasms rs,
    Forall (fun r => r_status r = "COMPLETED") qasms ->
    unitary_jobs jobs qasms = Return rs ->
    Forall (fun r => r_status r = "COMPLETED") rs.
Proof.
  induction jobs as [|j jobs IH]; intros qasms rs Hq; simpl.
  - now intros [= <-].
  - destruct (unitary_job j) as [r|e] eqn:Hj; [|discriminate].
    apply IH. apply Forall_app. split; [assumption|].
    constructor; [|constructor].
    unfold unitary_job in Hj.
    destruct (UnitarySimulator_run _); inversion Hj; reflexivity.
Qed.

(** C8 (amended). A job with [shots = N > 1] whose trials all succeed runs
    exactly [N] trials, one random draw each, and is [COMPLETED] with the
    counts table of the rendered outcomes: its keys are distinct and are
    exactly the renderings observed, every value is the number of
    occurrences of its key, and the values sum to [N]. The rendering of an
    outcome has exactly as many binary digits as the reported width, and
    spells the outcome, when the width is at least one and the outcome is
    below two to the power of the width. *)
Theorem sampling_counts (j : sim_job) (n : nat) (outs : list sim_output)
    (bits : list string) :
  1 < sj_shots j ->
  Z.of_nat (length outs) = sj_shots j ->
  (forall i b, outs !! i = Some b ->
     QasmSimulator_run (sj_compiled_circuit j) (random_random (n + i)) = Return b) ->
  Forall2 (fun b s => classical_bits b = Return s) outs bits ->
  let table := Counter bits in
  let entry := {| r_result := counts_value table; r_status := "COMPLETED" |} in
  qasm_job j n = (Return entry, (n + length outs)%nat) /\
  run_local_qasm_simulator [j] n = (Return [entry], (n + length outs)%nat) /\
  NoDup (map fst table) /\
  (forall k, In k (map fst table) <-> In k bits) /\
  (forall k, In k bits ->
     dict_get k table = Some (Z.of_nat (count_occ string_dec bits k))) /\
  total table = sj_shots j /\
  (forall b x,
     In b outs -> classical_state b = Some x ->
     0 < so_number_of_cbits b -> 0 <= x < 2 ^ so_number_of_cbits b ->
     exists s,
       classical_bits b = Return s /\ In s bits /\
       Z.of_nat (String.length s) = so_number_of_cbits b /\
       bits_value s = Some x).
Proof using Type.
  intros Hshots Hlen Hrun Hbits table entry.
  assert (Hjob : qasm_job j n = (Return entry, (n + length outs)%nat)).
  { unfold qasm_job. destruct (Z.eqb_spec (sj_shots j) 1) as [|_]; [lia|].
    rewrite <- Hlen, Nat2Z.id.
    now rewrite (run_shots_all _ outs bits Hbits n [] Hrun). }
  destruct (counter_fold bits []) as (Ht & Hnd & Hk & Hc).
  fold (Counter bits) in Ht, Hnd, Hk, Hc. fold table in Ht, Hnd, Hk, Hc.
  split; [exact Hjob|]. split.
  { unfold run_local_qasm_simulator. simpl. now rewrite Hjob. }
  split; [apply Hnd; constructor|]. split.
  { intros k. rewrite Hk. simpl.
    split; [intros [[]|H]; exact H | intros H; now right]. }
  split.
  { intros k Hin. destruct (dict_get_key_in k table) as [v Hv].
    - apply Hk. now right.
    - specialize (Hc k). rewrite Hv in Hc. simpl in Hc. rewrite Hv. f_equal. lia. }
  split.
  { rewrite Ht. unfold total. simpl. rewrite <- Hlen.
    now rewrite (Forall2_length _ _ _ Hbits). }
  intros b x Hin Hstate Hw Hx.
  pose proof (classical_bits_of_state b x Hstate) as Hcb.
  eexists. split; [exact Hcb|]. split.
  - destruct (Forall2_In_l _ _ _ _ Hbits Hin) as (s & Hs & Hbs).
    rewrite Hcb in Hbs. now injection Hbs as <-.
  - now apply zfill_bin_width.
Qed.

(** ** Properties of the result accessors *)

(** An omitted device, like an empty one, stands for the last device. *)
Lemma device_or_last_default st :
  device_or_last None st = last_device_backend st /\
  device_or_last (Some "") st = last_device_backend st /\
  device_or_last (Some (last_device_backend st)) st = last_device_backend st.
Proof.
  unfold device_or_last. repeat split.
  destruct (last_device_backend st); reflexivity.
Qed.

Lemma accessors_default_device name st :
  get_result name None st = get_result name (Some (last_device_backend st)) st /\
  get_data name None st = get_data name (Some (last_device_backend st)) st /\
  get_counts name None st = get_counts name (Some (last_device_backend st)) st /\
  get_compiled_qasm name None st =
    get_compiled_qasm name (Some (last_device_backend st)) st.
Proof.
  unfold get_result, get_data, get_counts, get_compiled_qasm.
  destruct (device_or_last_default st) as (-> & _ & ->). repeat split.
Qed.

(** A name that is not in the catalog: [get_result], [get_counts] and
    [get_compiled_qasm] answer with a value, [get_data] raises. *)
Lemma accessors_missing_circuit name device st :
  circuits st !! name = None ->
  get_result name device st = Return (error_dict "Circuit not found") /\
  get_counts name device st = Return (error_dict "Error in circuit name") /\
  get_compiled_qasm name device st = Return "No compiled qasm for this circuit" /\
  get_data name device st = Raise (KeyError name).
Proof.
  intros H. unfold get_result, get_counts, get_compiled_qasm, get_data, execution_of.
  rewrite H. repeat split.
Qed.

(** A device without a record for a circuit of the catalog: [get_counts]
    and [get_compiled_qasm] answer with a value, [get_result] and [get_data]
    raise. *)
Lemma accessors_missing_device name device st e ex :
  circuits st !! name = Some e -> execution e = Some ex ->
  ex !! device_or_last device st = None ->
  get_counts name device st = Return (error_dict "Error in circuit name") /\
  get_compiled_qasm name device st = Return "No compiled qasm for this circuit" /\
  get_result name device st = Raise (KeyError (device_or_last device st)) /\
  get_data name device st = Raise (KeyError (device_or_last device st)).
Proof.
  intros Hc He Hd.
  unfold get_result, get_counts, get_compiled_qasm, get_data, execution_of.
  rewrite Hc, He, Hd. repeat split.
Qed.

(** ** Properties of the observable average *)

Lemma sum_from_ints counts :
  forall a,
    sum_from (NInt a) (map snd (map (fun kv : string * Z => (fst kv, VInt (snd kv))) counts))
    = Return (NInt (a + total counts)).
Proof.
  unfold total. induction counts as [|[k c] counts IH]; intros a; simpl.
  - now rewrite Z.add_0_r.
  - rewrite IH. f_equal. f_equal. lia.
Qed.

Lemma fold_left_raise {A} (f : outcome num -> A -> outcome num) l e :
  (forall x, f (Raise e) x = Raise e) -> fold_left f l (Raise e) = Raise e.
Proof.
  intros Hf. induction l as [|x l IH]; simpl; [reflexivity|].
  now rewrite Hf.
Qed.

Lemma average_loop_terms observable tot counts :
  forall temp,
    average_loop (map (fun kv : string * Z => (fst kv, VInt (snd kv))) counts)
      observable (NInt tot) temp
    = fold_left (fun acc co =>
                   temp <- acc ;;
                   t <- weighted_term tot co ;;
                   add temp (NFloat t))
        (common_terms counts observable) (Return temp).
Proof.
  induction counts as [|[k c] counts IH]; intros temp; simpl; [reflexivity|].
  destruct (dict_get k observable) as [o|]; simpl; [|apply IH].
  unfold weighted_term at 2. simpl.
  destruct (mul_float (NInt c) o) as [p|e]; simpl.
  - destruct (float_div p (NInt tot)) as [t|e]; simpl.
    + destruct (add temp (NFloat t)) as [temp'|e]; simpl; [apply IH|].
      now rewrite fold_left_raise.
    + now rewrite fold_left_raise.
  - now rewrite fold_left_raise.
Qed.

(** C7 (amended). For a stored counts table of ints, [average_data] is the
    sum, in the order of the table and in binary64 arithmetic, of
    [counts[key] * observable[key] / total] over the keys that are in both
    mappings, [total] being the sum of all the counts; a key that is in one
    mapping only adds no term. For the counts [{"00": 3, "11": 7}] and the
    observable [{"00": 1.0, "11": -1.0}] the terms are [0.3] and [-0.7] and
    the result is [-0.39999999999999997], the double next to [-0.4]. *)
Theorem average_data_weighted name observable counts st :
  get_counts name None st = Return (counts_dict counts) ->
  average_data name observable st = weighted_average counts observable /\
  weighted_average [("00", 3); ("11", 7)] [("00", 1.0%float); ("11", (-1.0)%float)]
    = Return (NFloat (-0.39999999999999997)%float).
Proof.
  intros Hcounts. split; [|vm_compute; reflexivity].
  unfold average_data. rewrite Hcounts. simpl.
  unfold sum, counts_dict. rewrite sum_from_ints. simpl.
  apply average_loop_terms.
Qed.

Lemma average_data_unfolds name observable counts st :
  get_counts name None st = Return (counts_dict counts) ->
  average_data name observable st = weighted_average counts observable.
Proof.
  intros Hcounts. unfold average_data. rewrite Hcounts. simpl.
  unfold sum, counts_dict. rewrite sum_from_ints. simpl.
  apply average_loop_terms.
Qed.

(** ** Further properties of the compiler *)

(** The job that a pass of the loop of [compile] appends when [n] random
    draws were made before it. *)
Definition new_job (name : string) (c : Circ) (device : string)
    (shots max_credits : Z) (basis_gates : option string)
    (coupling_map : option coupling) (seed : option Seed) (n : nat) : job :=
  let qasm_compiled := compile_qasm c basis_gates coupling_map in
  let is_local := str_in device ["local_unitary_simulator"; "local_qasm_simulator"] in
  {| job_name := name;
     job_qasm_compiled := qasm_compiled;
     job_coupling_map := coupling_map;
     job_basis_gates := basis_gates;
     job_compiled_circuit :=
       if is_local then Some (simulator_backend qasm_compiled basis_gates) else None;
     job_shots := shots;
     job_max_credits := max_credits;
     job_seed :=
       if is_local then
         match seed with
         | Some s => Some s
         | None => Some (random_random n)
         end
       else None |}.

Definition is_local_device (device : string) : bool :=
  str_in device ["local_unitary_simulator"; "local_qasm_simulator"].

(** The number of draws after [k] passes of the loop. *)
Definition draws_after (device : string) (n k : nat) : nat :=
  if is_local_device device then (n + k)%nat else n.

Lemma compile_one_effect name c device shots max_credits basis_gates coupling_map seed st :
  let st' := compile_one name c device shots max_credits basis_gates coupling_map seed st in
  to_execute st' =
    queue_append device
      (new_job name c device shots max_credits basis_gates coupling_map seed (draws st))
      (to_execute st) /\
  draws st' = draws_after device (draws st) 1 /\
  circuits st' = circuits st /\
  last_device_backend st' = last_device_backend st /\
  api st' = api st /\ slept st' = slept st.
Proof.
  unfold compile_one, new_job, draws_after, is_local_device. cbv zeta.
  match goal with |- context [str_in ?a ?b] => destruct (str_in a b) end;
    simpl; repeat split; try reflexivity. lia.
Qed.

(** What the loop does to the state, whether it ends with success or at a
    missing name: the jobs of the names before the first missing one are
    appended, the [i]-th of them built after [i] passes. *)
Lemma compile_loop_effect device shots max_credits basis_gates coupling_map seed :
  forall names st,
    exists new,
      let st' := snd (compile_loop names device shots max_credits basis_gates
                        coupling_map seed st) in
      to_execute st' = enqueue device new (to_execute st) /\
      length new = length (known_prefix (circuits st) names) /\
      (forall i name, known_prefix (circuits st) names !! i = Some name ->
         exists e, circuits st !! name = Some e /\
           new !! i = Some (new_job name (circuit e) device shots max_credits
                              basis_gates coupling_map seed
                              (draws_after device (draws st) i))) /\
      draws st' = draws_after device (draws st) (length new) /\
      circuits st' = circuits st /\
      last_device_backend st' = last_device_backend st /\
      api st' = api st /\ slept st' = slept st.
Proof.
  induction names as [|name rest IH]; intros st.
  - exists []. simpl. unfold draws_after. repeat split.
    + intros i name H. discriminate.
    + destruct (is_local_device device); [lia | reflexivity].
  - simpl. destruct (circuits st !! name) as [e|] eqn:He.
    + pose proof (compile_one_effect name (circuit e) device shots max_credits
                    basis_gates coupling_map seed st) as Hone.
      cbv zeta in Hone. destruct Hone as (Hq & Hd & Hc & Hl & Ha & Hs).
      destruct (IH (compile_one name (circuit e) device shots max_credits
                      basis_gates coupling_map seed st))
        as (new & Hq' & Hlen & Hjobs & Hd' & Hc' & Hl' & Ha' & Hs').
      cbv zeta in *.
      exists (new_job name (circuit e) device shots max_credits basis_gates
                coupling_map seed (draws st) :: new).
      rewrite Hc in *. split; [|split; [|split; [|split; [|split; [|split; [|split]]]]]].
      * rewrite Hq', Hq. reflexivity.
      * simpl. now rewrite Hlen.
      * intros [|i] nm Hi; simpl in Hi.
        -- injection Hi as <-. exists e. split; [assumption|]. simpl.
           unfold draws_after. destruct (is_local_device device);
             [now rewrite Nat.add_0_r | reflexivity].
        -- destruct (Hjobs i nm Hi) as (e' & He' & Hnew). exists e'.
           split; [assumption|]. simpl. rewrite Hnew, Hd. do 2 f_equal.
           unfold draws_after. destruct (is_local_device device); [lia | reflexivity].
      * rewrite Hd', Hd. simpl. unfold draws_after.
        destruct (is_local_device device); [lia | reflexivity].
      * congruence.
      * congruence.
      * congruence.
      * congruence.
    + exists []. simpl. unfold draws_after. repeat split.
      * intros i nm H. discriminate.
      * destruct (is_local_device device); [lia | reflexivity].
Qed.

Lemma known_prefix_all c names :
  Forall (fun name => is_Some (c !! name)) names -> known_prefix c names = names.
Proof.
  induction 1 as [|name names [e He] _ IH]; simpl; [reflexivity|].
  now rewrite He, IH.
Qed.

Lemma compile_loop_reply device shots max_credits basis_gates coupling_map seed :
  forall names st,
    fst (compile_loop names device shots max_credits basis_gates coupling_map seed st)
      = Msg "COMPLETED" "all done" <->
    Forall (fun name => is_Some (circuits st !! name)) names.
Proof.
  induction names as [|name rest IH]; intros st; simpl.
  - split; [constructor | reflexivity].
  - destruct (circuits st !! name) as [e|] eqn:He.
    + rewrite IH. pose proof (compile_one_effect name (circuit e) device shots
                               max_credits basis_gates coupling_map seed st) as Hone.
      cbv zeta in Hone. destruct Hone as (_ & _ & Hc & _). rewrite Hc. split.
      * intros H. constructor; [eauto | assumption].
      * intros H. now inversion H.
    + simpl. split; [discriminate|]. intros H. inversion H as [|? ? [e He'] _]; subst.
      congruence.
Qed.

(** X1. [compile] answers [COMPLETED] exactly when the list of names is not
    empty and every name is in the catalog. It has then appended to the
    device's list one job per name, in the order of the list, each with the
    shots, credits, basis and coupling map of the call; the lists of the
    other devices and the catalog are as before. *)
Theorem compile_all_known names device shots max_credits basis_gates coupling_map seed st :
  (fst (compile names device shots max_credits basis_gates coupling_map seed st)
     = Msg "COMPLETED" "all done" <->
   names <> [] /\ Forall (fun name => is_Some (circuits st !! name)) names) /\
  (names <> [] -> Forall (fun name => is_Some (circuits st !! name)) names ->
   exists new st',
     compile names device shots max_credits basis_gates coupling_map seed st
       = (Msg "COMPLETED" "all done", st') /\
     map job_name new = names /\
     Forall (fun j => job_shots j = shots /\ job_max_credits j = max_credits /\
                      job_basis_gates j = basis_gates /\
                      job_coupling_map j = coupling_map) new /\
     queued device (to_execute st') = queued device (to_execute st) ++ new /\
     (forall d, d <> device ->
        dict_get d (to_execute st') = dict_get d (to_execute st)) /\
     circuits st' = circuits st).
Proof.
  split.
  - destruct names as [|name rest].
    + simpl. split; [discriminate | intros [H _]; now destruct H].
    + change (compile (name :: rest) device shots max_credits basis_gates
                coupling_map seed st)
        with (compile_loop (name :: rest) device shots max_credits basis_gates
                coupling_map seed st).
      rewrite compile_loop_reply. split; [intros H; split; [discriminate | exact H]
                                         | intros [_ H]; exact H].
  - intros Hne Hall.
    assert (Hc : compile names device shots max_credits basis_gates coupling_map seed st
                 = compile_loop names device shots max_credits basis_gates
                     coupling_map seed st)
      by (destruct names; [congruence | reflexivity]).
    destruct (compile_loop_effect device shots max_credits basis_gates coupling_map
                seed names st) as (new & Hq & Hlen & Hjobs & _ & Hcirc & _).
    cbv zeta in *. rewrite (known_prefix_all _ _ Hall) in *.
    exists new, (snd (compile_loop names device shots max_credits basis_gates
                        coupling_map seed st)).
    assert (Hnew : forall i j, new !! i = Some j ->
              exists name e, names !! i = Some name /\
                j = new_job name (circuit e) device shots max_credits basis_gates
                      coupling_map seed (draws_after device (draws st) i)).
    { intros i j Hi. destruct (names !! i) as [name|] eqn:Hn.
      - destruct (Hjobs i name Hn) as (e & _ & Hj). rewrite Hj in Hi.
        injection Hi as <-. eauto.
      - apply lookup_ge_None in Hn. apply lookup_lt_Some in Hi. lia. }
    split; [|split; [|split; [|split; [|split]]]].
    + rewrite Hc. apply (compile_loop_reply device shots max_credits basis_gates
                          coupling_map seed) in Hall.
      destruct (compile_loop names device shots max_credits basis_gates
                  coupling_map seed st) as [r s']. simpl in *. now subst r.
    + apply list_eq. intros i. rewrite list_lookup_fmap.
      destruct (new !! i) as [j|] eqn:Hi; simpl.
      * destruct (Hnew i j Hi) as (name & e & Hn & ->). now rewrite Hn.
      * apply lookup_ge_None in Hi. symmetry. apply lookup_ge_None. lia.
    + apply Forall_lookup. intros i j Hi.
      destruct (Hnew i j Hi) as (name & e & _ & ->). repeat split.
    + rewrite Hq. apply queued_enqueue_eq.
    + intros d Hd. rewrite Hq. now apply dict_get_enqueue_ne.
    + exact Hcirc.
Qed.

Lemma compile_effect names device shots max_credits basis_gates coupling_map seed st :
  exists new,
    let st' := snd (compile names device shots max_credits basis_gates
                      coupling_map seed st) in
    to_execute st' = enqueue device new (to_execute st) /\
    length new = length (known_prefix (circuits st) names) /\
    (forall i name, known_prefix (circuits st) names !! i = Some name ->
       exists e, circuits st !! name = Some e /\
         new !! i = Some (new_job name (circuit e) device shots max_credits
                            basis_gates coupling_map seed
                            (draws_after device (draws st) i))) /\
    draws st' = draws_after device (draws st) (length new) /\
    circuits st' = circuits st /\
    last_device_backend st' = last_device_backend st /\
    api st' = api st /\ slept st' = slept st.
Proof.
  destruct names as [|name rest].
  - exists []. simpl. unfold draws_after. repeat split.
    + intros i name H. discriminate.
    + destruct (is_local_device device); [lia | reflexivity].
  - apply compile_loop_effect.
Qed.

Lemma new_jobs_lookup names device shots max_credits basis_gates coupling_map seed st new :
  length new = length (known_prefix (circuits st) names) ->
  (forall i name, known_prefix (circuits st) names !! i = Some name ->
     exists e, circuits st !! name = Some e /\
       new !! i = Some (new_job name (circuit e) device shots max_credits
                          basis_gates coupling_map seed
                          (draws_after device (draws st) i))) ->
  forall i j, new !! i = Some j ->
    exists name e,
      known_prefix (circuits st) names !! i = Some name /\
      j = new_job name (circuit e) device shots max_credits basis_gates
            coupling_map seed (draws_after device (draws st) i).
Proof.
  intros Hlen Hjobs i j Hi.
  destruct (known_prefix (circuits st) names !! i) as [name|] eqn:Hn.
  - destruct (Hjobs i name Hn) as (e & _ & Hj). rewrite Hj in Hi.
    injection Hi as <-. eauto.
  - apply lookup_ge_None in Hn. apply lookup_lt_Some in Hi. lia.
Qed.

(** X2. Every job that [compile] appends for a local engine carries the
    simulator form of its own compiled source and a seed; every job that it
    appends for any other device carries neither. *)
Theorem compile_local_form names device shots max_credits basis_gates coupling_map seed st :
  exists new,
    to_execute (snd (compile names device shots max_credits basis_gates
                       coupling_map seed st))
      = enqueue device new (to_execute st) /\
    map job_name new = known_prefix (circuits st) names /\
    Forall (fun j =>
              if is_local_device device
              then job_compiled_circuit j
                     = Some (simulator_backend (job_qasm_compiled j) basis_gates) /\
                   is_Some (job_seed j)
              else job_compiled_circuit j = None /\ job_seed j = None) new.
Proof.
  destruct (compile_effect names device shots max_credits basis_gates coupling_map
              seed st) as (new & Hq & Hlen & Hjobs & _).
  cbv zeta in *. exists new. split; [exact Hq|].
  pose proof (new_jobs_lookup names device shots max_credits basis_gates
                coupling_map seed st new Hlen Hjobs) as Hnew.
  split.
  - apply list_eq. intros i. rewrite list_lookup_fmap.
    destruct (new !! i) as [j|] eqn:Hi; simpl.
    + destruct (Hnew i j Hi) as (name & e & Hn & ->). now rewrite Hn.
    + apply lookup_ge_None in Hi. symmetry. apply lookup_ge_None. lia.
  - apply Forall_lookup. intros i j Hi.
    destruct (Hnew i j Hi) as (name & e & _ & ->).
    unfold new_job, is_local_device. cbv zeta.
    cbn [job_compiled_circuit job_seed job_qasm_compiled].
    match goal with |- context [str_in ?a ?b] => destruct (str_in a b) end.
    + split; [reflexivity|]. destruct seed; eauto.
    + split; reflexivity.
Qed.

(** X3. For a local engine [compile] makes one random draw per job that it
    appends, also when the caller gives a seed; the [i]-th job carries the
    caller's seed when there is one and the value of its own draw
    otherwise. For any other device it makes no draw. *)
Theorem compile_seeds names device shots max_credits basis_gates coupling_map seed st :
  exists new,
    let st' := snd (compile names device shots max_credits basis_gates
                      coupling_map seed st) in
    to_execute st' = enqueue device new (to_execute st) /\
    length new = length (known_prefix (circuits st) names) /\
    (if is_local_device device
     then draws st' = (draws st + length new)%nat /\
          forall i j, new !! i = Some j ->
            job_seed j = Some (match seed with
                               | Some s => s
                               | None => random_random (draws st + i)
                               end)
     else draws st' = draws st).
Proof.
  destruct (compile_effect names device shots max_credits basis_gates coupling_map
              seed st) as (new & Hq & Hlen & Hjobs & Hd & _).
  cbv zeta in *. exists new. split; [exact Hq|]. split; [exact Hlen|].
  pose proof (new_jobs_lookup names device shots max_credits basis_gates
                coupling_map seed st new Hlen Hjobs) as Hnew.
  unfold draws_after in *. destruct (is_local_device device) eqn:Hloc.
  - split; [exact Hd|]. intros i j Hi.
    destruct (Hnew i j Hi) as (name & e & _ & ->).
    unfold new_job. cbv zeta. cbn [job_seed].
    unfold is_local_device in Hloc. rewrite Hloc.
    destruct seed; reflexivity.
  - exact Hd.
Qed.

(** *** The shape of the queue *)

(** A queue as a dict: its devices are distinct and none has an empty list. *)
Definition queue_ok (q : list (string * list job)) : Prop :=
  NoDup (map fst q) /\ Forall (fun p => snd p <> []) q.

Lemma dict_get_None_keys {A} d (q : list (string * A)) :
  dict_get d q = None <-> ~ In d (map fst q).
Proof.
  induction q as [|[d' v] q IH]; simpl.
  - split; [intros _ [] | reflexivity].
  - destruct (String.eqb_spec d' d) as [->|Hne].
    + split; [discriminate | intros H; destruct H; now left].
    + rewrite IH. split.
      * intros H [?|?]; [congruence | contradiction].
      * intros H Hin. apply H. now right.
Qed.

Lemma keys_queue_append device j q :
  map fst (queue_append device j q) =
  if dict_mem device q then map fst q else map fst q ++ [device].
Proof.
  unfold dict_mem. induction q as [|[d js] q IH]; simpl; [reflexivity|].
  destruct (String.eqb_spec d device) as [->|Hne]; simpl; [reflexivity|].
  rewrite IH. destruct (dict_get device q); reflexivity.
Qed.

Lemma queue_append_ok device j q : queue_ok q -> queue_ok (queue_append device j q).
Proof.
  intros [Hnd Hne]. split.
  - rewrite keys_queue_append. unfold dict_mem.
    destruct (dict_get device q) eqn:Hd; [assumption|].
    apply NoDup_app. split; [assumption|]. split.
    + intros x Hx Hx'. apply list_elem_of_singleton in Hx'. subst x.
      apply dict_get_None_keys in Hd. apply Hd. now apply list_elem_of_In.
    + apply NoDup_singleton.
  - clear Hnd. induction q as [|[d js] q IH]; simpl.
    + repeat constructor. discriminate.
    + inversion Hne as [|? ? Hjs Hq]; subst.
      destruct (String.eqb d device).
      * constructor; [|assumption]. simpl. destruct js; discriminate.
      * constructor; [assumption | now apply IH].
Qed.

Lemma enqueue_ok device new q : queue_ok q -> queue_ok (enqueue device new q).
Proof.
  revert q. induction new as [|j new IH]; intros q Hq; [exact Hq|].
  unfold enqueue in *. simpl. apply IH. now apply queue_append_ok.
Qed.

Lemma keys_enqueue device new q :
  map fst (enqueue device new q) =
  if (dict_mem device q || match new with [] => true | _ => false end)%bool
  then map fst q else map fst q ++ [device].
Proof.
  revert q. induction new as [|j new IH]; intros q.
  - simpl. now rewrite orb_true_r.
  - unfold enqueue in *. simpl. rewrite IH, keys_queue_append. rewrite orb_false_r.
    unfold dict_mem.
    destruct (dict_get device q) as [js|] eqn:Hd.
    + destruct (dict_get device (queue_append device j q)) eqn:Hd'.
      * reflexivity.
      * pose proof (queued_queue_append_eq device j q) as Hq. unfold queued in Hq.
        rewrite Hd', Hd in Hq. simpl in Hq. destruct js; discriminate.
    + destruct (dict_get device (queue_append device j q)) eqn:Hd'.
      * reflexivity.
      * pose proof (queued_queue_append_eq device j q) as Hq. unfold queued in Hq.
        rewrite Hd', Hd in Hq. discriminate.
Qed.

(** X4. [compile] keeps the queue a dict in insertion order: the devices
    stay distinct and none is left with an empty list; the devices queued
    before keep their order, and the device of the call is added after
    them when it is new and a job was appended. *)
Theorem compile_keeps_queue_shape names device shots max_credits basis_gates coupling_map seed st :
  queue_ok (to_execute st) ->
  let q' := to_execute (snd (compile names device shots max_credits basis_gates
                               coupling_map seed st)) in
  queue_ok q' /\
  (map fst q' = map fst (to_execute st) \/
   (map fst q' = map fst (to_execute st) ++ [device] /\
    ~ In device (map fst (to_execute st)) /\
    known_prefix (circuits st) names <> [])).
Proof.
  intros Hok. cbv zeta.
  destruct (compile_effect names device shots max_credits basis_gates coupling_map
              seed st) as (new & Hq & Hlen & _).
  cbv zeta in *. rewrite Hq. split; [now apply enqueue_ok|].
  rewrite keys_enqueue. unfold dict_mem.
  destruct (dict_get device (to_execute st)) eqn:Hd; simpl; [now left|].
  destruct new as [|j new]; [now left|]. right. split; [reflexivity|]. split.
  - now apply dict_get_None_keys.
  - intros H. rewrite H in Hlen. discriminate.
Qed.

(** ** Further properties of the job poller *)

(** The payload that the [k]-th status query for a job answers with, the
    first query being number [0]. *)
Definition answer (jobid : string) (k : nat) (a : Api) : job_payload :=
  fst (api_get_job (polled jobid k a) jobid).

Lemma answer_shift jobid k a :
  answer jobid k (snd (api_get_job a jobid)) = answer jobid (S k) a.
Proof. unfold answer. now rewrite polled_shift. Qed.

Lemma slept_state_shift jobid wait n (st : state) :
  set_api (polled jobid n (snd (api_get_job (api st) jobid)))
    (set_slept (slept (set_api (snd (api_get_job (api st) jobid))
                         (set_slept (slept st ++ [wait]) st))
                ++ repeat wait n)
       (set_api (snd (api_get_job (api st) jobid))
          (set_slept (slept st ++ [wait]) st)))
  = set_api (polled jobid (S n) (api st))
      (set_slept (slept st ++ repeat wait (S n)) st).
Proof.
  rewrite polled_shift. unfold set_api, set_slept. simpl.
  now rewrite <- app_assoc.
Qed.

Lemma sleep_ok wait (st : state) :
  0 <= wait -> sleep wait st = (Return tt, set_slept (slept st ++ [wait]) st).
Proof. intros H. unfold sleep. destruct (Z.ltb_spec wait 0); [lia | reflexivity]. Qed.

Lemma sleep_refused wait (st : state) :
  wait < 0 -> sleep wait st = (Raise ValueError, st).
Proof. intros H. unfold sleep. destruct (Z.ltb_spec wait 0); [reflexivity | lia]. Qed.

(** What the loop has returned or raised. *)
Definition ended (wait : Z) (o : outcome reply) : Prop :=
  match o with
  | Return (Msg s _) => s = "Error"
  | Return (RawJob p) => jp_status p <> "RUNNING"
  | Raise e => e = ValueError /\ wait < 0
  end.

(** However the loop ends, it has slept [wait] seconds a number of times
    and queried the status once after each sleep; the only exception that
    leaves it is that of a sleep of negative length. *)
Lemma wait_loop_effect jobid wait timeout :
  forall fuel timer job st o st',
    wait_loop fuel jobid wait timeout timer job st = Some (o, st') ->
    exists n,
      (n <= fuel)%nat /\
      st' = set_api (polled jobid n (api st))
              (set_slept (slept st ++ repeat wait n) st) /\
      ended wait o.
Proof.
  induction fuel as [|fuel IH]; intros timer job st o st'; simpl.
  - destruct (String.eqb_spec (jp_status job) "RUNNING") as [Hr|Hr].
    + destruct (timer =? timeout); [|discriminate].
      intros [= <- <-]. exists 0%nat. unfold polled. simpl Nat.iter. simpl repeat.
      now rewrite state_eta.
    + intros [= <- <-]. exists 0%nat. unfold polled. simpl Nat.iter. simpl repeat.
      now rewrite state_eta.
  - destruct (String.eqb_spec (jp_status job) "RUNNING") as [Hr|Hr].
    + destruct (timer =? timeout).
      * intros [= <- <-]. exists 0%nat. unfold polled. simpl Nat.iter. simpl repeat.
        rewrite state_eta. repeat split. lia.
      * unfold sleep. destruct (Z.ltb_spec wait 0) as [Hneg|Hpos].
        { intros [= <- <-]. exists 0%nat. unfold polled. simpl Nat.iter.
          simpl repeat. rewrite state_eta. repeat split; [lia | assumption]. }
        unfold get_job. simpl.
        destruct (api_get_job (api st) jobid) as [job' a] eqn:Hget.
        replace a with (snd (api_get_job (api st) jobid)) by now rewrite Hget.
        destruct (is_error_status (jp_status job')).
        -- intros [= <- <-]. exists 1%nat. split; [lia|]. split; [|reflexivity].
           rewrite <- (slept_state_shift jobid wait 0 st). unfold polled.
           simpl Nat.iter. simpl repeat.
           symmetry. apply state_eta.
        -- intros Hloop. apply IH in Hloop as (n & Hn & -> & Hrep).
           exists (S n). split; [lia|]. split; [|exact Hrep].
           apply slept_state_shift.
    + intros [= <- <-]. exists 0%nat. unfold polled. simpl Nat.iter. simpl repeat.
      rewrite state_eta. repeat split; [lia | assumption].
Qed.

(** X5. When the poller returns, it has made one status query, then slept
    [wait] seconds before each further query, and changed nothing else of
    the program; what it returns is an error dict or a payload that is not
    [RUNNING]. *)
Theorem wait_for_job_effect fuel jobid wait timeout st r st' :
  wait_for_job fuel jobid wait timeout st = Some (Return r, st') ->
  exists n,
    (n <= fuel)%nat /\
    slept st' = slept st ++ repeat wait n /\
    api st' = polled jobid (S n) (api st) /\
    circuits st' = circuits st /\ to_execute st' = to_execute st /\
    last_device_backend st' = last_device_backend st /\ draws st' = draws st /\
    match r with
    | Msg s _ => s = "Error"
    | RawJob p => jp_status p <> "RUNNING"
    end.
Proof.
  unfold wait_for_job, get_job.
  destruct (api_get_job (api st) jobid) as [job a] eqn:Hget.
  intros Hloop. apply wait_loop_effect in Hloop as (n & Hn & -> & Hr).
  exists n. simpl.
  replace a with (snd (api_get_job (api st) jobid)) by now rewrite Hget.
  rewrite polled_shift. repeat split; assumption.
Qed.

Lemma wait_loop_finishes jobid wait timeout :
  0 <= wait ->
  forall m fuel timer job st,
    jp_status job = "RUNNING" ->
    (forall i, (i < m)%nat -> jp_status (answer jobid i (api st)) = "RUNNING") ->
    jp_status (answer jobid m (api st)) <> "RUNNING" ->
    (forall i, (i <= m)%nat -> timer + Z.of_nat i * wait <> timeout) ->
    (S m <= fuel)%nat ->
    wait_loop fuel jobid wait timeout timer job st =
      Some (Return (if is_error_status (jp_status (answer jobid m (api st)))
                    then Msg "Error" (jp_status (answer jobid m (api st)))
                    else RawJob (answer jobid m (api st))),
            set_api (polled jobid (S m) (api st))
              (set_slept (slept st ++ repeat wait (S m)) st)).
Proof.
  intros Hwait.
  induction m as [|m IH]; intros fuel timer job st Hrun Hbefore Hlast Htimer Hfuel;
    (destruct fuel as [|fuel]; [lia|]); simpl; rewrite Hrun; simpl;
    rewrite (sleep_ok wait st Hwait).
  - pose proof (Htimer 0%nat (Nat.le_refl _)) as H0. simpl in H0.
    rewrite Z.add_0_r in H0. destruct (Z.eqb_spec timer timeout); [contradiction|].
    unfold get_job. simpl. unfold answer, polled in Hlast |- *. simpl in Hlast |- *.
    destruct (api_get_job (api st) jobid) as [job' a] eqn:Hget. simpl in *.
    destruct (is_error_status (jp_status job')).
    + reflexivity.
    + rewrite wait_loop_not_running by assumption. reflexivity.
  - pose proof (Htimer 0%nat (Nat.le_0_l _)) as H0. simpl in H0.
    rewrite Z.add_0_r in H0. destruct (Z.eqb_spec timer timeout); [contradiction|].
    unfold get_job. simpl.
    pose proof (Hbefore 0%nat (Nat.lt_0_succ _)) as Hfirst.
    unfold answer, polled in Hfirst. simpl in Hfirst.
    destruct (api_get_job (api st) jobid) as [job' a] eqn:Hget. simpl in Hfirst.
    rewrite Hfirst. simpl.
    assert (Ha : a = snd (api_get_job (api st) jobid)) by now rewrite Hget.
    rewrite (IH fuel (timer + wait) job' (set_api a (set_slept (slept st ++ [wait]) st)));
      change (api (set_api a (set_slept (slept st ++ [wait]) st))) with a.
    + subst a. rewrite !answer_shift. f_equal. f_equal.
      exact (slept_state_shift jobid wait (S m) st).
    + exact Hfirst.
    + intros i Hi. subst a. rewrite answer_shift. apply Hbefore. lia.
    + subst a. now rewrite answer_shift.
    + intros i Hi. specialize (Htimer (S i)). rewrite Nat2Z.inj_succ in Htimer.
      intros Heq. apply Htimer; [lia|]. lia.
    + lia.
Qed.

(** X6. A job that answers [RUNNING] to the first [n] queries and something
    else to the next one is waited for with exactly [n] sleeps, provided
    that none of the times [0, wait, ..., (n-1) * wait] is the timeout and
    that, where there is a sleep at all, the wait is not negative. The
    poller returns the last payload as it is, except that an error status
    seen after at least one sleep is turned into an error dict. *)
Theorem wait_for_job_finishes fuel jobid wait timeout n st :
  (forall i, (i < n)%nat -> jp_status (answer jobid i (api st)) = "RUNNING") ->
  jp_status (answer jobid n (api st)) <> "RUNNING" ->
  (forall i, (i < n)%nat -> Z.of_nat i * wait <> timeout) ->
  ((0 < n)%nat -> 0 <= wait) ->
  (n <= fuel)%nat ->
  wait_for_job fuel jobid wait timeout st =
    Some (Return (if (negb (Nat.eqb n 0) &&
                      is_error_status (jp_status (answer jobid n (api st))))%bool
                  then Msg "Error" (jp_status (answer jobid n (api st)))
                  else RawJob (answer jobid n (api st))),
          set_api (polled jobid (S n) (api st))
            (set_slept (slept st ++ repeat wait n) st)).
Proof.
  intros Hbefore Hlast Htimer Hwait Hfuel. destruct n as [|m].
  - rewrite wait_for_job_first_query by exact Hlast. simpl.
    unfold answer, polled. simpl. f_equal. f_equal.
    unfold set_api, set_slept. simpl. now rewrite app_nil_r.
  - unfold wait_for_job, get_job.
    pose proof (Hbefore 0%nat (Nat.lt_0_succ _)) as Hfirst.
    unfold answer, polled in Hfirst. simpl in Hfirst.
    destruct (api_get_job (api st) jobid) as [job a] eqn:Hget. simpl in Hfirst.
    assert (Ha : a = snd (api_get_job (api st) jobid)) by now rewrite Hget.
    rewrite (wait_loop_finishes jobid wait timeout (Hwait (Nat.lt_0_succ _)) m);
      change (api (set_api a st)) with a.
    + subst a. rewrite !answer_shift. f_equal. f_equal.
      rewrite polled_shift. unfold set_api, set_slept. simpl. reflexivity.
    + exact Hfirst.
    + intros i Hi. subst a. rewrite answer_shift. apply Hbefore. lia.
    + subst a. now rewrite answer_shift.
    + intros i Hi. rewrite Z.add_0_l. apply Htimer. lia.
    + lia.
Qed.

Lemma wait_loop_never_returns jobid wait timeout :
  (forall k : nat, Z.of_nat k * wait <> timeout) ->
  0 <= wait ->
  forall fuel k job st,
    jp_status job = "RUNNING" ->
    stays_running jobid (api st) ->
    wait_loop fuel jobid wait timeout (Z.of_nat k * wait) job st = None.
Proof.
  intros Hnever Hwait.
  induction fuel as [|fuel IH]; intros k job st Hrun Hstay; simpl;
    rewrite Hrun; simpl;
    (destruct (Z.eqb_spec (Z.of_nat k * wait) timeout) as [Heq|_];
     [now apply Hnever in Heq|]); [reflexivity|].
  rewrite (sleep_ok wait st Hwait).
  unfold get_job. simpl.
  pose proof (Hstay 0%nat) as H0. unfold polled in H0. simpl in H0.
  destruct (api_get_job (api st) jobid) as [job' a] eqn:Hget. simpl in H0.
  rewrite H0. simpl.
  replace (Z.of_nat k * wait + wait) with (Z.of_nat (S k) * wait) by lia.
  apply IH; [exact H0|]. simpl.
  replace a with (snd (api_get_job (api st) jobid)) by now rewrite Hget.
  now apply stays_running_next.
Qed.

(** A sleep of negative length ends the poller at the first pass of the
    loop: the status was queried once and nothing was slept. *)
Lemma wait_for_job_refused fuel jobid wait timeout st :
  wait < 0 -> timeout <> 0 ->
  jp_status (fst (api_get_job (api st) jobid)) = "RUNNING" ->
  wait_for_job (S fuel) jobid wait timeout st =
    Some (Raise ValueError, set_api (snd (api_get_job (api st) jobid)) st).
Proof.
  intros Hwait Htimeout Hrun. unfold wait_for_job, get_job.
  destruct (api_get_job (api st) jobid) as [job a]. cbn [fst snd] in *.
  cbn [wait_loop]. rewrite Hrun. rewrite String.eqb_refl.
  destruct (Z.eqb_spec 0 timeout) as [Heq|_]; [now symmetry in Heq|].
  now rewrite sleep_refused.
Qed.

(** X7. When no multiple of [wait] equals the timeout (the wait does not
    divide it, the timeout is negative, or the wait is zero and the timeout
    is not), the poller never gives up on a job that stays [RUNNING]: the
    time slept steps over the timeout and, whatever the number of
    iterations allowed, no result is returned. With a wait that is not
    negative the loop goes on for ever; with a negative wait the first
    sleep raises [ValueError]. *)
Theorem wait_for_job_steps_over_timeout fuel jobid wait timeout st :
  (forall k : nat, Z.of_nat k * wait <> timeout) ->
  stays_running jobid (api st) ->
  (forall r st', wait_for_job fuel jobid wait timeout st <> Some (Return r, st')) /\
  (0 <= wait -> wait_for_job fuel jobid wait timeout st = None) /\
  (wait < 0 ->
   wait_for_job (S fuel) jobid wait timeout st =
     Some (Raise ValueError, set_api (snd (api_get_job (api st) jobid)) st)).
Proof.
  intros Hnever Hstay.
  pose proof (Hstay 0%nat) as H0. unfold polled in H0. simpl in H0.
  assert (Hloops : 0 <= wait -> wait_for_job fuel jobid wait timeout st = None).
  { intros Hwait. unfold wait_for_job, get_job.
    destruct (api_get_job (api st) jobid) as [job a] eqn:Hget. simpl in H0.
    change 0 with (Z.of_nat 0 * wait).
    apply wait_loop_never_returns; [assumption | assumption | assumption |]. simpl.
    replace a with (snd (api_get_job (api st) jobid)) by now rewrite Hget.
    now apply stays_running_next. }
  assert (Hraises : wait < 0 ->
            wait_for_job (S fuel) jobid wait timeout st =
              Some (Raise ValueError, set_api (snd (api_get_job (api st) jobid)) st)).
  { intros Hwait. apply wait_for_job_refused; [assumption | | assumption].
    intros ->. now apply (Hnever 0%nat). }
  split; [|split; assumption].
  intros r st' Hret. destruct (Z.lt_ge_cases wait 0) as [Hneg|Hpos].
  - destruct fuel as [|fuel'].
    + unfold wait_for_job, get_job in Hret.
      destruct (api_get_job (api st) jobid) as [job a]. cbn [fst snd] in H0.
      cbn [wait_loop] in Hret. rewrite H0, String.eqb_refl in Hret.
      destruct (Z.eqb_spec 0 timeout) as [Heq|_]; [|discriminate].
      now apply (Hnever 0%nat).
    + rewrite wait_for_job_refused in Hret; try assumption; [discriminate|].
      intros ->. now apply (Hnever 0%nat).
  - rewrite (Hloops Hpos) in Hret. discriminate.
Qed.

(** ** Further properties of the dispatcher *)

(** What a piece of [run] leaves alone: the catalog, the queue, the last
    device. *)
Definition same_program (st st' : state) : Prop :=
  circuits st' = circuits st /\ to_execute st' = to_execute st /\
  last_device_backend st' = last_device_backend st.

Lemma same_program_refl st : same_program st st.
Proof. repeat split. Qed.

Lemma wait_for_job_frame fuel jobid wait timeout st o st' :
  wait_for_job fuel jobid wait timeout st = Some (o, st') -> same_program st st'.
Proof.
  unfold wait_for_job, get_job.
  destruct (api_get_job (api st) jobid) as [job a].
  intros Hloop. apply wait_loop_effect in Hloop as (n & _ & -> & _).
  repeat split.
Qed.

Lemma run_online_frame fuel wait timeout backend js st :
  match run_online fuel wait timeout backend js st with
  | Continue _ st' => same_program st st'
  | Returned r _ => reply_status r = "Error"
  | Raised _ st' => same_program st st'
  | Diverged => True
  end.
Proof.
  unfold run_online.
  destruct (batch_check js (-1) (-1) []) as [msg|[[jobs ls] lc]]; [reflexivity|].
  destruct (api_run_job (api st) jobs backend ls lc) as [[err|id] a]; [reflexivity|].
  destruct (wait_for_job fuel id wait timeout (set_api a st)) as [[[jr|e] st2]|] eqn:Hw;
    [| |exact I].
  - destruct (String.eqb_spec (reply_status jr) "Error") as [He|_]; [exact He|].
    apply wait_for_job_frame in Hw. exact Hw.
  - apply wait_for_job_frame in Hw. exact Hw.
Qed.

Lemma run_local_frame backend js st :
  match run_local backend js st with
  | Continue qasms st' => same_program st st' /\ length qasms = length js
  | Returned r _ => reply_status r = "Error"
  | Raised _ st' => same_program st st'
  | Diverged => False
  end.
Proof.
  unfold run_local. destruct (String.eqb backend "local_qasm_simulator").
  - destruct (run_local_qasm_simulator _ _) as [[qasms|e] n] eqn:Hr;
      [|repeat split].
    split; [repeat split|].
    unfold run_local_qasm_simulator in Hr.
    assert (Hlen : forall jobs n acc rs n',
               qasm_jobs jobs n acc = (Return rs, n') ->
               length rs = (length acc + length jobs)%nat).
    { clear. induction jobs as [|j jobs IH]; intros n acc rs n'; simpl.
      - intros [= <- _]. lia.
      - destruct (qasm_job j n) as [[r|e] n1]; [|discriminate].
        intros H. apply IH in H. rewrite H, length_app. simpl. lia. }
    apply Hlen in Hr. rewrite Hr, length_map. reflexivity.
  - destruct (String.eqb backend "local_unitary_simulator"); [|reflexivity].
    destruct (run_local_unitary_simulator _) as [qasms|e] eqn:Hr;
      [|repeat split].
    split; [repeat split|].
    unfold run_local_unitary_simulator in Hr.
    assert (Hlen : forall jobs acc rs,
               unitary_jobs jobs acc = Return rs ->
               length rs = (length acc + length jobs)%nat).
    { clear. induction jobs as [|j jobs IH]; intros acc rs; simpl.
      - intros [= <-]. lia.
      - destruct (unitary_job j) as [r|e]; [|discriminate].
        intros H. apply IH in H. rewrite H, length_app. simpl. lia. }
    apply Hlen in Hr. rewrite Hr, length_map. reflexivity.
Qed.

Lemma dispatch_frame fuel wait timeout backend js st :
  match dispatch fuel wait timeout backend js st with
  | Continue qasms st' => same_program st st' /\ length qasms = length js
  | Returned r _ => reply_status r = "Error"
  | Raised _ st' => same_program st st'
  | Diverged => True
  end.
Proof.
  unfold dispatch. destruct (str_in backend online_devices).
  - pose proof (run_online_frame fuel wait timeout backend js st) as H.
    destruct (run_online fuel wait timeout backend js st) as [jr st1|r st1|e st1|];
      simpl; try assumption.
    destruct (reply_qasms jr) as [qasms|]; simpl; [|assumption].
    destruct (Nat.eqb_spec (length js) (length qasms)); simpl; [|assumption].
    split; [assumption | congruence].
  - pose proof (run_local_frame backend js st) as H.
    destruct (run_local backend js st) as [qasms st1|r st1|e st1|];
      simpl; try assumption; [|contradiction].
    destruct H as [H Hlen]. rewrite Hlen, Nat.eqb_refl. simpl. now split.
Qed.

(** A record of a circuit on a device. *)
Definition has_record (name backend : string) (st : state) : Prop :=
  exists r, execution_of name backend st = Return r.

Lemma has_record_same_circuits name backend st st' :
  circuits st' = circuits st -> has_record name backend st -> has_record name backend st'.
Proof. intros H [r Hr]. exists r. unfold execution_of in *. now rewrite H. Qed.

Lemma execution_of_stored name backend j q e ex st :
  execution_of name backend
    (set_circuits (<[name := {| circuit := circuit e;
                                execution := Some (<[backend := record_of j q]> ex) |}]>
                     (circuits st)) st)
  = Return (record_of j q).
Proof.
  unfold execution_of. simpl. rewrite lookup_insert_eq. simpl.
  now rewrite lookup_insert_eq.
Qed.

Lemma has_record_stored name backend name' backend' j q e ex st :
  circuits st !! name = Some e -> execution e = Some ex ->
  has_record name' backend' st ->
  has_record name' backend'
    (set_circuits (<[name := {| circuit := circuit e;
                                execution := Some (<[backend := record_of j q]> ex) |}]>
                     (circuits st)) st).
Proof.
  intros He Hex [r Hr]. unfold has_record, execution_of in *. simpl.
  destruct (decide (name = name')) as [<-|Hn].
  - rewrite lookup_insert_eq. simpl. rewrite He, Hex in Hr.
    destruct (decide (backend = backend')) as [<-|Hb].
    + rewrite lookup_insert_eq. eauto.
    + rewrite lookup_insert_ne by assumption. eauto.
  - rewrite lookup_insert_ne by assumption. eauto.
Qed.

(** The loop that stores the results leaves the queue and the last device
    alone; when it goes through, every job has a record, and no record
    that was there is lost. *)
Lemma store_results_frame backend js qasms :
  forall index st,
    match store_results backend js qasms index st with
    | Continue _ st' =>
        to_execute st' = to_execute st /\
        last_device_backend st' = last_device_backend st /\
        (forall j, In j js -> has_record (job_name j) backend st') /\
        (forall name d, has_record name d st -> has_record name d st')
    | Returned r _ => reply_status r = "Error"
    | Raised _ st' =>
        to_execute st' = to_execute st /\
        last_device_backend st' = last_device_backend st
    | Diverged => False
    end.
Proof.
  induction js as [|j js IH]; intros index st; simpl.
  - repeat split; [intros j [] | auto].
  - destruct (circuits st !! job_name j) as [e|] eqn:He; [|reflexivity].
    destruct (execution e) as [ex|] eqn:Hex; [|now split].
    destruct (qasms !! index) as [q|]; [|now split].
    specialize (IH (S index)
                  (set_circuits
                     (<[job_name j := {| circuit := circuit e;
                                         execution := Some (<[backend := record_of j q]> ex) |}]>
                        (circuits st)) st)).
    destruct (store_results backend js qasms (S index) _) as [[] st'|r st'|e' st'|];
      try assumption.
    destruct IH as (Hq & Hl & Hjs & Hkeep). repeat split; try assumption.
    + intros j' [<-|Hin]; [|now apply Hjs].
      apply Hkeep. eexists. apply execution_of_stored.
    + intros name d Hr. apply Hkeep. now apply has_record_stored.
Qed.

Lemma last_cons_default {A} (l : list A) x d :
  List.last (x :: l) d = List.last l x.
Proof.
  revert x d. induction l as [|y l IH]; intros x d; [reflexivity|].
  change (List.last (x :: y :: l) d) with (List.last (y :: l) d).
  now rewrite (IH y d), (IH y x).
Qed.

(** The loop over the devices: the queue is read, not changed, until a
    [return]; an error [return] carries the status [Error]. *)
Lemma run_backends_frame fuel wait timeout q :
  forall st,
    match run_backends fuel wait timeout q st with
    | Continue _ st' =>
        to_execute st' = to_execute st /\
        last_device_backend st' = List.last (map fst q) (last_device_backend st) /\
        (forall backend js j, In (backend, js) q -> In j js ->
           has_record (job_name j) backend st') /\
        (forall name d, has_record name d st -> has_record name d st')
    | Returned r _ => reply_status r = "Error"
    | Raised _ st' => to_execute st' = to_execute st
    | Diverged => True
    end.
Proof.
  induction q as [|[backend js] q IH]; intros st.
  - simpl. repeat split; [intros ? ? ? [] | auto].
  - cbn [run_backends].
    pose proof (dispatch_frame fuel wait timeout backend js
                  (set_last_device_backend backend st)) as Hd.
    destruct (dispatch fuel wait timeout backend js _) as [qasms st1|r st1|e st1|];
      cbn [and_then]; try assumption; [|apply Hd].
    destruct Hd as [(Hc1 & Hq1 & Hl1) _]. simpl in Hc1, Hq1, Hl1.
    pose proof (store_results_frame backend js qasms 0 st1) as Hs.
    destruct (store_results backend js qasms 0 st1) as [[] st2|r st2|e st2|];
      cbn [and_then]; try assumption; try contradiction;
      [|destruct Hs as [Hs _]; congruence].
    destruct Hs as (Hq2 & Hl2 & Hjs & Hkeep).
    specialize (IH st2).
    destruct (run_backends fuel wait timeout q st2) as [[] st3|r st3|e st3|];
      try assumption; [|congruence].
    destruct IH as (Hq3 & Hl3 & Hjs3 & Hkeep3).
    split; [congruence|]. split; [|split].
    + rewrite Hl3, Hl2, Hl1. cbn [map fst]. now rewrite last_cons_default.
    + intros b js' j [[= <- <-]|Hin] Hj.
      * now apply Hkeep3, Hjs.
      * now apply (Hjs3 b js').
    + intros name d Hr. apply Hkeep3, Hkeep.
      eapply has_record_same_circuits; eassumption.
Qed.

(** X8. An exception leaves [run] with the queue as it was: only the
    [return]s clear it, so the jobs are still queued for the next [run]. *)
Theorem run_raise_keeps_queue fuel wait timeout st e st' :
  run fuel wait timeout st = Raised e st' -> to_execute st' = to_execute st.
Proof.
  unfold run. pose proof (run_backends_frame fuel wait timeout (to_execute st) st) as H.
  destruct (run_backends fuel wait timeout (to_execute st) st) as [[] s|r s|e' s|];
    simpl; try discriminate.
  now intros [= _ <-].
Qed.

(** X9. [run] returns the dict [COMPLETED / all done] or a value whose
    status is [Error]. After the former every job that was queued has a
    record under its circuit and device, the records that were there
    before are still there, the last device is the last device of the
    queue and the queue is empty. *)
Theorem run_completed_records fuel wait timeout st r st' :
  run fuel wait timeout st = Returned r st' ->
  (r = Msg "COMPLETED" "all done" /\
   (forall backend js j, In (backend, js) (to_execute st) -> In j js ->
      exists rec, execution_of (job_name j) backend st' = Return rec) /\
   (forall name d, has_record name d st -> has_record name d st') /\
   last_device_backend st' =
     List.last (map fst (to_execute st)) (last_device_backend st) /\
   to_execute st' = []) \/
  reply_status r = "Error".
Proof.
  unfold run. pose proof (run_backends_frame fuel wait timeout (to_execute st) st) as H.
  destruct (run_backends fuel wait timeout (to_execute st) st) as [[] s|r' s|e' s|];
    simpl; try discriminate.
  - intros [= <- <-]. left. destruct H as (_ & Hl & Hjs & Hkeep).
    split; [reflexivity|]. split; [exact Hjs|]. split; [|split].
    + intros name d Hr. apply Hkeep in Hr.
      eapply has_record_same_circuits; [|exact Hr]. reflexivity.
    + exact Hl.
    + reflexivity.
  - intros [= <- <-]. now right.
Qed.

(** X10. Storing the results needs the ["execution"] key: when the device
    at the head of the queue is dispatched and the entry of its first job
    has no such key, as every entry that [add_circuit] makes, [run] raises
    [KeyError] for it, and the queue keeps its jobs. *)
Theorem run_raises_without_execution fuel wait timeout backend j js q qasms st st1 e :
  to_execute st = (backend, j :: js) :: q ->
  dispatch fuel wait timeout backend (j :: js) (set_last_device_backend backend st)
    = Continue qasms st1 ->
  circuits st !! job_name j = Some e -> execution e = None ->
  run fuel wait timeout st = Raised (KeyError "execution") st1 /\
  to_execute st1 = to_execute st.
Proof.
  intros Hq Hd He Hex.
  pose proof (dispatch_frame fuel wait timeout backend (j :: js)
                (set_last_device_backend backend st)) as Hf.
  rewrite Hd in Hf. destruct Hf as [(Hc & Hq1 & _) _]. simpl in Hc, Hq1.
  split; [|assumption].
  unfold run. rewrite Hq. cbn [run_backends]. rewrite Hd. cbn [and_then store_results].
  now rewrite Hc, He, Hex.
Qed.

(** *** Storing the results *)

Lemma store_results_other_names backend js qasms name :
  forall index st st',
    store_results backend js qasms index st = Continue tt st' ->
    Forall (fun j => job_name j <> name) js ->
    circuits st' !! name = circuits st !! name.
Proof.
  induction js as [|j js IH]; intros index st st'; simpl.
  - now intros [= <-].
  - destruct (circuits st !! job_name j) as [e|]; [|discriminate].
    destruct (execution e) as [ex|]; [|discriminate].
    destruct (qasms !! index) as [q|]; [|discriminate].
    intros Hs Hall. inversion Hall as [|? ? Hj Hjs]; subst.
    rewrite (IH _ _ _ Hs Hjs). simpl. now rewrite lookup_insert_ne.
Qed.

Lemma store_results_other_devices backend js qasms name d :
  d <> backend ->
  forall index st st',
    store_results backend js qasms index st = Continue tt st' ->
    execution_of name d st' = execution_of name d st.
Proof.
  intros Hd. induction js as [|j js IH]; intros index st st'; simpl.
  - now intros [= <-].
  - destruct (circuits st !! job_name j) as [e|] eqn:He; [|discriminate].
    destruct (execution e) as [ex|] eqn:Hex; [|discriminate].
    destruct (qasms !! index) as [q|]; [|discriminate].
    intros Hs. rewrite (IH _ _ _ Hs). unfold execution_of. simpl.
    destruct (decide (job_name j = name)) as [<-|Hn].
    + rewrite lookup_insert_eq, He. simpl. rewrite Hex.
      now rewrite lookup_insert_ne by congruence.
    + now rewrite lookup_insert_ne.
Qed.

(** X11. When the results of a device are stored, the record of a circuit
    is made of the last job of that circuit in the batch and of the result
    at the same position: a later job of the same name overwrites an
    earlier one. The records of the other devices are not touched. *)
Theorem store_results_last_wins backend js qasms index st st' :
  store_results backend js qasms index st = Continue tt st' ->
  (forall i j q,
     js !! i = Some j -> qasms !! (index + i)%nat = Some q ->
     (forall i' j', (i < i')%nat -> js !! i' = Some j' -> job_name j' <> job_name j) ->
     execution_of (job_name j) backend st' = Return (record_of j q)) /\
  (forall name d, d <> backend ->
     execution_of name d st' = execution_of name d st).
Proof.
  intros Hs. split; [|intros name d Hd; eapply store_results_other_devices; eassumption].
  revert index st st' Hs.
  induction js as [|j0 js IH]; intros index st st' Hs i j q Hj Hq Hlater.
  - discriminate.
  - simpl in Hs.
    destruct (circuits st !! job_name j0) as [e|] eqn:He; [|discriminate].
    destruct (execution e) as [ex|] eqn:Hex; [|discriminate].
    destruct (qasms !! index) as [q0|] eqn:Hq0; [|discriminate].
    destruct i as [|i].
    + simpl in Hj. injection Hj as ->. rewrite Nat.add_0_r in Hq.
      rewrite Hq0 in Hq. injection Hq as ->.
      unfold execution_of.
      rewrite (store_results_other_names _ _ _ (job_name j) _ _ _ Hs).
      * simpl. rewrite lookup_insert_eq. simpl. now rewrite lookup_insert_eq.
      * apply Forall_lookup. intros i' j' Hj'.
        apply (Hlater (S i') j'); [lia | exact Hj'].
    + simpl in Hj. apply (IH _ _ _ Hs i j q Hj).
      * now replace (S index + i)%nat with (index + S i)%nat by lia.
      * intros i' j' Hi' Hj'. apply (Hlater (S i') j'); [lia | exact Hj'].
Qed.

(** ** Further properties of the local engines *)

Lemma qasm_jobs_length jobs :
  forall n acc rs n',
    qasm_jobs jobs n acc = (Return rs, n') ->
    length rs = (length acc + length jobs)%nat.
Proof.
  induction jobs as [|j jobs IH]; intros n acc rs n'; simpl.
  - intros [= <- _]. lia.
  - destruct (qasm_job j n) as [[r|e] n1]; [|discriminate].
    intros H. apply IH in H. rewrite H, length_app. simpl. lia.
Qed.

Lemma unitary_jobs_length jobs :
  forall acc rs,
    unitary_jobs jobs acc = Return rs ->
    length rs = (length acc + length jobs)%nat.
Proof.
  induction jobs as [|j jobs IH]; intros acc rs; simpl.
  - intros [= <-]. lia.
  - destruct (unitary_job j) as [r|e]; [|discriminate].
    intros H. apply IH in H. rewrite H, length_app. simpl. lia.
Qed.

(** X12. What a local engine wrapper returns has one entry per job, and
    every entry is [COMPLETED]: the assertion of [run] on the number of
    results cannot fail on the local path, and no entry is ever [FAIL]. *)
Theorem local_results_are_complete jobs :
  (forall n rs n',
     run_local_qasm_simulator jobs n = (Return rs, n') ->
     length rs = length jobs /\ Forall (fun r => r_status r = "COMPLETED") rs) /\
  (forall rs,
     run_local_unitary_simulator jobs = Return rs ->
     length rs = length jobs /\ Forall (fun r => r_status r = "COMPLETED") rs).
Proof.
  split.
  - intros n rs n' H. split.
    + now apply qasm_jobs_length in H.
    + eapply qasm_jobs_completed; [|exact H]. constructor.
  - intros rs H. split.
    + now apply unitary_jobs_length in H.
    + eapply unitary_jobs_completed; [|exact H]. constructor.
Qed.

Definition completed (v : value) : one_result :=
  {| r_result := v; r_status := "COMPLETED" |}.

Lemma unitary_jobs_all jobs us :
  Forall2 (fun j u => UnitarySimulator_run (sj_compiled_circuit j) = Return u) jobs us ->
  forall acc, unitary_jobs jobs acc = Return (acc ++ map completed us).
Proof.
  induction 1 as [|j u jobs us Hj _ IH]; intros acc; simpl.
  - now rewrite app_nil_r.
  - unfold unitary_job. rewrite Hj, IH, <- app_assoc. reflexivity.
Qed.

(** X13. The unitary engine wrapper returns the engine's results of the
    jobs, in order, when the engine succeeds on every job; when it raises
    on a job after succeeding on the jobs before it, the wrapper raises
    the same exception and returns nothing of the jobs before. *)
Theorem unitary_batch jobs us :
  Forall2 (fun j u => UnitarySimulator_run (sj_compiled_circuit j) = Return u) jobs us ->
  run_local_unitary_simulator jobs = Return (map completed us) /\
  (forall j e rest,
     UnitarySimulator_run (sj_compiled_circuit j) = Raise e ->
     run_local_unitary_simulator (jobs ++ j :: rest) = Raise e).
Proof.
  intros Hall. split.
  - unfold run_local_unitary_simulator. now rewrite (unitary_jobs_all jobs us Hall).
  - intros j e rest He. unfold run_local_unitary_simulator.
    assert (Happ : forall acc,
               unitary_jobs (jobs ++ j :: rest) acc = Raise e).
    { induction Hall as [|j0 u jobs us Hj _ IH]; intros acc; simpl.
      - unfold unitary_job. now rewrite He.
      - unfold unitary_job at 1. rewrite Hj. apply IH. }
    apply Happ.
Qed.

Lemma qasm_single_shots jobs outs :
  Forall (fun j => sj_shots j = 1) jobs ->
  length outs = length jobs ->
  forall n acc,
    (forall i j b, jobs !! i = Some j -> outs !! i = Some b ->
       QasmSimulator_run (sj_compiled_circuit j) (random_random (n + i)) = Return b) ->
    qasm_jobs jobs n acc =
      (Return (acc ++ map (fun b => completed (so_result b)) outs),
       (n + length jobs)%nat).
Proof.
  intros Hall. revert outs.
  induction Hall as [|j jobs Hj _ IH]; intros [|b outs] Hlen n acc Hrun;
    try discriminate; simpl.
  - now rewrite app_nil_r, Nat.add_0_r.
  - unfold qasm_job. rewrite Hj. simpl.
    rewrite <- (Nat.add_0_r n) at 1. rewrite (Hrun 0%nat j b eq_refl eq_refl).
    rewrite (IH outs).
    + rewrite <- app_assoc. simpl. do 2 f_equal. lia.
    + simpl in Hlen. lia.
    + intros i j' b' Hi Hb. replace (S n + i)%nat with (n + S i)%nat by lia.
      now apply Hrun.
Qed.

(** X14. For a batch of single-shot jobs the sampling engine wrapper makes
    one random draw per job and returns, in order, the measurement records
    of the engine as they are: there is no counts table in them unless the
    engine puts one. *)
Theorem sampling_single_shots jobs outs n :
  Forall (fun j => sj_shots j = 1) jobs ->
  length outs = length jobs ->
  (forall i j b, jobs !! i = Some j -> outs !! i = Some b ->
     QasmSimulator_run (sj_compiled_circuit j) (random_random (n + i)) = Return b) ->
  run_local_qasm_simulator jobs n =
    (Return (map (fun b => completed (so_result b)) outs), (n + length jobs)%nat).
Proof.
  intros Hall Hlen Hrun. unfold run_local_qasm_simulator.
  now rewrite (qasm_single_shots jobs outs Hall Hlen n [] Hrun).
Qed.

(** X15. A job with no shots, or with a negative number of them, runs no
    trial and makes no draw, and is still reported [COMPLETED], with an
    empty counts table. *)
Theorem sampling_without_shots j n :
  sj_shots j <= 0 ->
  qasm_job j n = (Return (completed (counts_value [])), n).
Proof.
  intros H. unfold qasm_job.
  destruct (Z.eqb_spec (sj_shots j) 1) as [|_]; [lia|].
  replace (Z.to_nat (sj_shots j)) with 0%nat by lia. reflexivity.
Qed.

(** ** Further properties of the accessors and of the average *)

Lemma execution_of_raises_key_error name device st e :
  execution_of name device st = Raise e -> exists k, e = KeyError k.
Proof.
  unfold execution_of.
  destruct (circuits st !! name) as [en|]; [|intros [= <-]; eauto].
  destruct (execution en) as [ex|]; [|intros [= <-]; eauto].
  destruct (ex !! device); [discriminate | intros [= <-]; eauto].
Qed.

(** X16. [get_compiled_qasm] always answers with a string, the compiled
    source or its message; [get_counts] never raises [KeyError], and the
    only exception that leaves it is the [TypeError] of subscripting a
    stored result, or its data section, that is not a dict. *)
Theorem counts_and_source_catch_key_errors name device st :
  (exists s, get_compiled_qasm name device st = Return s) /\
  (forall e, get_counts name device st = Raise e -> e = TypeError).
Proof.
  unfold get_compiled_qasm, get_counts. split.
  - destruct (execution_of name (device_or_last device st) st) as [r|e0] eqn:He;
      simpl; [eauto|].
    apply execution_of_raises_key_error in He as [k ->]. eauto.
  - intros e.
    destruct (execution_of name (device_or_last device st) st) as [r|e0] eqn:He; simpl.
    + unfold subscript.
      destruct (ex_result r) as [| | | | |d]; simpl; try (now intros [= <-]).
      destruct (dict_get "data" d) as [[| | | | |d']|]; simpl;
        try (now intros [= <-]); try discriminate.
      destruct (dict_get "counts" d'); discriminate.
    + apply execution_of_raises_key_error in He as [k ->]. discriminate.
Qed.

(** X17. For a name that is not in the catalog, and whenever [get_counts]
    answers with its error dict, [average_data] raises [TypeError]: it
    sums the two strings of the error dict. *)
Theorem average_data_without_counts name observable st :
  (forall msg, get_counts name None st = Return (error_dict msg) ->
     average_data name observable st = Raise TypeError) /\
  (circuits st !! name = None ->
     average_data name observable st = Raise TypeError).
Proof.
  assert (H : forall msg, get_counts name None st = Return (error_dict msg) ->
                average_data name observable st = Raise TypeError).
  { intros msg Hc. unfold average_data. rewrite Hc. reflexivity. }
  split; [exact H|]. intros Hn.
  destruct (accessors_missing_circuit name None st Hn) as (_ & Hc & _).
  now apply (H _ Hc).
Qed.

Lemma to_float_zero : to_float 0 = Return 0%float.
Proof. vm_compute. reflexivity. Qed.

(** X18. For a stored counts table of ints: when no key of the table is in
    the observable, [average_data] returns the int [0], whatever the
    counts; when the counts sum to zero and a key is in both mappings, it
    raises [ZeroDivisionError]. *)
Theorem average_data_edges name observable counts st :
  get_counts name None st = Return (counts_dict counts) ->
  (common_terms counts observable = [] ->
   average_data name observable st = Return (NInt 0)) /\
  (forall c o rest f,
     total counts = 0 ->
     common_terms counts observable = (c, o) :: rest ->
     to_float c = Return f ->
     average_data name observable st = Raise ZeroDivisionError).
Proof.
  intros Hc.
  rewrite (average_data_unfolds name observable counts st Hc).
  unfold weighted_average. split.
  - intros ->. reflexivity.
  - intros c o rest f Ht -> Hf. rewrite Ht. cbn [fold_left bind].
    unfold weighted_term, mul_float, float_div. cbn [fst snd num_to_float].
    rewrite Hf. cbn [bind]. rewrite to_float_zero. cbn [bind].
    change (0 =? 0)%float with true. cbn [bind].
    apply fold_left_raise. reflexivity.
Qed.

(** ** Further properties of the rendering of outcomes *)

Lemma length_zfill_pad s width :
  Z.of_nat (String.length s) < width ->
  String.length (zfill s width) = Z.to_nat width.
Proof.
  intros H. unfold zfill. destruct (Z.leb_spec width (Z.of_nat (String.length s))); [lia|].
  destruct s as [|c s]; simpl.
  - rewrite length_zeros. simpl. lia.
  - destruct (Ascii.eqb c "+" || Ascii.eqb c "-")%bool; simpl.
    + rewrite length_append, length_zeros. simpl String.length in *. lia.
    + rewrite length_append, length_zeros. simpl String.length in *. lia.
Qed.

(** X19. [zfill] only pads: the result has the length of the string or the
    width, whichever is larger, and a string that is long enough is
    returned as it is. *)
Theorem zfill_length s width :
  String.length (zfill s width) = Nat.max (String.length s) (Z.to_nat width) /\
  (width <= Z.of_nat (String.length s) -> zfill s width = s).
Proof.
  split.
  - destruct (Z.leb_spec width (Z.of_nat (String.length s))) as [Hle|Hgt].
    + unfold zfill. destruct (Z.leb_spec width (Z.of_nat (String.length s))); lia.
    + rewrite length_zfill_pad by assumption. lia.
  - intros H. unfold zfill.
    destruct (Z.leb_spec width (Z.of_nat (String.length s))); [reflexivity | lia].
Qed.

Lemma bits_value_render x width :
  0 <= x -> bits_value (zfill (drop_chars 2 (bin x)) width) = Some x.
Proof.
  intros Hx. destruct x as [|p|p]; [| |lia].
  - simpl bin. simpl drop_chars. unfold zfill. simpl String.length.
    destruct (width <=? Z.of_nat 1); [reflexivity|].
    cbn [Ascii.eqb Bool.eqb orb andb]. unfold bits_value.
    now rewrite bits_value_from_append, bits_value_zeros.
  - assert (Hdrop : drop_chars 2 (bin (Zpos p)) = pos_digits p) by reflexivity.
    rewrite Hdrop. pose proof (bits_value_pos_digits p 0) as Hval.
    unfold zfill. destruct (width <=? Z.of_nat (String.length (pos_digits p))).
    + unfold bits_value. rewrite Hval. f_equal.
    + destruct (pos_digits_head p) as [s Hs]. rewrite Hs in *.
      cbn [Ascii.eqb Bool.eqb orb andb]. unfold bits_value.
      rewrite bits_value_from_append, bits_value_zeros, Hval. f_equal.
Qed.

(** X20. The rendering of an outcome that is not negative spells it back
    in binary for every width, so two such outcomes with the same
    rendering are equal: the keys of a counts table never merge two
    outcomes. *)
Theorem rendering_round_trip x y width width' :
  0 <= x -> 0 <= y ->
  bits_value (zfill (drop_chars 2 (bin x)) width) = Some x /\
  (zfill (drop_chars 2 (bin x)) width = zfill (drop_chars 2 (bin y)) width' -> x = y).
Proof.
  intros Hx Hy. split; [now apply bits_value_render|].
  intros H. apply (f_equal bits_value) in H.
  rewrite !bits_value_render in H by assumption. now injection H.
Qed.

(** ** The rest of the program object *)

(** The register and circuit classes, [qasm()] of a circuit and the
    constructor of the API client, which may raise. *)
Variable Register : Type.
Variable QuantumRegister : string -> Z -> Register.
Variable ClassicalRegister : string -> Z -> Register.
Variable QuantumCircuit : Circ.
Variable circuit_add : Circ -> Register -> Circ.
Variable circuit_qasm : Circ -> string.
Variable IBMQuantumExperience : value -> value -> outcome Api.

(** [d[k] = v] on a dict in insertion order. *)
Fixpoint dict_set {A} (k : string) (v : A) (d : list (string * A))
    : list (string * A) :=
  match d with
  | [] => [(k, v)]
  | (k', v') :: d' =>
      if String.eqb k' k then (k', v) :: d' else (k', v') :: dict_set k v d'
  end.

(** The whole object: the part that compiling and running act on, the two
    register dicts, the initial circuit and the API configuration. *)
Record session := {
  program : state;
  quantum_registers : list (string * Register);
  classical_registers : list (string * Register);
  init_circuit : option Circ;
  api_config : list (string * value)
}.

Definition set_program (p : state) (s : session) : session :=
  {| program := p; quantum_registers := quantum_registers s;
     classical_registers := classical_registers s;
     init_circuit := init_circuit s; api_config := api_config s |}.
Definition set_quantum_registers (r : list (string * Register)) (s : session) : session :=
  {| program := program s; quantum_registers := r;
     classical_registers := classical_registers s;
     init_circuit := init_circuit s; api_config := api_config s |}.
Definition set_classical_registers (r : list (string * Register)) (s : session) : session :=
  {| program := program s; quantum_registers := quantum_registers s;
     classical_registers := r;
     init_circuit := init_circuit s; api_config := api_config s |}.
Definition set_init_circuit (c : option Circ) (s : session) : session :=
  {| program := program s; quantum_registers := quantum_registers s;
     classical_registers := classical_registers s;
     init_circuit := c; api_config := api_config s |}.
Definition set_api_config (c : list (string * value)) (s : session) : session :=
  {| program := program s; quantum_registers := quantum_registers s;
     classical_registers := classical_registers s;
     init_circuit := init_circuit s; api_config := c |}.

(** *** Lookups *)

Definition get_quantum_registers (name : string) (s : session) : outcome Register :=
  match dict_get name (quantum_registers s) with
  | Some r => Return r
  | None => Raise (KeyError name)
  end.

Definition get_classical_registers (name : string) (s : session) : outcome Register :=
  match dict_get name (classical_registers s) with
  | Some r => Return r
  | None => Raise (KeyError name)
  end.

Definition get_circuit (name : string) (st : state) : outcome Circ :=
  match circuits st !! name with
  | Some e => Return (circuit e)
  | None => Raise (KeyError name)
  end.

(** [list(d)[0]] *)
Definition first_value {A} (d : list (string * A)) : outcome A :=
  match d with
  | (_, v) :: _ => Return v
  | [] => Raise IndexError
  end.

(** [get_quantum_elements(specs)]: without [specs] it calls [get_specs],
    which the class does not have. *)
Definition get_quantum_elements (specs_given : bool) (s : session)
    : outcome (option Circ * Register * Register) :=
  if specs_given then
    q <- first_value (quantum_registers s) ;;
    c <- first_value (classical_registers s) ;;
    Return (init_circuit s, q, c)
  else Raise AttributeError.

Definition get_qasm (name : string) (st : state) : value :=
  match circuits st !! name with
  | Some e => VStr (circuit_qasm (circuit e))
  | None => error_dict "Circuit not found"
  end.

Definition get_qasms (names : list string) (st : state) : list value :=
  map (fun name => get_qasm name st) names.

(** *** Registers and circuits *)

Definition create_quantum_registers (name : string) (size : Z) (s : session)
    : Register * session :=
  let r := QuantumRegister name size in
  (r, set_quantum_registers (dict_set name r (quantum_registers s)) s).

Definition create_classical_registers (name : string) (size : Z) (s : session)
    : Register * session :=
  let r := ClassicalRegister name size in
  (r, set_classical_registers (dict_set name r (classical_registers s)) s).

Record register_spec := { rs_name : string; rs_size : Z }.

Fixpoint create_quantum_registers_group (registers_array : list register_spec)
    (new_registers : list Register) (s : session) : list Register * session :=
  match registers_array with
  | [] => (new_registers, s)
  | register :: rest =>
      let '(r, s') := create_quantum_registers (rs_name register) (rs_size register) s in
      create_quantum_registers_group rest (new_registers ++ [r]) s'
  end.

Fixpoint create_classical_registers_group (registers_array : list register_spec)
    (new_registers : list Register) (s : session) : list Register * session :=
  match registers_array with
  | [] => (new_registers, s)
  | register :: rest =>
      let '(r, s') := create_classical_registers (rs_name register) (rs_size register) s in
      create_classical_registers_group rest (new_registers ++ [r]) s'
  end.

(** One of the loops of [create_circuit]: every register, given by name or
    as an object, is added to the circuit of the entry, which is the
    object [c]. *)
Fixpoint add_registers (name : string) (registry : list (string * Register))
    (registers : list (string + Register)) (c : Circ) (st : state)
    : outcome Circ * state :=
  match registers with
  | [] => (Return c, st)
  | inl register :: rest =>
      match dict_get register registry with
      | None => (Raise (KeyError register), st)
      | Some r =>
          let c' := circuit_add c r in
          add_registers name registry rest c' (add_circuit name c' st)
      end
  | inr r :: rest =>
      let c' := circuit_add c r in
      add_registers name registry rest c' (add_circuit name c' st)
  end.

Definition create_circuit (name : string)
    (qregisters cregisters : list (string + Register))
    (circuit_object : option Circ) (s : session) : outcome Circ * session :=
  let c0 := default QuantumCircuit circuit_object in
  let st0 := add_circuit name c0 (program s) in
  match add_registers name (quantum_registers s) qregisters c0 st0 with
  | (Raise e, st1) => (Raise e, set_program st1 s)
  | (Return c1, st1) =>
      match add_registers name (classical_registers s) cregisters c1 st1 with
      | (Raise e, st2) => (Raise e, set_program st2 s)
      | (Return c2, st2) => (Return c2, set_program st2 s)
      end
  end.

(** *** Compile and run in one call *)

Definition execute (fuel : nat) (names : list string) (device : string)
    (shots max_credits wait timeout : Z) (basis_gates : option string)
    (coupling_map : option coupling) (seed : option Seed) (st : state)
    : flow unit :=
  run fuel wait timeout
    (snd (compile names device shots max_credits basis_gates coupling_map seed st)).

(** *** The API configuration *)

(** [not x] for an optional string argument. *)
Definition given (x : option string) : option string :=
  match x with
  | Some (String c s) => Some (String c s)
  | _ => None
  end.

(** [_setup_api]: the client replaces the one of the program when the
    constructor returns; any exception gives [False]. *)
Definition _setup_api (token url : value) (s : session) : bool * session :=
  match IBMQuantumExperience token (VDict [("url", url)]) with
  | Return a => (true, set_program (set_api a (program s)) s)
  | Raise _ => (false, s)
  end.

(** [set_api] of the class; [set_api] without the underscore is the setter
    of the field of [state]. *)
Definition set_api_ (token url : option string) (s : session)
    : outcome bool * session :=
  match (match given token with
         | None =>
             match dict_get "token" (api_config s) with
             | Some t => (Return t, s)
             | None => (Raise (KeyError "token"), s)
             end
         | Some t =>
             (Return (VStr t), set_api_config (dict_set "token" (VStr t) (api_config s)) s)
         end) with
  | (Raise e, s1) => (Raise e, s1)
  | (Return token', s1) =>
      match (match given url with
             | None =>
                 match dict_get "url" (api_config s1) with
                 | Some u => (Return u, s1)
                 | None => (Raise (KeyError "url"), s1)
                 end
             | Some u =>
                 (Return (VStr u),
                  set_api_config
                    (dict_set "url" (VDict [("url", VStr u)]) (api_config s1)) s1)
             end) with
      | (Raise e, s2) => (Raise e, s2)
      | (Return url', s2) =>
          let '(ok, s3) := _setup_api token' url' s2 in (Return ok, s3)
      end
  end.

Definition set_api_token (token : option string) (s : session)
    : outcome unit * session :=
  match set_api_ token None s with
  | (Return _, s') => (Return tt, s')
  | (Raise e, s') => (Raise e, s')
  end.

Definition set_api_url (url : option string) (s : session)
    : outcome unit * session :=
  match set_api_ None url s with
  | (Return _, s') => (Return tt, s')
  | (Raise e, s') => (Raise e, s')
  end.

(** *** Initial specs *)

Record circuit_spec := {
  cs_name : string;
  cs_quantum_registers : list register_spec;
  cs_classical_registers : list register_spec
}.

Record api_spec := { as_token : string; as_url : string }.

(** The dict [specs]; [None] stands for a key that is not there. *)
Record specs := {
  sp_api : option api_spec;
  sp_circuits : option (list circuit_spec);
  sp_quantum_registers : option register_spec;
  sp_classical_registers : option register_spec;
  sp_name : option string
}.

(** Iterating over a string gives its characters, as strings. *)
Fixpoint characters (s : string) : list (string + Register) :=
  match s with
  | EmptyString => []
  | String c s' => inl (String c EmptyString) :: characters s'
  end.

Definition init_api_config (a : api_spec) (s : session) : session :=
  let s1 :=
    match as_token a with
    | EmptyString => s
    | t => set_api_config (dict_set "token" (VStr t) (api_config s)) s
    end in
  match as_url a with
  | EmptyString => s1
  | u => set_api_config (dict_set "url" (VStr u) (api_config s1)) s1
  end.

Fixpoint init_circuits (cs : list circuit_spec) (s : session)
    : outcome unit * session :=
  match cs with
  | [] => (Return tt, s)
  | c :: rest =>
      let '(quantumr, s1) :=
        create_quantum_registers_group (cs_quantum_registers c) [] s in
      let '(classicalr, s2) :=
        create_classical_registers_group (cs_classical_registers c) [] s1 in
      match create_circuit (cs_name c) (map inr quantumr) (map inr classicalr) None s2 with
      | (Raise e, s3) => (Raise e, s3)
      | (Return circ, s3) => init_circuits rest (set_init_circuit (Some circ) s3)
      end
  end.

Definition __init_specs (sp : specs) (s : session) : outcome unit * session :=
  let s0 := match sp_api sp with Some a => init_api_config a s | None => s end in
  match sp_circuits sp with
  | Some cs => init_circuits cs s0
  | None =>
      let s1 :=
        match sp_quantum_registers sp with
        | Some q => snd (create_quantum_registers (rs_name q) (rs_size q) s0)
        | None => s0
        end in
      let s2 :=
        match sp_classical_registers sp with
        | Some c => snd (create_classical_registers (rs_name c) (rs_size c) s1)
        | None => s1
        end in
      match sp_quantum_registers sp, sp_classical_registers sp with
      | Some q, Some c =>
          match sp_name sp with
          | None => (Raise (KeyError "name"), s2)
          | Some name =>
              match create_circuit name (characters (rs_name q))
                      (characters (rs_name c)) None s2 with
              | (Raise e, s3) => (Raise e, s3)
              | (Return _, s3) => (Return tt, s3)
              end
          end
      | _, _ => (Return tt, s2)
      end
  end.

(** [QuantumProgram(specs)], given the client that the class starts with,
    the configuration that the class holds, and the state of the random
    generator and of the clock. *)
Definition __init__ (sp : option specs) (a : Api) (config : list (string * value))
    (n : nat) (l : list Z) : outcome unit * session :=
  let s := {| program := {| circuits := ∅; last_device_backend := "";
                            to_execute := []; api := a; draws := n; slept := l |};
              quantum_registers := []; classical_registers := [];
              init_circuit := None; api_config := config |} in
  match sp with
  | Some sp => __init_specs sp s
  | None => (Return tt, s)
  end.

(** ** Properties of the rest of the program object *)

Lemma known_prefix_nil_compile names device shots max_credits basis_gates coupling_map seed st :
  known_prefix (circuits st) names = [] ->
  exists msg,
    compile names device shots max_credits basis_gates coupling_map seed st
    = (Msg "Error" msg, st).
Proof.
  destruct names as [|name rest]; simpl; [eauto|].
  destruct (circuits st !! name); [discriminate | eauto].
Qed.

(** X21. [execute] does not look at what [compile] answers. When the list
    of names is empty or its first name is not in the catalog, [compile]
    fails and appends nothing, and [execute] answers what [run] answers on
    the queue as it was: [COMPLETED / all done] when nothing was queued. *)
Theorem execute_hides_compile_error fuel names device shots max_credits wait timeout
    basis_gates coupling_map seed st :
  known_prefix (circuits st) names = [] ->
  (exists msg,
     fst (compile names device shots max_credits basis_gates coupling_map seed st)
     = Msg "Error" msg) /\
  execute fuel names device shots max_credits wait timeout basis_gates coupling_map
    seed st = run fuel wait timeout st /\
  (to_execute st = [] ->
   execute fuel names device shots max_credits wait timeout basis_gates coupling_map
     seed st = Returned (Msg "COMPLETED" "all done") (clear_queue st)).
Proof.
  intros H.
  destruct (known_prefix_nil_compile names device shots max_credits basis_gates
              coupling_map seed st H) as [msg Hc].
  unfold execute. rewrite Hc. simpl. split; [eauto|]. split; [reflexivity|].
  apply run_empty_queue.
Qed.

(** X22. [add_circuit] replaces the whole entry of the name: the circuit
    is the new object, and the results stored for the old one are gone,
    so that [get_result] raises and [get_counts] answers with its error
    dict until the circuit is run again. The other entries and the queue,
    with the jobs compiled from the old circuit, stay. *)
Theorem add_circuit_replaces_entry name c st :
  get_circuit name (add_circuit name c st) = Return c /\
  get_qasm name (add_circuit name c st) = VStr (circuit_qasm c) /\
  (forall device,
     get_result name device (add_circuit name c st) = Raise (KeyError "execution") /\
     get_counts name device (add_circuit name c st)
       = Return (error_dict "Error in circuit name")) /\
  (forall other, other <> name ->
     circuits (add_circuit name c st) !! other = circuits st !! other) /\
  to_execute (add_circuit name c st) = to_execute st.
Proof.
  unfold get_circuit, get_qasm, get_result, get_counts, execution_of, add_circuit.
  simpl. rewrite lookup_insert_eq. simpl. repeat split.
  intros other Hne. now rewrite lookup_insert_ne.
Qed.

(** *** Registers *)

Lemma dict_get_dict_set_eq {A} k (v : A) d : dict_get k (dict_set k v d) = Some v.
Proof.
  induction d as [|[k' v'] d IH]; simpl.
  - now rewrite String.eqb_refl.
  - destruct (String.eqb_spec k' k) as [->|Hne]; simpl.
    + now rewrite String.eqb_refl.
    + destruct (String.eqb_spec k' k); [congruence | exact IH].
Qed.

Lemma dict_get_dict_set_ne {A} k k' (v : A) d :
  k' <> k -> dict_get k' (dict_set k v d) = dict_get k' d.
Proof.
  intros Hne. induction d as [|[k0 v0] d IH]; simpl.
  - destruct (String.eqb_spec k k'); congruence.
  - destruct (String.eqb_spec k0 k) as [->|Hk]; simpl.
    + destruct (String.eqb_spec k k'); congruence.
    + destruct (String.eqb_spec k0 k'); auto.
Qed.

Lemma keys_dict_set {A} k (v : A) d :
  map fst (dict_set k v d) =
  if dict_mem k d then map fst d else map fst d ++ [k].
Proof.
  unfold dict_mem. induction d as [|[k' v'] d IH]; simpl; [reflexivity|].
  destruct (String.eqb_spec k' k) as [->|Hne]; simpl; [reflexivity|].
  rewrite IH. destruct (dict_get k d); reflexivity.
Qed.

Lemma first_value_dict_set {A} k (v : A) k0 v0 d :
  k0 <> k ->
  first_value (dict_set k v ((k0, v0) :: d)) = Return v0.
Proof. intros Hne. simpl. destruct (String.eqb_spec k0 k); [congruence | reflexivity]. Qed.

(** X23. A register that was created is found under its name; creating
    it leaves the other registers alone and keeps the order of the dict:
    a register that is already there keeps its place, a new one goes to
    the end, so that the first register of [get_quantum_elements] stays
    the first one created, unless it is created again. *)
Theorem create_quantum_registers_lookup name size s :
  let '(r, s') := create_quantum_registers name size s in
  r = QuantumRegister name size /\
  get_quantum_registers name s' = Return r /\
  (forall other, other <> name ->
     get_quantum_registers other s' = get_quantum_registers other s) /\
  map fst (quantum_registers s') =
    (if dict_mem name (quantum_registers s) then map fst (quantum_registers s)
     else map fst (quantum_registers s) ++ [name]) /\
  (forall k0 v0 rest, quantum_registers s = (k0, v0) :: rest -> k0 <> name ->
     first_value (quantum_registers s') = Return v0) /\
  classical_registers s' = classical_registers s /\ program s' = program s.
Proof.
  unfold create_quantum_registers, get_quantum_registers. simpl.
  rewrite dict_get_dict_set_eq. repeat split.
  - intros other Hne. now rewrite dict_get_dict_set_ne.
  - apply keys_dict_set.
  - intros k0 v0 rest -> Hne. now apply first_value_dict_set.
Qed.

(** The registers that a list of names and objects stands for. *)
Definition resolved (registry : list (string * Register))
    (registers : list (string + Register)) (rs : list Register) : Prop :=
  Forall2 (fun register r =>
             match register with
             | inl name => dict_get name registry = Some r
             | inr r' => r' = r
             end) registers rs.

Lemma add_circuit_twice name c c' st :
  add_circuit name c' (add_circuit name c st) = add_circuit name c' st.
Proof.
  unfold add_circuit, set_circuits. simpl. now rewrite insert_insert_eq.
Qed.

Lemma add_registers_resolved name registry registers rs :
  resolved registry registers rs ->
  forall c st,
    add_registers name registry registers c (add_circuit name c st) =
    (Return (fold_left circuit_add rs c),
     add_circuit name (fold_left circuit_add rs c) st).
Proof.
  induction 1 as [|register r registers rs Hr _ IH]; intros c st; simpl;
    [reflexivity|].
  destruct register as [nm|r']; [rewrite Hr | subst r'];
    rewrite add_circuit_twice; apply IH.
Qed.

Lemma add_registers_unknown name registry pre rs missing post :
  resolved registry pre rs -> dict_get missing registry = None ->
  forall c st,
    add_registers name registry (pre ++ inl missing :: post) c (add_circuit name c st) =
    (Raise (KeyError missing), add_circuit name (fold_left circuit_add rs c) st).
Proof.
  intros Hpre Hmiss. induction Hpre as [|register r registers rs Hr _ IH];
    intros c st; simpl.
  - now rewrite Hmiss.
  - destruct register as [nm|r']; [rewrite Hr | subst r'];
      rewrite add_circuit_twice; apply IH.
Qed.

(** X24. [create_circuit] with registers that are all known, by name or
    given as objects, makes the circuit of the quantum registers and then
    the classical ones, added in their order to the given circuit, or to
    a new one; the circuit is returned and is the entry of the name,
    without results. *)
Theorem create_circuit_builds name qregisters cregisters circuit_object qs cs s :
  resolved (quantum_registers s) qregisters qs ->
  resolved (classical_registers s) cregisters cs ->
  let c := fold_left circuit_add (qs ++ cs) (default QuantumCircuit circuit_object) in
  create_circuit name qregisters cregisters circuit_object s
    = (Return c, set_program (add_circuit name c (program s)) s) /\
  get_circuit name (add_circuit name c (program s)) = Return c.
Proof.
  intros Hq Hc. cbv zeta. split.
  - unfold create_circuit.
    rewrite (add_registers_resolved name _ _ _ Hq).
    rewrite (add_registers_resolved name _ _ _ Hc).
    now rewrite fold_left_app.
  - unfold get_circuit, add_circuit. simpl. now rewrite lookup_insert_eq.
Qed.

(** X25. [create_circuit] with a name of a register that does not exist
    raises [KeyError] for it, after it has replaced the entry of the
    circuit: the entry holds the circuit with the registers that precede
    the unknown one, and the results of an earlier circuit of that name
    are gone. *)
Theorem create_circuit_unknown_register name pre missing post cregisters
    circuit_object qs s :
  resolved (quantum_registers s) pre qs ->
  dict_get missing (quantum_registers s) = None ->
  let c := fold_left circuit_add qs (default QuantumCircuit circuit_object) in
  create_circuit name (pre ++ inl missing :: post) cregisters circuit_object s
    = (Raise (KeyError missing), set_program (add_circuit name c (program s)) s) /\
  get_circuit name (add_circuit name c (program s)) = Return c /\
  (forall device,
     get_result name device (add_circuit name c (program s))
     = Raise (KeyError "execution")).
Proof.
  intros Hpre Hmiss. cbv zeta. split; [|split].
  - unfold create_circuit.
    now rewrite (add_registers_unknown name _ _ _ _ post Hpre Hmiss).
  - unfold get_circuit, add_circuit. simpl. now rewrite lookup_insert_eq.
  - intros device. unfold get_result, execution_of, add_circuit. simpl.
    now rewrite lookup_insert_eq.
Qed.

(** *** The API configuration *)

(** What [_setup_api] answers for a token and a url. *)
Definition connects (token url : value) : bool :=
  match IBMQuantumExperience token (VDict [("url", url)]) with
  | Return _ => true
  | Raise _ => false
  end.

Lemma setup_api_answer token url s :
  fst (_setup_api token url s) = connects token url /\
  api_config (snd (_setup_api token url s)) = api_config s.
Proof.
  unfold _setup_api, connects.
  destruct (IBMQuantumExperience token (VDict [("url", url)])); split; reflexivity.
Qed.

Lemma set_api_stored tc ts uc us s :
  let token := String tc ts in
  let url := String uc us in
  fst (set_api_ (Some token) (Some url) s) = Return (connects (VStr token) (VStr url)) /\
  api_config (snd (set_api_ (Some token) (Some url) s)) =
    dict_set "url" (VDict [("url", VStr url)])
      (dict_set "token" (VStr token) (api_config s)).
Proof.
  cbv zeta. unfold set_api_. cbn [given].
  set (s2 := set_api_config _ (set_api_config _ s)).
  pose proof (setup_api_answer (VStr (String tc ts)) (VStr (String uc us)) s2) as [Ha Hc].
  destruct (_setup_api _ _ s2) as [ok s3]. simpl in *. now subst ok.
Qed.

Lemma set_api_from_config token url s :
  dict_get "token" (api_config s) = Some token ->
  dict_get "url" (api_config s) = Some url ->
  fst (set_api_ None None s) = Return (connects token url).
Proof.
  intros Ht Hu. unfold set_api_. cbn [given]. rewrite Ht, Hu.
  pose proof (setup_api_answer token url s) as [Ha _].
  destruct (_setup_api token url s) as [ok s3]. simpl in *. now subst ok.
Qed.

(** X26. [set_api] keeps the token as it is given but keeps the url
    wrapped in a dict. A call with a token and a url connects with
    the url; a later call without arguments takes the stored value for the
    url and hands the client a url that is the dict [{url: url}], not the
    string. The url that the specs of the constructor give is stored as
    it is, and is what a call without arguments connects with. *)
Theorem set_api_wraps_url tc ts uc us s :
  let token := String tc ts in
  let url := String uc us in
  fst (set_api_ (Some token) (Some url) s) = Return (connects (VStr token) (VStr url)) /\
  fst (set_api_ None None (snd (set_api_ (Some token) (Some url) s)))
    = Return (connects (VStr token) (VDict [("url", VStr url)])) /\
  fst (set_api_ None None (init_api_config {| as_token := token; as_url := url |} s))
    = Return (connects (VStr token) (VStr url)).
Proof.
  cbv zeta. destruct (set_api_stored tc ts uc us s) as [H1 H2]. cbv zeta in H1, H2.
  split; [exact H1|]. split.
  - apply set_api_from_config; rewrite H2.
    + rewrite dict_get_dict_set_ne by discriminate. apply dict_get_dict_set_eq.
    + apply dict_get_dict_set_eq.
  - apply set_api_from_config; unfold init_api_config; cbn [as_token as_url api_config set_api_config].
    + rewrite dict_get_dict_set_ne by discriminate. apply dict_get_dict_set_eq.
    + apply dict_get_dict_set_eq.
Qed.

(** X27. On a configuration that has neither a token nor a url,
    [set_api_token] stores the token and then raises [KeyError] for the
    url, and [set_api_url] raises [KeyError] for the token before it
    stores anything; neither reaches the client, which stays the one of
    the program. *)
Theorem set_api_token_needs_url tc ts uc us s :
  dict_get "token" (api_config s) = None ->
  dict_get "url" (api_config s) = None ->
  set_api_token (Some (String tc ts)) s =
    (Raise (KeyError "url"),
     set_api_config (dict_set "token" (VStr (String tc ts)) (api_config s)) s) /\
  set_api_url (Some (String uc us)) s = (Raise (KeyError "token"), s).
Proof.
  intros Ht Hu. unfold set_api_token, set_api_url, set_api_. cbn [given]. split.
  - cbn [api_config set_api_config].
    rewrite dict_get_dict_set_ne by discriminate. now rewrite Hu.
  - now rewrite Ht.
Qed.

(** *** The constructor *)

Lemma init_api_config_frame a s :
  init_api_config a s = set_api_config (api_config (init_api_config a s)) s.
Proof.
  unfold init_api_config. destruct (as_token a), (as_url a); destruct s; reflexivity.
Qed.

(** X28. Specs that give the registers at the top level make
    [__init_specs] hand the names of the two registers, which are
    strings, to [create_circuit] where it takes lists: the characters of
    the names are looked up as names of registers. With a quantum register
    whose name has two characters or more the constructor raises
    [KeyError] for the first character, with the registers created and an
    empty circuit in the catalog; with names of one character the circuit
    gets the two registers. *)
Theorem init_registers_by_name sp q c name a config n l :
  sp_circuits sp = None ->
  sp_quantum_registers sp = Some q ->
  sp_classical_registers sp = Some c ->
  sp_name sp = Some name ->
  (forall x y rest, rs_name q = String x (String y rest) ->
     fst (__init__ (Some sp) a config n l) = Raise (KeyError (String x "")) /\
     get_circuit name (program (snd (__init__ (Some sp) a config n l)))
       = Return QuantumCircuit /\
     get_quantum_registers (rs_name q) (snd (__init__ (Some sp) a config n l))
       = Return (QuantumRegister (rs_name q) (rs_size q))) /\
  (forall x y, rs_name q = String x "" -> rs_name c = String y "" ->
     fst (__init__ (Some sp) a config n l) = Return tt /\
     get_circuit name (program (snd (__init__ (Some sp) a config n l)))
       = Return (circuit_add
                   (circuit_add QuantumCircuit (QuantumRegister (rs_name q) (rs_size q)))
                   (ClassicalRegister (rs_name c) (rs_size c)))).
Proof.
  intros Hcs Hq Hc Hn. unfold __init__, __init_specs. rewrite Hcs, Hq, Hc, Hn.
  set (s := {| program := _ |}).
  assert (Hs0 : exists cfg,
             match sp_api sp with Some a0 => init_api_config a0 s | None => s end
             = set_api_config cfg s).
  { destruct (sp_api sp) as [a0|].
    - eexists. apply init_api_config_frame.
    - exists config. reflexivity. }
  destruct Hs0 as [cfg ->]. destruct q as [qn qs], c as [cn csz]. cbn [rs_name rs_size].
  split.
  - intros x y rest ->. unfold create_circuit, get_circuit, get_quantum_registers.
    simpl. rewrite !Ascii.eqb_refl. simpl. rewrite lookup_insert_eq.
    repeat split. simpl. now rewrite !Ascii.eqb_refl, String.eqb_refl.
  - intros x y -> ->. unfold create_circuit, get_circuit. simpl.
    rewrite !Ascii.eqb_refl. simpl. rewrite lookup_insert_eq. repeat split.
Qed.

(** The registers and the circuit that the specs of a circuit stand for. *)
Definition quantum_register_of (r : register_spec) : Register :=
  QuantumRegister (rs_name r) (rs_size r).
Definition classical_register_of (r : register_spec) : Register :=
  ClassicalRegister (rs_name r) (rs_size r).
Definition circuit_of (c : circuit_spec) : Circ :=
  fold_left circuit_add
    (map quantum_register_of (cs_quantum_registers c) ++
     map classical_register_of (cs_classical_registers c)) QuantumCircuit.

Definition declare (mk : register_spec -> Register) (d : list (string * Register))
    (r : register_spec) : list (string * Register) :=
  dict_set (rs_name r) (mk r) d.

(** The last of the specs that have the name of the first one. *)
Definition last_of_name (first : register_spec) (rest : list register_spec)
    : register_spec :=
  List.last
    (List.filter (fun r => String.eqb (rs_name first) (rs_name r)) rest) first.

Lemma create_quantum_registers_group_effect registers_array :
  forall new_registers s,
    create_quantum_registers_group registers_array new_registers s =
    (new_registers ++ map quantum_register_of registers_array,
     set_quantum_registers
       (fold_left (declare quantum_register_of) registers_array (quantum_registers s)) s).
Proof.
  induction registers_array as [|r rest IH]; intros acc s; simpl.
  - rewrite app_nil_r. now destruct s.
  - rewrite IH. rewrite <- app_assoc. reflexivity.
Qed.

Lemma create_classical_registers_group_effect registers_array :
  forall new_registers s,
    create_classical_registers_group registers_array new_registers s =
    (new_registers ++ map classical_register_of registers_array,
     set_classical_registers
       (fold_left (declare classical_register_of) registers_array
          (classical_registers s)) s).
Proof.
  induction registers_array as [|r rest IH]; intros acc s; simpl.
  - rewrite app_nil_r. now destruct s.
  - rewrite IH. rewrite <- app_assoc. reflexivity.
Qed.

Lemma resolved_objects registry rs : resolved registry (map inr rs) rs.
Proof. induction rs; constructor; auto. Qed.

Lemma create_circuit_objects name qs cs s :
  create_circuit name (map inr qs) (map inr cs) None s =
  (Return (fold_left circuit_add (qs ++ cs) QuantumCircuit),
   set_program
     (add_circuit name (fold_left circuit_add (qs ++ cs) QuantumCircuit) (program s)) s).
Proof.
  unfold create_circuit.
  rewrite (add_registers_resolved name _ _ _ (resolved_objects _ qs)).
  rewrite (add_registers_resolved name _ _ _ (resolved_objects _ cs)).
  now rewrite fold_left_app.
Qed.

Lemma first_value_declare mk registers :
  forall k r0 d,
    rs_name r0 = k ->
    first_value (fold_left (declare mk) registers ((k, mk r0) :: d)) =
    Return (mk (List.last
                  (List.filter (fun r => String.eqb k (rs_name r)) registers) r0)).
Proof.
  induction registers as [|r rest IH]; intros k r0 d Hk; [reflexivity|].
  cbn [fold_left List.filter]. unfold declare at 2. cbn [dict_set].
  destruct (String.eqb_spec k (rs_name r)) as [He|Hne].
  - rewrite last_cons_default. apply IH. now symmetry.
  - now apply IH.
Qed.

Lemma first_value_declared mk first rest :
  first_value (fold_left (declare mk) (first :: rest) []) =
  Return (mk (last_of_name first rest)).
Proof. simpl. now apply first_value_declare. Qed.

(** What the loop of [__init_specs] makes of the specs of the circuits. *)
Lemma init_circuits_effect cs :
  forall s,
    exists st',
      init_circuits cs s =
      (Return tt,
       {| program := st';
          quantum_registers :=
            fold_left (declare quantum_register_of)
              (concat (map cs_quantum_registers cs)) (quantum_registers s);
          classical_registers :=
            fold_left (declare classical_register_of)
              (concat (map cs_classical_registers cs)) (classical_registers s);
          init_circuit := List.last (map (fun c => Some (circuit_of c)) cs) (init_circuit s);
          api_config := api_config s |}) /\
      to_execute st' = to_execute (program s) /\
      (forall before c, cs = before ++ [c] ->
         get_circuit (cs_name c) st' = Return (circuit_of c)) /\
      (cs = [] -> st' = program s).
Proof.
  induction cs as [|c rest IH]; intros s.
  - exists (program s). simpl. split; [now destruct s|]. split; [reflexivity|].
    split; [|reflexivity]. intros [|? ?] ? ?; discriminate.
  - cbn [init_circuits].
    rewrite create_quantum_registers_group_effect.
    rewrite create_classical_registers_group_effect.
    rewrite create_circuit_objects. cbn [app].
    fold (circuit_of c).
    match goal with
    | |- context [init_circuits rest ?s1] =>
        destruct (IH s1) as (st' & Heq & Hq & Hlast & Hnil); rewrite Heq
    end.
    cbn [program quantum_registers classical_registers init_circuit api_config
         set_init_circuit set_program set_classical_registers set_quantum_registers]
      in *.
    exists st'. cbn [map concat]. rewrite !fold_left_app. rewrite last_cons_default.
    split; [reflexivity|]. split; [exact Hq|]. split; [|discriminate].
    intros before c' Hcs. destruct before as [|b before].
    + injection Hcs as Hc Hr. subst c'. rewrite (Hnil Hr).
      unfold get_circuit, add_circuit. simpl. now rewrite lookup_insert_eq.
    + injection Hcs as _ ->. now apply (Hlast before).
Qed.

(** X29. Specs with a list of circuits never make the constructor
    raise: the registers are created in their order and given to
    [create_circuit] as objects. The initial circuit is the circuit of the
    last of the specs, which the catalog holds under its name, and
    [get_quantum_elements] answers it with the first quantum and the first
    classical register created, each as its name was last declared; it
    raises [IndexError] where no quantum register was declared, and
    [AttributeError] when it is called without specs. *)
Theorem init_with_circuits sp before c a config n l :
  sp_circuits sp = Some (before ++ [c]) ->
  let s := snd (__init__ (Some sp) a config n l) in
  let qs := concat (map cs_quantum_registers (before ++ [c])) in
  let cls := concat (map cs_classical_registers (before ++ [c])) in
  fst (__init__ (Some sp) a config n l) = Return tt /\
  init_circuit s = Some (circuit_of c) /\
  get_circuit (cs_name c) (program s) = Return (circuit_of c) /\
  to_execute (program s) = [] /\
  (forall q0 qrest c0 crest, qs = q0 :: qrest -> cls = c0 :: crest ->
     get_quantum_elements true s =
     Return (Some (circuit_of c),
             quantum_register_of (last_of_name q0 qrest),
             classical_register_of (last_of_name c0 crest))) /\
  (qs = [] -> get_quantum_elements true s = Raise IndexError) /\
  get_quantum_elements false s = Raise AttributeError.
Proof.
  intros Hcs. cbv zeta. unfold __init__, __init_specs. rewrite Hcs.
  set (s0 := {| program := _ |}).
  assert (Hs0 : exists cfg,
             match sp_api sp with Some a0 => init_api_config a0 s0 | None => s0 end
             = set_api_config cfg s0).
  { destruct (sp_api sp) as [a0|].
    - eexists. apply init_api_config_frame.
    - exists config. reflexivity. }
  destruct Hs0 as [cfg ->].
  destruct (init_circuits_effect (before ++ [c]) (set_api_config cfg s0))
    as (st' & -> & Hq & Hlast & _).
  cbn [fst snd program init_circuit]. unfold get_quantum_elements.
  cbn [quantum_registers classical_registers init_circuit set_api_config s0].
  assert (Hl : List.last (map (fun c0 => Some (circuit_of c0)) (before ++ [c])) None
               = Some (circuit_of c)) by (rewrite map_app; apply List.last_last).
  rewrite !Hl.
  split; [reflexivity|]. split; [reflexivity|].
  split; [now apply (Hlast before)|]. split; [exact Hq|].
  split; [|split; [|reflexivity]].
  - intros q0 qrest c0 crest -> ->. now rewrite !first_value_declared.
  - intros ->. reflexivity.
Qed.

End Program.

Arguments circuits {Circ SimCirc Seed Api} _.
Arguments last_device_backend {Circ SimCirc Seed Api} _.
Arguments to_execute {Circ SimCirc Seed Api} _.
Arguments api {Circ SimCirc Seed Api} _.
Arguments draws {Circ SimCirc Seed Api} _.
Arguments slept {Circ SimCirc Seed Api} _.
Arguments circuit {Circ SimCirc} _.
Arguments execution {Circ SimCirc} _.
Arguments job_name {SimCirc Seed} _.
Arguments job_qasm_compiled {SimCirc Seed} _.
Arguments job_shots {SimCirc Seed} _.
Arguments job_max_credits {SimCirc Seed} _.
Arguments clear_queue {Circ SimCirc Seed Api} _.
Arguments set_last_device_backend {Circ SimCirc Seed Api} d st.
Arguments set_slept {Circ SimCirc Seed Api} l st.
Arguments sj_compiled_circuit {SimCirc} _.
Arguments sj_shots {SimCirc} _.
Arguments Continue {Circ SimCirc Seed Api A} a st.
Arguments Returned {Circ SimCirc Seed Api A} r st.
Arguments Raised {Circ SimCirc Seed Api A} e st.
Arguments Diverged {Circ SimCirc Seed Api A}.
Arguments queued {SimCirc Seed} device q.
Arguments enqueue {SimCirc Seed} device new q.
Arguments known_prefix {Circ SimCirc} c names.
Arguments homogeneous {SimCirc Seed} js.
Arguments no_sentinel {SimCirc Seed} j.
Arguments batch_check {SimCirc Seed} js last_shots last_max_credits jobs.
Arguments program {Circ SimCirc Seed Api Register} _.
Arguments quantum_registers {Circ SimCirc Seed Api Register} _.
Arguments classical_registers {Circ SimCirc Seed Api Register} _.
Arguments init_circuit {Circ SimCirc Seed Api Register} _.
Arguments api_config {Circ SimCirc Seed Api Register} _.
Arguments queue_ok {SimCirc Seed} q.
Arguments record_of {SimCirc Seed} j q.
Arguments resolved {Register} registry registers rs.

End QuantumProgram.

(** ** Properties of [_remove_identity] *)

Module HamiltonianPhaseEstimationFacts.
Import HamiltonianPhaseEstimation.

Section Coefficients.

Variable C : Type.
Variable czero : C.
Variable cone : C.
Variable cadd : C -> C -> C.

Abbreviation remove_identity := (_remove_identity C czero cone cadd).
Abbreviation summed := (new_SummedOp C cone).

Lemma remove_identity_fold ops :
  forall idcoeff kept,
    fold_left (remove_identity_step C cadd) ops (idcoeff, kept) =
    (fold_left cadd (map coeff (List.filter is_identity ops)) idcoeff,
     kept ++ List.filter has_x_or_z ops).
Proof.
  induction ops as [|op l IH]; intros idcoeff kept; simpl.
  - now rewrite app_nil_r.
  - unfold is_identity. destruct (has_x_or_z op); simpl; rewrite IH.
    + now rewrite <- app_assoc.
    + reflexivity.
Qed.

(** The loop reads the terms only. *)
Lemma remove_identity_terms (s : SummedOp C) :
  remove_identity s =
  (fold_left cadd (map coeff (List.filter is_identity (oplist s))) czero,
   summed (List.filter has_x_or_z (oplist s))).
Proof. unfold _remove_identity. now rewrite remove_identity_fold. Qed.

Lemma pauli_eqb_eq p q : pauli_eqb p q = true <-> p = q.
Proof.
  unfold pauli_eqb. rewrite andb_true_iff, !bool_decide_eq_true.
  destruct p, q; simpl. split; [intros [-> ->]; reflexivity | intros [= -> ->]; auto].
Qed.

Lemma any_repeat_false n : any (repeat false n) = false.
Proof. induction n as [|n IH]; simpl; [reflexivity | exact IH]. Qed.

Lemma any_false_repeat a : any a = false -> a = repeat false (length a).
Proof.
  induction a as [|[] a IH]; simpl; intros H; try discriminate; [reflexivity|].
  f_equal. now apply IH.
Qed.

(** On [n] qubits the terms without X and Z component are the terms whose
    primitive is the identity. *)
Lemma is_identity_iff n (op : PauliOp C) :
  on_qubits n op -> (is_identity op = true <-> primitive op = identity n).
Proof.
  intros [Hx Hz]. unfold is_identity, has_x_or_z. split.
  - rewrite negb_true_iff, orb_false_iff. intros [Ax Az].
    apply any_false_repeat in Ax. apply any_false_repeat in Az.
    rewrite Hx in Ax. rewrite Hz in Az. unfold identity.
    destruct (primitive op); simpl in *. congruence.
  - intros ->. simpl. now rewrite any_repeat_false.
Qed.

(** The coefficients of the identity are those of the terms that the loop
    adds up. *)
Lemma coefficients_identity n (ops : list (PauliOp C)) :
  Forall (on_qubits n) ops ->
  coefficients (identity n) ops = map coeff (List.filter is_identity ops).
Proof.
  unfold coefficients. induction 1 as [|op l Hop _ IH]; simpl; [reflexivity|].
  pose proof (is_identity_iff n op Hop) as Hid.
  destruct (is_identity op) eqn:E.
  - assert (Hp : pauli_eqb (primitive op) (identity n) = true)
      by (apply pauli_eqb_eq, Hid; reflexivity).
    rewrite Hp. simpl. now rewrite IH.
  - destruct (pauli_eqb (primitive op) (identity n)) eqn:Hp; [|exact IH].
    apply pauli_eqb_eq, Hid in Hp. discriminate.
Qed.

(** The identity has no coefficient in the terms that are kept. *)
Lemma coefficients_identity_kept n (ops : list (PauliOp C)) :
  Forall (on_qubits n) ops ->
  coefficients (identity n) (List.filter has_x_or_z ops) = [].
Proof.
  unfold coefficients. induction 1 as [|op l Hop _ IH]; simpl; [reflexivity|].
  pose proof (is_identity_iff n op Hop) as Hid. unfold is_identity in Hid.
  destruct (has_x_or_z op) eqn:E; [|exact IH]. simpl.
  destruct (pauli_eqb (primitive op) (identity n)) eqn:Hp; [|exact IH].
  apply pauli_eqb_eq, Hid in Hp. discriminate.
Qed.

(** The other Paulis have the same coefficients in the terms that are
    kept. *)
Lemma coefficients_other_kept n P (ops : list (PauliOp C)) :
  Forall (on_qubits n) ops -> P <> identity n ->
  coefficients P (List.filter has_x_or_z ops) = coefficients P ops.
Proof.
  unfold coefficients. intros Hl HP.
  induction Hl as [|op l Hop _ IH]; simpl; [reflexivity|].
  pose proof (is_identity_iff n op Hop) as Hid. unfold is_identity in Hid.
  destruct (has_x_or_z op) eqn:E; simpl.
  - destruct (pauli_eqb (primitive op) P); simpl; now rewrite IH.
  - destruct (pauli_eqb (primitive op) P) eqn:Hp; [|exact IH].
    apply pauli_eqb_eq in Hp. destruct HP. rewrite <- Hp. now apply Hid.
Qed.


Lemma filter_kept_again (l : list (PauliOp C)) :
  List.filter has_x_or_z (List.filter has_x_or_z l) = List.filter has_x_or_z l /\
  List.filter is_identity (List.filter has_x_or_z l) = [].
Proof.
  induction l as [|op l [IH1 IH2]]; simpl; [split; reflexivity|].
  destruct (has_x_or_z op) eqn:E; simpl; [|split; assumption].
  unfold is_identity at 1. rewrite E. simpl. rewrite IH1. split; [reflexivity | exact IH2].
Qed.

(** X30. The terms that [_remove_identity] returns all have an X or a Z
    component, so a second pass over them removes nothing and returns
    [0.0]. Over a sum in two parts the returned terms are those of the
    parts, in order, and the coefficient is that of the first part with
    the coefficients of the identity terms of the second added in order. *)
Theorem remove_identity_again (c : C) (first second : list (PauliOp C)) :
  remove_identity (snd (remove_identity {| oplist := first; sum_coeff := c |}))
    = (czero, snd (remove_identity {| oplist := first; sum_coeff := c |})) /\
  Forall (fun op => has_x_or_z op = true)
    (oplist (snd (remove_identity {| oplist := first; sum_coeff := c |}))) /\
  oplist (snd (remove_identity {| oplist := first ++ second; sum_coeff := c |})) =
    oplist (snd (remove_identity {| oplist := first; sum_coeff := c |})) ++
    oplist (snd (remove_identity {| oplist := second; sum_coeff := c |})) /\
  fst (remove_identity {| oplist := first ++ second; sum_coeff := c |}) =
    fold_left cadd (map coeff (List.filter is_identity second))
      (fst (remove_identity {| oplist := first; sum_coeff := c |})).
Proof.
  rewrite !remove_identity_terms. cbn [fst snd oplist new_SummedOp].
  destruct (filter_kept_again first) as [-> ->]. cbn [map fold_left].
  split; [reflexivity|]. split; [|split].
  - apply List.Forall_forall. intros op Hin. now apply List.filter_In in Hin.
  - apply List.filter_app.
  - now rewrite List.filter_app, map_app, fold_left_app.
Qed.

End Coefficients.

End HamiltonianPhaseEstimationFacts.

(** ** A concrete program *)

(** Collaborators small enough to run: a circuit is its source text, the
    unroller and the mapper leave it alone, the n-th random draw is [n], the
    sampling engine reads two classical bits off its seed, both engines
    fail on the circuit ["broken"], and the remote service answers the
    status queries from a script. *)
Module Demo.
Import Py QuantumProgram.

Definition unroll_to_basis (c : string) (basis : string) : string := c.
Definition qasm (c : string) : string := c.
Definition swap_mapper (c : string) (cm : coupling) : string := c.
Definition direction_mapper (c : string) (cm : coupling) : string := c.
Definition cx_cancellation (c : string) : string := c.
Definition optimize_1q_gates (c : string) : string := c.
Definition simulator_backend (q : string) (basis : option string) : string := q.
Definition random_random (n : nat) : Z := Z.of_nat n.

Definition state_output (x width : Z) : sim_output :=
  {| so_result := VDict [("data", VDict [("classical_state", VInt x)])];
     so_number_of_cbits := width |}.

Definition is_broken (cc : option string) : bool :=
  match cc with
  | Some c => String.eqb c "broken"
  | None => true
  end.

Definition QasmSimulator_run (cc : option string) (seed : Z) : outcome sim_output :=
  if is_broken cc then Raise SimulatorError
  else Return (state_output (seed mod 4) 2).

(** An engine for a circuit without classical bits. *)
Definition no_cbits_run (cc : option string) (seed : Z) : outcome sim_output :=
  Return (state_output 0 0).

Definition UnitarySimulator_run (cc : option string) : outcome value :=
  if is_broken cc then Raise SimulatorError
  else Return (VDict [("data", VDict [("unitary", VList [])])]).

Definition payload (status : string) : job_payload :=
  {| jp_status := status; jp_qasms := None |}.

(** The script of the answers still to give; [RUNNING] once it is used up. *)
Definition api_get_job (a : list job_payload) (jobid : string)
    : job_payload * list job_payload :=
  match a with
  | [] => (payload "RUNNING", [])
  | p :: a' => (p, a')
  end.

Definition api_run_job (a : list job_payload) (jobs : list string)
    (backend : string) (shots max_credits : Z)
    : (string + string) * list job_payload :=
  (inr "job-1", a).

Abbreviation state := (QuantumProgram.state string string Z (list job_payload)).
Abbreviation job := (QuantumProgram.job string Z).
Abbreviation compile :=
  (QuantumProgram.compile string string Z (list job_payload) unroll_to_basis qasm
     swap_mapper direction_mapper cx_cancellation optimize_1q_gates
     simulator_backend random_random).
Abbreviation run :=
  (QuantumProgram.run string string Z (list job_payload) random_random
     api_run_job api_get_job QasmSimulator_run UnitarySimulator_run).
Abbreviation run_backends :=
  (QuantumProgram.run_backends string string Z (list job_payload) random_random
     api_run_job api_get_job QasmSimulator_run UnitarySimulator_run).
Abbreviation wait_for_job :=
  (QuantumProgram.wait_for_job string string Z (list job_payload) api_get_job).
Abbreviation run_local_qasm_simulator :=
  (QuantumProgram.run_local_qasm_simulator string Z random_random QasmSimulator_run).
Abbreviation run_local_unitary_simulator :=
  (QuantumProgram.run_local_unitary_simulator string UnitarySimulator_run).
Abbreviation add_circuit := (QuantumProgram.add_circuit string string Z (list job_payload)).
Abbreviation get_result := (QuantumProgram.get_result string string Z (list job_payload)).
Abbreviation get_data := (QuantumProgram.get_data string string Z (list job_payload)).
Abbreviation get_counts := (QuantumProgram.get_counts string string Z (list job_payload)).
Abbreviation get_compiled_qasm :=
  (QuantumProgram.get_compiled_qasm string string Z (list job_payload)).
Abbreviation average_data :=
  (QuantumProgram.average_data string string Z (list job_payload)).

(** A fresh program and one with the circuit ["bell"]. *)
Definition fresh : state :=
  {| circuits := ∅; last_device_backend := ""; to_execute := [];
     api := []; draws := 0; slept := [] |}.

Definition bell : string := "h q[0]; cx q[0],q[1];".

Definition program : state := add_circuit "bell" bell fresh.

(** A job for ["bell"] on a remote device. *)
Definition remote_job (shots max_credits : Z) : job :=
  {| job_name := "bell"; job_qasm_compiled := bell; job_coupling_map := None;
     job_basis_gates := None; job_compiled_circuit := None;
     job_shots := shots; job_max_credits := max_credits; job_seed := None |}.

(** A job for ["bell"] on a local engine. *)
Definition local_job (compiled : string) (shots : Z) : job :=
  {| job_name := "bell"; job_qasm_compiled := bell; job_coupling_map := None;
     job_basis_gates := None; job_compiled_circuit := Some compiled;
     job_shots := shots; job_max_credits := 3; job_seed := Some 0 |}.

(** A program whose entry for ["bell"] has an (empty) execution dict, with
    a given queue and a given script of the remote service. *)
Definition recorded (q : list (string * list job)) (script : list job_payload)
    : state :=
  {| circuits := {[ "bell" := {| circuit := bell; execution := Some ∅ |} ]};
     last_device_backend := ""; to_execute := q; api := script;
     draws := 0; slept := [] |}.

(** A program that holds a counts table for ["bell"] on the last device. *)
Definition counted (counts : list (string * Z)) : state :=
  {| circuits :=
       {[ "bell" :=
            {| circuit := bell;
               execution :=
                 Some {[ "local_qasm_simulator" :=
                           {| ex_qasm_compiled := bell; ex_coupling_map := None;
                              ex_basis_gates := None;
                              ex_compiled_circuit := Some bell;
                              ex_shots := 10; ex_max_credits := 3;
                              ex_result := counts_value counts;
                              ex_status := "COMPLETED" |} ]} |} ]};
     last_device_backend := "local_qasm_simulator"; to_execute := [];
     api := []; draws := 0; slept := [] |}.

(** *** The compiler on a missing name *)

(** C1, as stated, fails: ["bell"] is in the catalog and ["ghost"] is not;
    the call returns the error for ["ghost"], and the queue, empty before
    the call, holds the job of ["bell"] afterwards. *)
Lemma compile_leaves_partial_queue :
  to_execute program = [] /\
  fst (compile ["bell"; "ghost"] "ibmqx2" 1024 3 None None None program)
    = Msg "Error" "ghost not in QuantumProgram" /\
  to_execute (snd (compile ["bell"; "ghost"] "ibmqx2" 1024 3 None None None program))
    = [("ibmqx2", [remote_job 1024 3])].
Proof. repeat split. Qed.

Lemma compile_not_found_witness :
  exists msg new st',
    compile ["bell"; "ghost"] "ibmqx2" 1024 3 None None None program
      = (Msg "Error" msg, st') /\
    map job_name new = ["bell"] /\
    to_execute st' = enqueue "ibmqx2" new [] /\
    queued "ibmqx2" (to_execute st') = new /\
    (forall d, d <> "ibmqx2" -> dict_get d (to_execute st') = None) /\
    circuits st' = circuits program.
Proof.
  destruct (compile_not_found string string Z (list job_payload) unroll_to_basis
              qasm swap_mapper direction_mapper cx_cancellation optimize_1q_gates
              simulator_backend random_random
              ["bell"; "ghost"] "ibmqx2" 1024 3 None None None program)
    as (msg & new & st' & H1 & H2 & H3 & H4 & H5 & H6 & _).
  - right. exists "ghost". split; [simpl; tauto | reflexivity].
  - exists msg, new, st'. repeat split; assumption.
Defined.

(** *** The dispatcher *)

(** A queue with a local device that is dispatched and recorded, and a
    remote device whose job ends in [ERROR_RUNNING_JOB] while it is polled. *)
Definition two_devices : state :=
  recorded [("local_qasm_simulator", [local_job bell 1]);
            ("ibmqx2", [remote_job 1024 3])]
    [payload "RUNNING"; payload "ERROR_RUNNING_JOB"].

Lemma run_returns_with_empty_queue_witness :
  exists st',
    run 12 5 60 two_devices = Returned (Msg "Error" "ERROR_RUNNING_JOB") st' /\
    last_device_backend st' = "ibmqx2" /\
    slept st' = [5] /\
    to_execute st' = [].
Proof.
  eexists. split; [vm_compute; reflexivity|]. split; [reflexivity|].
  split; [reflexivity|].
  eapply (run_returns_with_empty_queue string string Z (list job_payload)
            random_random api_run_job api_get_job QasmSimulator_run
            UnitarySimulator_run 12 5 60 two_devices).
  vm_compute. reflexivity.
Defined.

Lemma mixed_batch_not_homogeneous :
  ~ homogeneous [remote_job 1024 3; remote_job 2048 3].
Proof.
  intros H.
  destruct (H (remote_job 1024 3) (remote_job 2048 3)) as [Hs _];
    simpl; auto; discriminate.
Qed.

(** C4, as stated, fails: the queue holds a remote device with jobs of
    1024 and of 2048 shots, behind a device that is neither remote nor a
    local engine; [run] returns the error of the unknown device and not a
    batch error. *)
Lemma unknown_device_hides_mixed_batch :
  str_in "ibmqx2" online_devices = true /\
  ~ homogeneous [remote_job 1024 3; remote_job 2048 3] /\
  run 12 5 60
    (recorded [("my_device", [remote_job 1024 3]);
               ("ibmqx2", [remote_job 1024 3; remote_job 2048 3])] [])
  = Returned (Msg "Error" "Not a local simulator")
      (set_last_device_backend "my_device" (recorded [] [])).
Proof.
  split; [reflexivity|]. split; [exact mixed_batch_not_homogeneous|].
  vm_compute. reflexivity.
Qed.

(** A local device that is dispatched and recorded, then a remote device
    with jobs of 1024 and of 2048 shots. *)
Definition mixed_batch : state :=
  recorded [("local_unitary_simulator", [local_job bell 1]);
            ("ibmqx2", [remote_job 1024 3; remote_job 2048 3])] [].

Lemma remote_batch_homogeneity_witness :
  (exists msg st',
     run 12 5 60 mixed_batch = Returned (Msg "Error" msg) st' /\
     (msg = shots_error \/ msg = credits_error) /\
     to_execute st' = []) /\
  (homogeneous [remote_job 1024 3; remote_job 2048 3] ->
   exists ls lc,
     batch_check [remote_job 1024 3; remote_job 2048 3] (-1) (-1) []
     = inr ([bell; bell], ls, lc)).
Proof.
  destruct (remote_batch_homogeneity string string Z (list job_payload)
              random_random api_run_job api_get_job QasmSimulator_run
              UnitarySimulator_run 12 5 60
              [("local_unitary_simulator", [local_job bell 1])] "ibmqx2"
              [remote_job 1024 3; remote_job 2048 3] [] mixed_batch
              (snd (match run_backends 12 5 60
                            [("local_unitary_simulator", [local_job bell 1])]
                            mixed_batch with
                    | Continue a st => (a, st)
                    | _ => (tt, mixed_batch)
                    end)))
    as [Hreject Hpass]; [reflexivity|].
  split; [|exact Hpass].
  apply Hreject.
  - repeat constructor; simpl; discriminate.
  - exact mixed_batch_not_homogeneous.
  - reflexivity.
  - vm_compute. reflexivity.
Defined.

(** Compiling ["bell"] twice for a remote device, with 1024 and then with
    2048 shots, and running: the batch is rejected and the queue cleared. *)
Example mixed_shots_are_rejected :
  run 12 5 60
    (snd (compile ["bell"] "ibmqx2" 2048 3 None None None
            (snd (compile ["bell"] "ibmqx2" 1024 3 None None None program))))
  = Returned (Msg "Error" shots_error)
      (set_last_device_backend "ibmqx2" program).
Proof. vm_compute. reflexivity. Qed.

(** Shots of [-1] read as "none seen yet": the check does not compare them
    with the shots of the next job. *)
Example sentinel_shots_pass_the_check :
  batch_check [remote_job (-1) 3; remote_job 5 3] (-1) (-1) []
  = inr ([bell; bell], 5, 3).
Proof. reflexivity. Qed.

(** *** The job poller *)

Lemma empty_script_stays_running jobid :
  stays_running (list job_payload) api_get_job jobid [].
Proof.
  intros k.
  assert (H : polled (list job_payload) api_get_job jobid k [] = []).
  { induction k as [|k IH]; [reflexivity|].
    unfold polled in *. simpl. now rewrite IH. }
  now rewrite H.
Qed.

Lemma wait_for_job_polling_witness :
  wait_for_job 2 "job-1" 1 5
    (recorded [] [payload "RUNNING"; payload "RUNNING"; payload "COMPLETED"])
  = Some (Return (RawJob (payload "COMPLETED")),
          set_slept [1; 1] (recorded [] [])) /\
  exists st',
    wait_for_job 12 "job-1" 5 60 (recorded [] [])
      = Some (Return (Msg "Error" "Time Out"), st') /\
    slept st' = repeat 5 12.
Proof.
  split.
  - apply (proj1 (wait_for_job_polling string string Z (list job_payload)
                    api_get_job "job-1"
                    (recorded [] [payload "RUNNING"; payload "RUNNING";
                                  payload "COMPLETED"]))
             2%nat (payload "RUNNING") (payload "RUNNING") (payload "COMPLETED")
             [payload "RUNNING"; payload "COMPLETED"] [payload "COMPLETED"] []);
      reflexivity.
  - destruct (proj2 (wait_for_job_polling string string Z (list job_payload)
                       api_get_job "job-1" (recorded [] []))
                12%nat 5 60) as (st' & Hrun & Hslept & _).
    + lia.
    + lia.
    + exists 12. reflexivity.
    + apply empty_script_stays_running.
    + vm_compute. lia.
    + exists st'. split; [exact Hrun | exact Hslept].
Defined.

(** C6: the first status query answers [ERROR_RUNNING_JOB]; the poller
    returns the payload as it is, not an error dict with the status. *)
Theorem first_query_error_is_returned_raw (fuel : nat) (wait timeout : Z) :
  wait_for_job fuel "job-1" wait timeout (recorded [] [payload "ERROR_RUNNING_JOB"])
  = Some (Return (RawJob (payload "ERROR_RUNNING_JOB")), recorded [] []).
Proof.
  rewrite wait_for_job_first_query by (simpl; discriminate). reflexivity.
Qed.

(** The same status at the second query gives the error dict. *)
Example second_query_error_is_reported :
  wait_for_job 12 "job-1" 5 60
    (recorded [] [payload "RUNNING"; payload "ERROR_RUNNING_JOB"])
  = Some (Return (Msg "Error" "ERROR_RUNNING_JOB"), set_slept [5] (recorded [] [])).
Proof. reflexivity. Qed.

(** *** The local engines *)

Definition sim (compiled : string) (shots : Z) : sim_job string :=
  {| sj_compiled_circuit := Some compiled; sj_shots := shots |}.

(** C3: both engines fail on the first job of a batch of two; the wrappers
    raise, and return neither a [FAIL] entry nor the result of the second
    job. *)
Theorem engine_failure_leaves_the_wrapper :
  run_local_qasm_simulator [sim "broken" 1; sim bell 1] 0
    = (Raise SimulatorError, 1%nat) /\
  run_local_qasm_simulator [sim "broken" 4; sim bell 1] 0
    = (Raise SimulatorError, 1%nat) /\
  run_local_unitary_simulator [sim "broken" 1; sim bell 1]
    = Raise SimulatorError.
Proof. repeat split. Qed.

(** C8, as stated, fails: two trials of a circuit without classical bits
    report the outcome 0 on 0 bits, and the key of the counts table is
    ["0"], one character wide. *)
Lemma no_classical_bits_key :
  QuantumProgram.run_local_qasm_simulator string Z random_random no_cbits_run
    [sim bell 2] 0
  = (Return [{| r_result := counts_value [("0", 2)]; r_status := "COMPLETED" |}],
     2%nat) /\
  so_number_of_cbits (state_output 0 0) = 0 /\
  String.length "0" = 1%nat.
Proof. repeat split. Qed.

(** Six trials on two classical bits. *)
Lemma sampling_counts_witness :
  run_local_qasm_simulator [sim bell 6] 0
  = (Return [{| r_result :=
                  counts_value [("00", 2); ("01", 2); ("10", 1); ("11", 1)];
                r_status := "COMPLETED" |}], 6%nat) /\
  total [("00", 2); ("01", 2); ("10", 1); ("11", 1)] = 6 /\
  exists s,
    classical_bits (state_output 2 2) = Return s /\
    Z.of_nat (String.length s) = 2 /\ bits_value s = Some 2.
Proof.
  destruct (sampling_counts string Z random_random QasmSimulator_run
              (sim bell 6) 0
              [state_output 0 2; state_output 1 2; state_output 2 2;
               state_output 3 2; state_output 0 2; state_output 1 2]
              ["00"; "01"; "10"; "11"; "00"; "01"])
    as (_ & Hrun & _ & _ & _ & Htotal & Hwidth).
  - simpl. lia.
  - reflexivity.
  - intros [|[|[|[|[|[|i]]]]]] b H; simpl in H; try discriminate;
      injection H as <-; reflexivity.
  - repeat constructor.
  - split; [exact Hrun|]. split; [exact Htotal|].
    destruct (Hwidth (state_output 2 2) 2) as (s & Hs & _ & Hlen & Hval).
    + simpl. auto.
    + reflexivity.
    + simpl. lia.
    + simpl. lia.
    + exists s. auto.
Defined.

(** *** The observable average *)

Definition z_observable : list (string * float) :=
  [("00", 1.0%float); ("11", (-1.0)%float)].

(** C7, as stated, fails on its example: the code adds [3 * 1.0 / 10] and
    [7 * -1.0 / 10], which in binary64 gives [-0.39999999999999997] and not
    [-0.4], the value of [(3 * 1.0 + 7 * -1.0) / 10]. *)
Lemma average_data_example_is_not_exact :
  average_data "bell" z_observable (counted [("00", 3); ("11", 7)])
    = Return (NFloat (-0.39999999999999997)%float) /\
  PrimFloat.eqb (-0.39999999999999997)%float (-0.4)%float = false /\
  ((3 * 1.0 + 7 * (-1.0)) / 10)%float = (-0.4)%float.
Proof. repeat split; vm_compute; reflexivity. Qed.

Lemma average_data_weighted_witness :
  average_data "bell" z_observable (counted [("00", 3); ("11", 7)])
    = weighted_average [("00", 3); ("11", 7)] z_observable /\
  weighted_average [("00", 3); ("11", 7)] z_observable
    = Return (NFloat (-0.39999999999999997)%float).
Proof.
  apply (average_data_weighted string string Z (list job_payload) "bell"
           z_observable [("00", 3); ("11", 7)] (counted [("00", 3); ("11", 7)])).
  reflexivity.
Defined.

(** A key of the counts table that the observable does not have counts in
    the total and adds no term; a key of the observable that the table
    does not have adds nothing. *)
Example average_data_skips_keys :
  average_data "bell" [("00", 1.0%float); ("01", 5.0%float)]
    (counted [("00", 1); ("11", 3)])
  = Return (NFloat 0.25%float).
Proof. vm_compute. reflexivity. Qed.

(** *** The result accessors *)

(** C9: [get_data] raises for a name that is not in the catalog, and both
    [get_result] and [get_data] raise for a device without a record and for
    a circuit that was never run, where [get_counts] and
    [get_compiled_qasm] answer with a value. *)
Theorem accessors_raise_on_missing_entries :
  get_data "ghost" None (counted []) = Raise (KeyError "ghost") /\
  get_result "bell" (Some "ibmqx2") (counted []) = Raise (KeyError "ibmqx2") /\
  get_data "bell" (Some "ibmqx2") (counted []) = Raise (KeyError "ibmqx2") /\
  get_result "bell" None program = Raise (KeyError "execution") /\
  get_counts "bell" (Some "ibmqx2") (counted [])
    = Return (error_dict "Error in circuit name") /\
  get_compiled_qasm "ghost" None (counted [])
    = Return "No compiled qasm for this circuit".
Proof. repeat split. Qed.

(** With a device given or not, the accessors read the same record. *)
Example accessors_read_last_device :
  get_counts "bell" None (counted [("00", 3)])
    = Return (counts_dict [("00", 3)]) /\
  get_counts "bell" (Some "local_qasm_simulator") (counted [("00", 3)])
    = Return (counts_dict [("00", 3)]) /\
  get_compiled_qasm "bell" None (counted []) = Return bell.
Proof. repeat split. Qed.

(** *** A first run *)

(** The entry that [add_circuit] makes has no ["execution"] key: compiling
    and running such a circuit raises when the results are stored, and the
    queue keeps its job. *)
Example first_run_raises :
  run 12 5 60
    (snd (compile ["bell"] "local_unitary_simulator" 1 3 None None None program))
  = Raised (KeyError "execution")
      (set_last_device_backend "local_unitary_simulator"
         (snd (compile ["bell"] "local_unitary_simulator" 1 3 None None None program))).
Proof. vm_compute. reflexivity. Qed.

End Demo.

(** ** A Pauli sum with integer coefficients *)

Module PauliDemo.
Import HamiltonianPhaseEstimation HamiltonianPhaseEstimationFacts.

Local Open Scope float_scope.

Abbreviation remove_identity := (_remove_identity float 0 1 PrimFloat.add).
Abbreviation summed := (new_SummedOp float 1).
Abbreviation weight := (HamiltonianPhaseEstimation.weight float 0 PrimFloat.add PrimFloat.mul).

Definition term (x z : list bool) (c : float) : PauliOp float :=
  {| primitive := {| pauli_x := x; pauli_z := z |}; coeff := c |}.

Definition II (c : float) : PauliOp float := term [false; false] [false; false] c.
Definition XI (c : float) : PauliOp float := term [true; false] [false; false] c.
Definition ZZ (c : float) : PauliOp float := term [false; false] [true; true] c.

(** [0.1 II + 0.2 II + 1.5 XI + 0.3 II] *)
Definition sum4 : list (PauliOp float) := [II 0.1; II 0.2; XI 1.5; II 0.3].

(** [2.0 * (0.5 II + 1.5 XI)] *)
Definition doubled : SummedOp float :=
  {| oplist := [II 0.5; XI 1.5]; sum_coeff := 2 |}.



End PauliDemo.

(** ** The further properties on the example program *)

Module Scenarios.
Import Py QuantumProgram Demo.

(** Registers as their kind, name and size; a circuit is its source, and
    adding a register appends its declaration. *)
Definition Register : Type := string * string * Z.
Definition QuantumRegister (name : string) (size : Z) : Register := ("qreg", name, size).
Definition ClassicalRegister (name : string) (size : Z) : Register := ("creg", name, size).
Definition QuantumCircuit : string := "OPENQASM 2.0;".
Definition circuit_add (c : string) (r : Register) : string :=
  c +:+ " " +:+ fst (fst r) +:+ " " +:+ snd (fst r) +:+ ";".

(** A client that wants the url as a string. *)
Definition IBMQuantumExperience (token config : value) : outcome (list job_payload) :=
  match config with
  | VDict [(_, VStr _)] => Return []
  | _ => Raise TypeError
  end.

Abbreviation session :=
  (QuantumProgram.session string string Z (list job_payload) Register).
Abbreviation execute :=
  (QuantumProgram.execute string string Z (list job_payload) unroll_to_basis qasm
     swap_mapper direction_mapper cx_cancellation optimize_1q_gates
     simulator_backend random_random api_run_job api_get_job QasmSimulator_run
     UnitarySimulator_run).
Abbreviation dispatch :=
  (QuantumProgram.dispatch string string Z (list job_payload) random_random
     api_run_job api_get_job QasmSimulator_run UnitarySimulator_run).
Abbreviation store_results :=
  (QuantumProgram.store_results string string Z (list job_payload)).
Abbreviation execution_of :=
  (QuantumProgram.execution_of string string Z (list job_payload)).
Abbreviation qasm_job := (QuantumProgram.qasm_job string Z random_random QasmSimulator_run).
Abbreviation get_circuit := (QuantumProgram.get_circuit string string Z (list job_payload)).
Abbreviation get_quantum_elements :=
  (QuantumProgram.get_quantum_elements string string Z (list job_payload) Register).
Abbreviation create_circuit :=
  (QuantumProgram.create_circuit string string Z (list job_payload) Register
     QuantumCircuit circuit_add).
Abbreviation set_api :=
  (QuantumProgram.set_api_ string string Z (list job_payload) Register
     IBMQuantumExperience).
Abbreviation set_api_token :=
  (QuantumProgram.set_api_token string string Z (list job_payload) Register
     IBMQuantumExperience).
Abbreviation set_api_url :=
  (QuantumProgram.set_api_url string string Z (list job_payload) Register
     IBMQuantumExperience).
Abbreviation init :=
  (QuantumProgram.__init__ string string Z (list job_payload) Register
     QuantumRegister ClassicalRegister QuantumCircuit circuit_add).

(** The program with ["bell"], two registers and no API configuration. *)
Definition with_registers : session :=
  {| QuantumProgram.program := Demo.program;
     quantum_registers := [("qr", QuantumRegister "qr" 2)];
     classical_registers := [("cr", ClassicalRegister "cr" 2)];
     init_circuit := None;
     api_config := [] |}.

(** *** The compiler and the queue *)

Lemma compile_keeps_queue_shape_witness :
  queue_ok (to_execute (snd (compile ["bell"] "ibmqx2" 1024 3 None None None
                               Demo.program))).
Proof.
  refine (proj1 (compile_keeps_queue_shape string string Z (list job_payload)
                   unroll_to_basis qasm swap_mapper direction_mapper cx_cancellation
                   optimize_1q_gates simulator_backend random_random
                   ["bell"] "ibmqx2" 1024 3 None None None Demo.program _)).
  split; constructor.
Defined.

Lemma execute_hides_compile_error_witness :
  execute 12 ["ghost"] "local_qasm_simulator" 1024 3 5 60 None None None Demo.program
  = Returned (Msg "COMPLETED" "all done") (clear_queue Demo.program).
Proof.
  refine (proj2 (proj2 (execute_hides_compile_error string string Z (list job_payload)
                   unroll_to_basis qasm swap_mapper direction_mapper cx_cancellation
                   optimize_1q_gates simulator_backend random_random api_run_job
                   api_get_job QasmSimulator_run UnitarySimulator_run
                   12 ["ghost"] "local_qasm_simulator" 1024 3 5 60 None None None
                   Demo.program _)) _).
  - vm_compute. reflexivity.
  - reflexivity.
Defined.

(** *** The job poller *)

Lemma wait_for_job_effect_witness :
  exists n, (n <= 2)%nat /\ [1] = repeat 1 n.
Proof.
  destruct (wait_for_job_effect string string Z (list job_payload) api_get_job
              2 "job-1" 1 5 (recorded [] [payload "RUNNING"; payload "COMPLETED"])
              (RawJob (payload "COMPLETED")) (set_slept [1] (recorded [] [])))
    as (n & Hn & Hs & _).
  - vm_compute. reflexivity.
  - exists n. split; [exact Hn | exact Hs].
Defined.

Lemma wait_for_job_finishes_witness :
  wait_for_job 2 "job-1" 1 5
    (recorded [] [payload "RUNNING"; payload "ERROR_RUNNING_JOB"])
  = Some (Return (Msg "Error" "ERROR_RUNNING_JOB"), set_slept [1] (recorded [] [])).
Proof.
  apply (wait_for_job_finishes string string Z (list job_payload) api_get_job
           2 "job-1" 1 5 1
           (recorded [] [payload "RUNNING"; payload "ERROR_RUNNING_JOB"])).
  - intros [|i] Hi; [reflexivity | lia].
  - vm_compute. discriminate.
  - intros i Hi. lia.
  - lia.
  - lia.
Defined.

Lemma wait_for_job_steps_over_timeout_witness :
  wait_for_job 7 "job-1" 2 5 (recorded [] []) = None /\
  wait_for_job 7 "job-1" (-2) 5 (recorded [] [])
    = Some (Raise ValueError, recorded [] []).
Proof.
  split.
  - apply (proj1 (proj2 (wait_for_job_steps_over_timeout string string Z
                           (list job_payload) api_get_job 7 "job-1" 2 5
                           (recorded [] []) ltac:(intros k; lia)
                           (empty_script_stays_running "job-1")))).
    lia.
  - apply (proj2 (proj2 (wait_for_job_steps_over_timeout string string Z
                           (list job_payload) api_get_job 6 "job-1" (-2) 5
                           (recorded [] []) ltac:(intros k; lia)
                           (empty_script_stays_running "job-1")))).
    lia.
Defined.

(** With a negative wait the first sleep raises: the poller and, around
    it, [run] are left by [ValueError], and the queue keeps its job. *)
Example negative_wait_raises :
  wait_for_job 12 "job-1" (-5) 60 (recorded [] [])
    = Some (Raise ValueError, recorded [] []) /\
  run 12 (-5) 60 (recorded [("ibmqx2", [remote_job 1024 3])] [])
    = Raised ValueError
        (set_last_device_backend "ibmqx2"
           (recorded [("ibmqx2", [remote_job 1024 3])] [])).
Proof. split; vm_compute; reflexivity. Qed.

(** *** The dispatcher *)

(** The program with ["bell"], never run, and its job for the unitary
    engine in the queue. *)
Definition never_run : state :=
  snd (compile ["bell"] "local_unitary_simulator" 1 3 None None None Demo.program).

Lemma run_raise_keeps_queue_witness :
  to_execute (set_last_device_backend "local_unitary_simulator" never_run)
  = to_execute never_run.
Proof.
  apply (run_raise_keeps_queue string string Z (list job_payload) random_random
           api_run_job api_get_job QasmSimulator_run UnitarySimulator_run
           12 5 60 never_run (KeyError "execution")).
  vm_compute. reflexivity.
Defined.

Lemma run_raises_without_execution_witness :
  exists st1,
    run 12 5 60 never_run = Raised (KeyError "execution") st1 /\
    to_execute st1 = to_execute never_run.
Proof.
  eexists.
  eapply (run_raises_without_execution string string Z (list job_payload)
            random_random api_run_job api_get_job QasmSimulator_run
            UnitarySimulator_run 12 5 60 "local_unitary_simulator").
  - vm_compute. reflexivity.
  - vm_compute. reflexivity.
  - vm_compute. reflexivity.
  - reflexivity.
Defined.

Lemma run_completed_records_witness :
  exists st' rec,
    run 12 5 60 (recorded [("local_qasm_simulator", [local_job bell 1])] [])
      = Returned (Msg "COMPLETED" "all done") st' /\
    execution_of "bell" "local_qasm_simulator" st' = Return rec.
Proof.
  eexists.
  assert (Hrun : run 12 5 60 (recorded [("local_qasm_simulator", [local_job bell 1])] [])
                 = Returned (Msg "COMPLETED" "all done") _)
    by (vm_compute; reflexivity).
  destruct (run_completed_records string string Z (list job_payload) random_random
              api_run_job api_get_job QasmSimulator_run UnitarySimulator_run
              _ _ _ _ _ _ Hrun) as [(_ & Hrec & _)|Herr].
  - destruct (Hrec "local_qasm_simulator" [local_job bell 1] (local_job bell 1))
      as [rec Hr]; [left; reflexivity | left; reflexivity |].
    exists rec. split; [exact Hrun | exact Hr].
  - discriminate Herr.
Defined.

Lemma store_results_last_wins_witness :
  exists st',
    store_results "local_qasm_simulator" [local_job bell 1]
      [completed (counts_value [("00", 1)])] 0 (recorded [] [])
      = Continue tt st' /\
    execution_of "bell" "local_qasm_simulator" st'
      = Return (record_of (local_job bell 1) (completed (counts_value [("00", 1)]))).
Proof.
  eexists. split; [vm_compute; reflexivity|].
  eapply (proj1 (store_results_last_wins string string Z (list job_payload)
                   "local_qasm_simulator" [local_job bell 1]
                   [completed (counts_value [("00", 1)])] 0 (recorded [] []) _ _)
            0%nat (local_job bell 1) (completed (counts_value [("00", 1)]))).
  - reflexivity.
  - reflexivity.
  - intros [|i'] j' Hlt; [lia | discriminate].
  Unshelve. vm_compute. reflexivity.
Defined.

(** *** The local engines *)

Lemma unitary_batch_witness :
  run_local_unitary_simulator [sim bell 1; sim bell 5]
  = Return [completed (VDict [("data", VDict [("unitary", VList [])])]);
            completed (VDict [("data", VDict [("unitary", VList [])])])].
Proof.
  apply (proj1 (unitary_batch string UnitarySimulator_run [sim bell 1; sim bell 5]
                  [VDict [("data", VDict [("unitary", VList [])])];
                   VDict [("data", VDict [("unitary", VList [])])]]
                  ltac:(repeat constructor))).
Defined.

Lemma sampling_single_shots_witness :
  run_local_qasm_simulator [sim bell 1; sim bell 1] 0
  = (Return [completed (so_result (state_output 0 2));
             completed (so_result (state_output 1 2))], 2%nat).
Proof.
  apply (sampling_single_shots string Z random_random QasmSimulator_run
           [sim bell 1; sim bell 1] [state_output 0 2; state_output 1 2] 0).
  - repeat constructor.
  - reflexivity.
  - intros [|[|i]] j b Hj Hb; try discriminate;
      injection Hj as <-; injection Hb as <-; reflexivity.
Defined.

Lemma sampling_without_shots_witness :
  qasm_job (sim bell 0) 4 = (Return (completed (counts_value [])), 4%nat).
Proof.
  apply (sampling_without_shots string Z random_random QasmSimulator_run (sim bell 0) 4).
  simpl. lia.
Defined.

(** *** The average and the rendering *)

Lemma average_data_edges_witness :
  average_data "bell" [("01", 1.0%float)] (counted [("00", 3)]) = Return (NInt 0) /\
  average_data "bell" [("00", 1.0%float)] (counted [("00", 0)]) = Raise ZeroDivisionError.
Proof.
  split.
  - apply (proj1 (average_data_edges string string Z (list job_payload) "bell"
                    [("01", 1.0%float)] [("00", 3)] (counted [("00", 3)]) eq_refl)).
    reflexivity.
  - apply (proj2 (average_data_edges string string Z (list job_payload) "bell"
                    [("00", 1.0%float)] [("00", 0)] (counted [("00", 0)]) eq_refl)
             0 1.0%float [] 0%float).
    + reflexivity.
    + reflexivity.
    + vm_compute. reflexivity.
Defined.

Lemma rendering_round_trip_witness :
  bits_value (zfill (drop_chars 2 (bin 5)) 4) = Some 5.
Proof.
  apply (proj1 (rendering_round_trip 5 5 4 4 ltac:(lia) ltac:(lia))).
Defined.

(** *** Circuits and registers *)

Lemma create_circuit_builds_witness :
  fst (create_circuit "bell" [inl "qr"] [inl "cr"] None with_registers)
  = Return "OPENQASM 2.0; qreg qr; creg cr;".
Proof.
  rewrite (proj1 (create_circuit_builds string string Z (list job_payload) Register
                    QuantumCircuit circuit_add "bell" [inl "qr"] [inl "cr"] None
                    [QuantumRegister "qr" 2] [ClassicalRegister "cr" 2] with_registers
                    ltac:(repeat constructor) ltac:(repeat constructor))).
  reflexivity.
Defined.

Lemma create_circuit_unknown_register_witness :
  fst (create_circuit "bell" [inl "qr"; inl "zz"] [inl "cr"] None with_registers)
    = Raise (KeyError "zz") /\
  get_circuit "bell"
    (QuantumProgram.program
       (snd (create_circuit "bell" [inl "qr"; inl "zz"] [inl "cr"] None with_registers)))
    = Return "OPENQASM 2.0; qreg qr;".
Proof.
  pose proof (create_circuit_unknown_register string string Z (list job_payload) Register
                QuantumCircuit circuit_add "bell" [inl "qr"] "zz" [] [inl "cr"] None
                [QuantumRegister "qr" 2] with_registers
                ltac:(repeat constructor) eq_refl) as (Hc & Hg & _).
  simpl app in Hc. rewrite Hc. split; [reflexivity | exact Hg].
Defined.

(** *** The API configuration and the constructor *)

Lemma set_api_token_needs_url_witness :
  fst (set_api_token (Some "secret") with_registers) = Raise (KeyError "url") /\
  fst (set_api_url (Some "https://q") with_registers) = Raise (KeyError "token").
Proof.
  destruct (set_api_token_needs_url string string Z (list job_payload) Register
              IBMQuantumExperience "s" "ecret" "h" "ttps://q" with_registers
              eq_refl eq_refl) as [Ht Hu].
  rewrite Ht, Hu. split; reflexivity.
Defined.

(** With this client the second connection, without arguments, fails: the
    url that it is given is a dict. *)
Example set_api_again_fails :
  fst (set_api (Some "secret") (Some "https://q") with_registers) = Return true /\
  fst (set_api None None
         (snd (set_api (Some "secret") (Some "https://q") with_registers)))
    = Return false.
Proof. split; reflexivity. Qed.

Definition top_level_specs : specs :=
  {| sp_api := None; sp_circuits := None;
     sp_quantum_registers := Some {| rs_name := "qr"; rs_size := 2 |};
     sp_classical_registers := Some {| rs_name := "cr"; rs_size := 2 |};
     sp_name := Some "bell" |}.

Lemma init_registers_by_name_witness :
  fst (init (Some top_level_specs) [] [] 0 []) = Raise (KeyError "q").
Proof.
  apply (proj1 (init_registers_by_name string string Z (list job_payload) Register
                  QuantumRegister ClassicalRegister QuantumCircuit circuit_add
                  top_level_specs {| rs_name := "qr"; rs_size := 2 |}
                  {| rs_name := "cr"; rs_size := 2 |} "bell" [] [] 0%nat []
                  eq_refl eq_refl eq_refl eq_refl) "q"%char "r"%char EmptyString eq_refl).
Defined.

Definition circuit_specs : specs :=
  {| sp_api := None;
     sp_circuits :=
       Some [{| cs_name := "bell";
                cs_quantum_registers := [{| rs_name := "qr"; rs_size := 2 |}];
                cs_classical_registers := [{| rs_name := "cr"; rs_size := 2 |}] |}];
     sp_quantum_registers := None; sp_classical_registers := None;
     sp_name := None |}.

Lemma init_with_circuits_witness :
  get_quantum_elements true (snd (init (Some circuit_specs) [] [] 0 []))
  = Return (Some "OPENQASM 2.0; qreg qr; creg cr;",
            QuantumRegister "qr" 2, ClassicalRegister "cr" 2).
Proof.
  apply (proj1 (proj2 (proj2 (proj2 (proj2
           (init_with_circuits string string Z (list job_payload) Register
              QuantumRegister ClassicalRegister QuantumCircuit circuit_add
              circuit_specs []
              {| cs_name := "bell";
                 cs_quantum_registers := [{| rs_name := "qr"; rs_size := 2 |}];
                 cs_classical_registers := [{| rs_name := "cr"; rs_size := 2 |}] |}
              [] [] 0%nat [] eq_refl)))))
           {| rs_name := "qr"; rs_size := 2 |} []
           {| rs_name := "cr"; rs_size := 2 |} [] eq_refl eq_refl).
Defined.

End Scenarios.
